(** * Loom engine: the orchestrator and the agent runner

    A shallow embedding of [packages/engine/src/orchestrator.ts],
    [packages/engine/src/agent.ts], the helpers of [packages/github/src]
    ([issues.ts], [pulls.ts], [repos.ts]) and the tables of
    [packages/db/src/schema.ts], with the properties of the poll loop
    proved over it.

    Conventions.
    - A JavaScript string is a [string] that holds the bytes of its UTF-8
      form; [number]s that hold ids, issue numbers and exit codes are [Z];
      [T | null | undefined] is [option T].
    - A table is the list of its rows in rowid order.  The statements of
      the store are total: an error of SQLite itself (a full disk, a
      broken constraint) is outside the model.
    - Everything outside the process (the GitHub API, child processes, the
      file system, the clock) is an oracle [World]: the n-th external call
      of a run receives the n-th reply of the oracle.  The code is
      sequential ([await] at every call), so a run is a function from the
      oracle and the initial state to an outcome and a final state.
    - An exception is the [Throw] outcome of the monad [M]; it carries the
      message of the [Error].
    - Calls and the lines of the console are recorded in a trace.
    - [start], [stop] and the [running] flag are left out; [loop n] is [n]
      turns of the [while] of [loop]. *)

From Stdlib Require Import ZArith String Ascii List Bool Lia.
From Stdlib Require Import DecimalString DecimalZ DecimalPos.
Import ListNotations.

Local Open Scope string_scope.
Local Open Scope Z_scope.

(* ================================================================== *)
(** ** JavaScript string helpers *)

(** Template-literal rendering of an integral [number]. *)
Definition string_of_Z (z : Z) : string :=
  NilZero.string_of_int (Z.to_int z).

(** Truthiness of a string: [Boolean(s)], [if (s)], [s || d]. *)
Definition truthy (s : string) : bool :=
  match s with EmptyString => false | String _ _ => true end.

(** [a ?? d]. *)
Definition nullish {A : Type} (a : option A) (d : A) : A :=
  match a with Some x => x | None => d end.

(** [Array.prototype.join]. *)
Definition join_with (sep : string) (l : list string) : string :=
  String.concat sep l.

(** A JavaScript string is a sequence of UTF-16 code units; here it is held
    as the bytes of its UTF-8 form, a surrogate that stands alone as the
    three bytes of its code point.  [length] and [slice] count code units:
    a sequence of one, two or three bytes is one unit, a sequence of four
    bytes is the two units of a surrogate pair. *)
Definition is_continuation (b : ascii) : bool :=
  let n := nat_of_ascii b in (Nat.leb 128 n && Nat.ltb n 192)%bool.

(** The bytes of the sequence that a byte leads. *)
Definition utf8_width (b : ascii) : nat :=
  let n := nat_of_ascii b in
  if Nat.ltb n 192 then 1%nat
  else if Nat.ltb n 224 then 2%nat
  else if Nat.ltb n 240 then 3%nat
  else 4%nat.

(** The code units of the character that a byte leads. *)
Definition utf16_units (b : ascii) : nat :=
  if Nat.ltb (nat_of_ascii b) 240 then 1%nat else 2%nat.

(** [s.length], read from the byte where [k] more bytes of the character
    before may follow. *)
Fixpoint units_from (k : nat) (s : string) : nat :=
  match s with
  | EmptyString => 0%nat
  | String b r =>
      if (is_continuation b && Nat.ltb 0 k)%bool then units_from (k - 1)%nat r
      else (utf16_units b + units_from (utf8_width b - 1) r)%nat
  end.

Definition utf16_length (s : string) : nat := units_from 0 s.

Definition byte_at (i : nat) (s : string) : nat :=
  match String.get i s with
  | Some c => nat_of_ascii c
  | None => 0%nat
  end.

(** The first unit of the surrogate pair of a four-byte sequence, on its
    own: the high surrogate [0xD800 + w], where [w] is the ten high bits of
    the code point less [0x10000]. *)
Definition high_surrogate (b : ascii) (rest : string) : string :=
  let w := ((nat_of_ascii b mod 8) * 256 + (byte_at 0 rest mod 64) * 4
            + (byte_at 1 rest mod 64) / 16 - 64)%nat in
  String (ascii_of_nat 237)
    (String (ascii_of_nat (160 + (w / 64) mod 16)%nat)
       (String (ascii_of_nat (128 + w mod 64)%nat) EmptyString)).

(** The first [n] code units, read from the byte where [k] more bytes of
    the character before may follow.  A cut between the two units of a pair
    leaves the high surrogate. *)
Fixpoint slice_from (k n : nat) (s : string) : string :=
  match s with
  | EmptyString => EmptyString
  | String b r =>
      if (is_continuation b && Nat.ltb 0 k)%bool
      then String b (slice_from (k - 1)%nat n r)
      else if Nat.leb (utf16_units b) n
      then String b (slice_from (utf8_width b - 1)%nat (n - utf16_units b)%nat r)
      else if Nat.eqb n 1 then high_surrogate b r
      else EmptyString
  end.

(** [s.slice(0, n)] for [0 <= n]. *)
Definition slice0 (n : nat) (s : string) : string := slice_from 0 n s.

(** White space removed by [String.prototype.trim] (the one-byte part). *)
Definition is_space (c : ascii) : bool :=
  let n := nat_of_ascii c in
  (Nat.eqb n 32 || (Nat.leb 9 n && Nat.leb n 13))%bool.

Fixpoint trimStart (s : string) : string :=
  match s with
  | EmptyString => EmptyString
  | String c r => if is_space c then trimStart r else s
  end.

Fixpoint trimEnd (s : string) : string :=
  match s with
  | EmptyString => EmptyString
  | String c r =>
      match trimEnd r with
      | EmptyString => if is_space c then EmptyString else String c EmptyString
      | r' => String c r'
      end
  end.

Definition trim (s : string) : string := trimEnd (trimStart s).

(** Does the character occur in the string? *)
Fixpoint occurs (c : ascii) (s : string) : bool :=
  match s with
  | EmptyString => false
  | String d r => (Ascii.eqb c d || occurs c r)%bool
  end.

(* ================================================================== *)
(** ** Outcomes *)

Inductive Result (A : Type) : Type :=
| Ok (a : A)
| Throw (message : string).
Arguments Ok {A} a.
Arguments Throw {A} message.

(* ================================================================== *)
(** ** packages/engine/src/types.ts *)

Inductive AgentProvider := claude | custom.

Definition provider_name (p : AgentProvider) : string :=
  match p with claude => "claude" | custom => "custom" end.

Module AgentConfig.
Record t := mk {
  provider : AgentProvider;
  model : option string;
  binary : option string;
  extraArgs : option (list string);
  cwd : option string;
  timeoutMs : option Z }.
End AgentConfig.

Module AgentRunInput.
Record t := mk {
  taskId : Z;
  issueTitle : string;
  issueBody : option string;
  repoDir : string;
  branch : string;
  config : AgentConfig.t }.
End AgentRunInput.

Module AgentRunResult.
Record t := mk {
  success : bool;
  output : string;
  error : option string;
  exitCode : option Z }.
End AgentRunResult.

Module RepoWatchConfig.
Record t := mk {
  owner : string;
  repo : string;
  label : string;
  baseBranch : option string }.
End RepoWatchConfig.

Module EngineConfig.
Record t := mk {
  githubToken : string;
  pollIntervalMs : Z;
  repos : list RepoWatchConfig.t;
  agent : AgentConfig.t;
  workDir : string }.
End EngineConfig.

(* ================================================================== *)
(** ** packages/github/src/types.ts *)

Inductive IssueState := open | closed.

Module GitHubLabel.
Record t := mk {
  id : Z;
  name : string;
  color : string;
  description : option string }.
End GitHubLabel.

Module GitHubIssue.
Record t := mk {
  id : Z;
  number : Z;
  title : string;
  body : option string;
  state : IssueState;
  labels : list GitHubLabel.t;
  url : string;
  htmlUrl : string;
  createdAt : string;
  updatedAt : string }.
End GitHubIssue.

(** The fields of a pull request that the engine reads. *)
Module GitHubPullRequest.
Record t := mk {
  number : Z;
  htmlUrl : string }.
End GitHubPullRequest.

Module GitHubRepo.
Record t := mk {
  owner : string;
  name : string;
  fullName : string;
  cloneUrl : string;
  sshUrl : string;
  defaultBranch : string }.
End GitHubRepo.

(* ================================================================== *)
(** ** packages/db/src/schema.ts *)

Inductive TaskStatus := todo | in_progress | completed | failed.
Inductive RunStatus := run_running | run_completed | run_failed.

Module Repo.
Record t := mk {
  createdAt : string;
  githubUrl : string;
  id : Z;
  name : string;
  owner : string;
  watchLabel : string }.
End Repo.

Module Task.
Record t := mk {
  createdAt : string;
  description : option string;
  githubIssueId : option Z;
  id : Z;
  prNumber : option Z;
  prUrl : option string;
  repoId : option Z;
  status : TaskStatus;
  title : string;
  updatedAt : string }.
End Task.

Module AgentRun.
Record t := mk {
  completedAt : option string;
  error : option string;
  id : Z;
  model : option string;
  output : option string;
  provider : string;
  startedAt : string;
  status : RunStatus;
  taskId : Z }.
End AgentRun.

(** The database: the three tables the orchestrator touches and, for each,
    the [sqlite_sequence] counter of its AUTOINCREMENT key.  [task_logs] is
    never read or written by the engine. *)
Module Store.
Record t := mk {
  repos : list Repo.t;
  tasks : list Task.t;
  agentRuns : list AgentRun.t;
  seq_repos : Z;
  seq_tasks : Z;
  seq_agentRuns : Z }.
End Store.

(** AUTOINCREMENT: one more than the largest rowid that ever existed. *)
Definition next_id (seq : Z) (ids : list Z) : Z :=
  1 + fold_right Z.max seq ids.

Definition next_repo_id (d : Store.t) : Z :=
  next_id (Store.seq_repos d) (map Repo.id (Store.repos d)).

Definition next_task_id (d : Store.t) : Z :=
  next_id (Store.seq_tasks d) (map Task.id (Store.tasks d)).

Definition next_agentRun_id (d : Store.t) : Z :=
  next_id (Store.seq_agentRuns d) (map AgentRun.id (Store.agentRuns d)).

(** INSERT of one row: the row goes last and the counter takes its id. *)
Definition with_repo (row : Repo.t) (d : Store.t) : Store.t :=
  Store.mk (Store.repos d ++ [row]) (Store.tasks d) (Store.agentRuns d)
    (Repo.id row) (Store.seq_tasks d) (Store.seq_agentRuns d).

Definition with_task (row : Task.t) (d : Store.t) : Store.t :=
  Store.mk (Store.repos d) (Store.tasks d ++ [row]) (Store.agentRuns d)
    (Store.seq_repos d) (Task.id row) (Store.seq_agentRuns d).

Definition with_agentRun (row : AgentRun.t) (d : Store.t) : Store.t :=
  Store.mk (Store.repos d) (Store.tasks d) (Store.agentRuns d ++ [row])
    (Store.seq_repos d) (Store.seq_tasks d) (AgentRun.id row).

(** UPDATE tasks SET ... WHERE id = taskId; [updatedAt] is refreshed by its
    [$onUpdate]. *)
Definition touch_task (set : Task.t -> Task.t) (taskId : Z) (now : string)
    (t : Task.t) : Task.t :=
  if Z.eqb (Task.id t) taskId then
    let u := set t in
    Task.mk (Task.createdAt u) (Task.description u) (Task.githubIssueId u)
      (Task.id u) (Task.prNumber u) (Task.prUrl u) (Task.repoId u)
      (Task.status u) (Task.title u) now
  else t.

Definition tasks_updated (set : Task.t -> Task.t) (taskId : Z) (now : string)
    (d : Store.t) : Store.t :=
  Store.mk (Store.repos d) (map (touch_task set taskId now) (Store.tasks d))
    (Store.agentRuns d) (Store.seq_repos d) (Store.seq_tasks d)
    (Store.seq_agentRuns d).

(** UPDATE agent_runs SET ... WHERE id = runId. *)
Definition touch_agentRun (set : AgentRun.t -> AgentRun.t) (runId : Z)
    (r : AgentRun.t) : AgentRun.t :=
  if Z.eqb (AgentRun.id r) runId then set r else r.

Definition agentRuns_updated (set : AgentRun.t -> AgentRun.t) (runId : Z)
    (d : Store.t) : Store.t :=
  Store.mk (Store.repos d) (Store.tasks d)
    (map (touch_agentRun set runId) (Store.agentRuns d))
    (Store.seq_repos d) (Store.seq_tasks d) (Store.seq_agentRuns d).

(* ================================================================== *)
(** ** The outside world *)

(** What [spawnSync] hands back, as far as the code reads it. *)
Module SpawnSyncResult.
Record t := mk {
  error : option string;     (* [result.error.message] *)
  status : option Z;
  stdout : option string;
  stderr : option string }.
End SpawnSyncResult.

Module SpawnOptions.
Record t := mk {
  cwd : option string;
  maxBuffer : option Z;
  timeout : option Z }.
End SpawnOptions.

(** External calls, with the arguments the code passes. *)
Inductive Call :=
| issues_listForRepo (owner repo labels state : string) (per_page : Z)
| issues_addLabels (owner repo : string) (issue_number : Z) (labels : list string)
| issues_createComment (owner repo : string) (issue_number : Z) (body : string)
| repos_get (owner repo : string)
| git_getRef (owner repo ref : string)
| git_createRef (owner repo ref sha : string)
| pulls_create (owner repo title body head base : string)
| mkdirSync (path : string)
| spawnSync (cmd : string) (args : list string) (opts : SpawnOptions.t)
| Date_now
| setTimeout (ms : Z).

(** Lines written to the console. *)
Inductive Log :=
| log_poll_error (message : string)
| log_polling (nrepos : nat)
| log_repo_error (owner repo message : string)
| log_issue_count (owner repo : string) (n : nat) (label : string)
| log_skipping (issue : Z) (task : Z) (status : TaskStatus)
| log_retrying (task : Z) (issue : Z)
| log_created (task : Z) (issue : Z) (title : string)
| log_pr_opened (url : string)
| log_task_failed (task : Z) (message : string)
| log_agent_running (binary dir : string)
| log_agent_args (shown : string)
| log_agent_failed (exitCode : option Z)
| log_agent_stderr (shown : string)
| log_agent_completed
| log_agent_output (shown : string).

Inductive Event :=
| EvCall (c : Call)
| EvLog (l : Log).

(** The oracle: the reply to the external call made at a given tick. *)
Module World.
Record t := mk {
  listForRepo : nat -> Result (list GitHubIssue.t);
  octokit_unit : nat -> Result unit;
  repos_get : nat -> Result GitHubRepo.t;
  getRef : nat -> Result string;
  pulls_create : nat -> Result GitHubPullRequest.t;
  mkdir : nat -> Result unit;
  spawn : nat -> SpawnSyncResult.t;
  timer : nat -> unit;
  isoNow : nat -> string;
  current_timestamp : nat -> string }.
End World.

(** The state threaded through a run. *)
Module State.
Record t := mk {
  db : Store.t;
  tick : nat;
  trace : list Event }.
End State.

(* ================================================================== *)
(** ** The state-and-exception monad *)

Definition M (A : Type) : Type := State.t -> Result A * State.t.

Definition ret {A} (a : A) : M A := fun st => (Ok a, st).

Definition throw {A} (message : string) : M A := fun st => (Throw message, st).

Definition bind {A B} (m : M A) (k : A -> M B) : M B :=
  fun st =>
    match m st with
    | (Ok a, st') => k a st'
    | (Throw e, st') => (Throw e, st')
    end.

(** [try { m } catch (err) { h err }]. *)
Definition try_catch {A} (m : M A) (h : string -> M A) : M A :=
  fun st =>
    match m st with
    | (Ok a, st') => (Ok a, st')
    | (Throw e, st') => h e st'
    end.

Declare Scope monad_scope.
Delimit Scope monad_scope with monad.
Notation "x <- m ;; k" := (bind m (fun x => k))
  (at level 61, m at next level, right associativity) : monad_scope.
Notation "' pat <- m ;; k" := (bind m (fun x => match x with pat => k end))
  (at level 61, pat pattern, m at next level, right associativity) : monad_scope.
Notation "m ;;; k" := (bind m (fun _ => k))
  (at level 61, right associativity) : monad_scope.
Local Open Scope monad_scope.

(** [for (const x of xs) await f(x)]. *)
Fixpoint for_of {A} (xs : list A) (f : A -> M unit) : M unit :=
  match xs with
  | [] => ret tt
  | x :: rest => f x ;;; for_of rest f
  end.

Definition get_db : M Store.t := fun st => (Ok (State.db st), st).

Definition put_db (d : Store.t) : M unit :=
  fun st => (Ok tt, State.mk d (State.tick st) (State.trace st)).

Definition emit (e : Event) : M unit :=
  fun st => (Ok tt, State.mk (State.db st) (State.tick st) (State.trace st ++ [e])).

Definition console (l : Log) : M unit := emit (EvLog l).

(* ================================================================== *)
(** ** node:path, POSIX flavour *)

(** [s.split(c)] for a one-character separator. *)
Fixpoint split_on (c : ascii) (s : string) : list string :=
  match s with
  | EmptyString => [EmptyString]
  | String d r =>
      if Ascii.eqb d c then EmptyString :: split_on c r
      else match split_on c r with
           | seg :: rest => String d seg :: rest
           | [] => [String d EmptyString]
           end
  end.

Definition starts_with_slash (s : string) : bool :=
  match s with String c _ => Ascii.eqb c "/" | EmptyString => false end.

Fixpoint ends_with_slash (s : string) : bool :=
  match s with
  | EmptyString => false
  | String c EmptyString => Ascii.eqb c "/"
  | String _ r => ends_with_slash r
  end.

(** One segment of [normalizeString]; the segments kept so far are held
    last first. *)
Definition normalize_step (allowAboveRoot : bool) (kept : list string)
    (seg : string) : list string :=
  if (String.eqb seg "" || String.eqb seg ".")%bool then kept
  else if String.eqb seg ".." then
    match kept with
    | top :: below =>
        if String.eqb top ".."
        then (if allowAboveRoot then seg :: kept else kept)
        else below
    | [] => if allowAboveRoot then [seg] else []
    end
  else seg :: kept.

Definition normalizeString (path : string) (allowAboveRoot : bool) : string :=
  join_with "/"
    (rev (fold_left (normalize_step allowAboveRoot) (split_on "/" path) [])).

Definition normalize (path : string) : string :=
  if truthy path then
    let isAbsolute := starts_with_slash path in
    let trailingSeparator := ends_with_slash path in
    let p := normalizeString path (negb isAbsolute) in
    if truthy p then
      (if isAbsolute then "/" else "") ++ p ++ (if trailingSeparator then "/" else "")
    else if isAbsolute then "/"
    else if trailingSeparator then "./" else "."
  else ".".

(** [join(a, b)]. *)
Definition join (a b : string) : string :=
  match filter truthy [a; b] with
  | [] => "."
  | parts => normalize (join_with "/" parts)
  end.

(** The line feed of ['\n']. *)
Definition nl : string := String (ascii_of_nat 10) EmptyString.

Section Engine.

(** The oracle of the run. *)
Variable W : World.t.

(** An external call: it is recorded, takes one tick, and gets the reply
    the oracle has for that tick. *)
Definition request {A} (c : Call) (reply : World.t -> nat -> Result A) : M A :=
  fun st =>
    (reply W (State.tick st),
     State.mk (State.db st) (S (State.tick st)) (State.trace st ++ [EvCall c])).

(** [CURRENT_TIMESTAMP], read by the database itself. *)
Definition CURRENT_TIMESTAMP : M string :=
  fun st => (Ok (World.current_timestamp W (State.tick st)), st).

(** [new Date().toISOString()]. *)
Definition toISOString_now : M string :=
  request Date_now (fun w n => Ok (World.isoNow w n)).

Definition do_spawnSync (cmd : string) (args : list string)
    (opts : SpawnOptions.t) : M SpawnSyncResult.t :=
  request (spawnSync cmd args opts) (fun w n => Ok (World.spawn w n)).

(* ================================================================== *)
(** ** packages/engine/src/agent.ts *)

Definition buildPrompt (issueTitle : string) (issueBody : option string)
    (branch : string) : string :=
  trim (join_with nl
    [ "You are working on a GitHub issue. Your task is to implement the changes described below.";
      "";
      "Issue: " ++ issueTitle;
      match issueBody with
      | Some b => if truthy b then nl ++ "Description:" ++ nl ++ b else ""
      | None => ""
      end;
      "";
      "You are working on branch: " ++ branch;
      "";
      "Please implement the changes, commit them, and push the branch.";
      "When done, output a summary of what you changed." ]).

Definition buildArgs (input : AgentRunInput.t) : list string :=
  let config := AgentRunInput.config input in
  let prompt := buildPrompt (AgentRunInput.issueTitle input)
                  (AgentRunInput.issueBody input) (AgentRunInput.branch input) in
  let args :=
    match AgentConfig.provider config with
    | claude =>
        (["-p"; prompt] ++
         match AgentConfig.model config with
         | Some m => if truthy m then ["--model"; m] else []
         | None => []
         end)%list
    | custom => [prompt]
    end in
  match AgentConfig.extraArgs config with
  | Some extra => (args ++ extra)%list
  | None => args
  end.

(** The size of the capture buffer that [runAgent] gives each stream. *)
Definition maxBuffer : Z := 10 * 1024 * 1024.

Definition runAgent (input : AgentRunInput.t) : M AgentRunResult.t :=
  let config := AgentRunInput.config input in
  let repoDir := AgentRunInput.repoDir input in
  let binary := nullish (AgentConfig.binary config)
                  (provider_name (AgentConfig.provider config)) in
  let args := buildArgs input in
  let timeoutMs := nullish (AgentConfig.timeoutMs config) (30 * 60 * 1000) in
  console (log_agent_running binary repoDir) ;;;
  console (log_agent_args (join_with " " (firstn 2 args) ++ "...")) ;;;
  result <- do_spawnSync binary args
              (SpawnOptions.mk (Some repoDir) (Some maxBuffer) (Some timeoutMs)) ;;
  let stdout := nullish (SpawnSyncResult.stdout result) "" in
  let stderr := nullish (SpawnSyncResult.stderr result) "" in
  let output := join_with nl (filter truthy [stdout; stderr]) in
  match SpawnSyncResult.error result with
  | Some message =>
      ret (AgentRunResult.mk false output (Some message) None)
  | None =>
      let exitCode := SpawnSyncResult.status result in
      let success := match exitCode with Some c => Z.eqb c 0 | None => false end in
      let shown := match exitCode with Some c => string_of_Z c | None => "null" end in
      (if success
       then console log_agent_completed ;;;
            (if truthy stdout then console (log_agent_output (slice0 200 stdout))
             else ret tt)
       else console (log_agent_failed exitCode) ;;;
            (if truthy stderr then console (log_agent_stderr (slice0 500 stderr))
             else ret tt)) ;;;
      ret (AgentRunResult.mk success output
             (if success then None
              else Some (if truthy stderr then stderr else "Exit code " ++ shown))
             exitCode)
  end.

(* ================================================================== *)
(** ** packages/github/src/issues.ts, pulls.ts *)

(** [listIssues]; the reply is the page after [mapIssue]. *)
Definition listIssues (owner repo label : string) : M (list GitHubIssue.t) :=
  request (issues_listForRepo owner repo label "open" 100) World.listForRepo.

Definition addIssueComment (owner repo : string) (issueNumber : Z)
    (body : string) : M unit :=
  request (issues_createComment owner repo issueNumber body) World.octokit_unit.

Definition addIssueLabel (owner repo : string) (issueNumber : Z)
    (label : string) : M unit :=
  request (issues_addLabels owner repo issueNumber [label]) World.octokit_unit.

(** [createPullRequest]; the reply is the pull request after [mapPR]. *)
Definition createPullRequest (owner repo title body head base : string)
    : M GitHubPullRequest.t :=
  request (pulls_create owner repo title body head base) World.pulls_create.

(* ================================================================== *)
(** ** packages/github/src/repos.ts *)

Definition getRepo (owner repo : string) : M GitHubRepo.t :=
  request (repos_get owner repo) World.repos_get.

Definition createBranch (owner repo branch : string)
    (fromBranch : option string) : M string :=
  repoInfo <- getRepo owner repo ;;
  let sourceBranch := nullish fromBranch (GitHubRepo.defaultBranch repoInfo) in
  sha <- request (git_getRef owner repo ("heads/" ++ sourceBranch)) World.getRef ;;
  request (git_createRef owner repo ("refs/heads/" ++ branch) sha)
          World.octokit_unit ;;;
  ret sha.

(** [stdio: 'inherit'] with no other option. *)
Definition inherit (cwd : option string) : SpawnOptions.t :=
  SpawnOptions.mk cwd None None.

(** The two checks every git helper makes on a finished child. *)
Definition check_spawn (result : SpawnSyncResult.t) (what : string) : M unit :=
  match SpawnSyncResult.error result with
  | Some message => throw message
  | None =>
      match SpawnSyncResult.status result with
      | Some 0 => ret tt
      | Some c => throw (what ++ " exited with code " ++ string_of_Z c)
      | None => throw (what ++ " exited with code unknown")
      end
  end.

Definition cloneRepo (cloneUrl targetDir : string) (branch : option string)
    : M unit :=
  let args :=
    (["clone"; "--depth"; "1"] ++
     match branch with
     | Some b => if truthy b then ["--branch"; b] else []
     | None => []
     end ++ [cloneUrl; targetDir])%list in
  result <- do_spawnSync "git" args (inherit None) ;;
  check_spawn result "git clone".

Definition checkoutBranch (repoDir branch : string) (create : bool) : M unit :=
  let args := (["checkout"] ++ (if create then ["-b"] else []) ++ [branch])%list in
  result <- do_spawnSync "git" args (inherit (Some repoDir)) ;;
  check_spawn result "git checkout".

Definition commitAndPush (repoDir message branch : string) : M unit :=
  let commands :=
    [ ("git", ["add"; "-A"]);
      ("git", ["commit"; "-m"; message]);
      ("git", ["push"; "origin"; branch]) ] in
  for_of commands (fun '(cmd, args) =>
    result <- do_spawnSync cmd args (inherit (Some repoDir)) ;;
    check_spawn result (cmd ++ " " ++ join_with " " args)).

(* ================================================================== *)
(** ** Queries of the orchestrator *)

Definition issue_is (n : Z) (t : Task.t) : bool :=
  match Task.githubIssueId t with Some m => Z.eqb m n | None => false end.

(** [select().from(tasks).where(eq(tasks.githubIssueId, n)).limit(1).all()];
    SQLite walks [tasks_github_issue_id_idx], which gives the rows of one
    issue number in rowid order, so [limit(1)] keeps the oldest. *)
Definition select_tasks_by_issue (n : Z) : M (list Task.t) :=
  d <- get_db ;;
  ret (firstn 1 (filter (issue_is n) (Store.tasks d))).

(** [select().from(repos).where(eq(repos.owner, owner)).all()] *)
Definition select_repos_by_owner (owner : string) : M (list Repo.t) :=
  d <- get_db ;;
  ret (filter (fun r => String.eqb (Repo.owner r) owner) (Store.repos d)).

(** [insert(repos).values({githubUrl, name, owner, watchLabel}).returning().all()] *)
Definition insert_repo (githubUrl name owner watchLabel : string)
    : M (list Repo.t) :=
  now <- CURRENT_TIMESTAMP ;;
  d <- get_db ;;
  let row := Repo.mk now githubUrl (next_repo_id d) name owner watchLabel in
  put_db (with_repo row d) ;;;
  ret [row].

(** [insert(tasks).values({description, githubIssueId, repoId, status, title})
     .returning({ id: tasks.id }).all()] *)
Definition insert_task (description : option string) (githubIssueId repoId : Z)
    (status : TaskStatus) (title : string) : M (list Z) :=
  now <- CURRENT_TIMESTAMP ;;
  d <- get_db ;;
  let row := Task.mk now description (Some githubIssueId) (next_task_id d)
               None None (Some repoId) status title now in
  put_db (with_task row d) ;;;
  ret [Task.id row].

(** [insert(agentRuns).values({model, provider, status, taskId})
     .returning({ id: agentRuns.id }).all()] *)
Definition insert_agentRun (model : option string) (provider : string)
    (status : RunStatus) (taskId : Z) : M (list Z) :=
  now <- CURRENT_TIMESTAMP ;;
  d <- get_db ;;
  let row := AgentRun.mk None None (next_agentRun_id d) model None provider
               now status taskId in
  put_db (with_agentRun row d) ;;;
  ret [AgentRun.id row].

(** [update(tasks).set(...).where(eq(tasks.id, taskId)).run()] *)
Definition update_task (set : Task.t -> Task.t) (taskId : Z) : M unit :=
  now <- CURRENT_TIMESTAMP ;;
  d <- get_db ;;
  put_db (tasks_updated set taskId now d).

(** [update(agentRuns).set(...).where(eq(agentRuns.id, runId)).run()] *)
Definition update_agentRun (set : AgentRun.t -> AgentRun.t) (runId : Z) : M unit :=
  d <- get_db ;;
  put_db (agentRuns_updated set runId d).

(** The [set] clauses used by the orchestrator. *)
Definition set_retry (repoId : Z) (t : Task.t) : Task.t :=
  Task.mk (Task.createdAt t) (Task.description t) (Task.githubIssueId t)
    (Task.id t) (Task.prNumber t) (Task.prUrl t) (Some repoId) in_progress
    (Task.title t) (Task.updatedAt t).

Definition set_task_completed (prNumber : Z) (prUrl : string) (t : Task.t) : Task.t :=
  Task.mk (Task.createdAt t) (Task.description t) (Task.githubIssueId t)
    (Task.id t) (Some prNumber) (Some prUrl) (Task.repoId t) completed
    (Task.title t) (Task.updatedAt t).

Definition set_task_failed (t : Task.t) : Task.t :=
  Task.mk (Task.createdAt t) (Task.description t) (Task.githubIssueId t)
    (Task.id t) (Task.prNumber t) (Task.prUrl t) (Task.repoId t) failed
    (Task.title t) (Task.updatedAt t).

Definition set_run_completed (now output : string) (r : AgentRun.t) : AgentRun.t :=
  AgentRun.mk (Some now) (AgentRun.error r) (AgentRun.id r) (AgentRun.model r)
    (Some output) (AgentRun.provider r) (AgentRun.startedAt r) run_completed
    (AgentRun.taskId r).

Definition set_run_failed (now errorMsg : string) (r : AgentRun.t) : AgentRun.t :=
  AgentRun.mk (Some now) (Some errorMsg) (AgentRun.id r) (AgentRun.model r)
    (AgentRun.output r) (AgentRun.provider r) (AgentRun.startedAt r) run_failed
    (AgentRun.taskId r).

(* ================================================================== *)
(** ** packages/engine/src/orchestrator.ts *)

(** [this.config]. *)
Variable config : EngineConfig.t.

Definition requireFirst {T} (rows : list T) (context : string) : M T :=
  match rows with
  | row :: _ => ret row
  | [] => throw ("Expected at least one row: " ++ context)
  end.

Definition sleep (ms : Z) : M unit :=
  request (setTimeout ms) (fun w n => Ok (World.timer w n)).

Definition upsertRepo (repoConfig : RepoWatchConfig.t) : M Repo.t :=
  let owner := RepoWatchConfig.owner repoConfig in
  let repo := RepoWatchConfig.repo repoConfig in
  let label := RepoWatchConfig.label repoConfig in
  all <- select_repos_by_owner owner ;;
  match find (fun r => String.eqb (Repo.name r) repo) all with
  | Some found => ret found
  | None =>
      inserted <- insert_repo ("https://github.com/" ++ owner ++ "/" ++ repo)
                    repo owner label ;;
      requireFirst inserted "insert repo"
  end.

Definition createAgentRun (taskId : Z) : M Z :=
  inserted <- insert_agentRun (AgentConfig.model (EngineConfig.agent config))
                (provider_name (AgentConfig.provider (EngineConfig.agent config)))
                run_running taskId ;;
  requireFirst inserted "insert agentRun".

(** The branch of an issue: [`loom/issue-${issue.number}`]. *)
Definition branch_of (issue : GitHubIssue.t) : string :=
  "loom/issue-" ++ string_of_Z (GitHubIssue.number issue).

(** The directory name of an issue: [`${owner}-${repo}-${issue.number}`]. *)
Definition dir_name (owner repo : string) (number : Z) : string :=
  owner ++ "-" ++ repo ++ "-" ++ string_of_Z number.

(** The workspace of an issue: [join(this.config.workDir, ...)]. *)
Definition repoDir_of (repoConfig : RepoWatchConfig.t) (issue : GitHubIssue.t)
    : string :=
  join (EngineConfig.workDir config)
       (dir_name (RepoWatchConfig.owner repoConfig)
                 (RepoWatchConfig.repo repoConfig) (GitHubIssue.number issue)).

(** Returns [(branch, repoDir)]. *)
Definition prepareWorkDir (repoConfig : RepoWatchConfig.t) (issue : GitHubIssue.t)
    : M (string * string) :=
  let owner := RepoWatchConfig.owner repoConfig in
  let repo := RepoWatchConfig.repo repoConfig in
  let branch := branch_of issue in
  let repoDir := repoDir_of repoConfig issue in
  request (mkdirSync (EngineConfig.workDir config)) World.mkdir ;;;
  let cloneUrl := "https://" ++ EngineConfig.githubToken config
                  ++ "@github.com/" ++ owner ++ "/" ++ repo ++ ".git" in
  cloneRepo cloneUrl repoDir None ;;;
  ret (branch, repoDir).

Definition prepareBranch (repoConfig : RepoWatchConfig.t)
    (branch repoDir : string) : M unit :=
  let owner := RepoWatchConfig.owner repoConfig in
  let repo := RepoWatchConfig.repo repoConfig in
  try_catch
    (createBranch owner repo branch (RepoWatchConfig.baseBranch repoConfig) ;;;
     ret tt)
    (fun _ => ret tt) ;;;
  checkoutBranch repoDir branch true.

Definition executeAgent (issue : GitHubIssue.t) (repoDir branch : string)
    (taskId : Z) : M AgentRunResult.t :=
  result <- runAgent (AgentRunInput.mk taskId (GitHubIssue.title issue)
                        (GitHubIssue.body issue) repoDir branch
                        (EngineConfig.agent config)) ;;
  if AgentRunResult.success result then ret result
  else throw (nullish (AgentRunResult.error result)
                ("Agent exited with code " ++
                 match AgentRunResult.exitCode result with
                 | Some c => string_of_Z c
                 | None => "null"
                 end)).

Definition submitPullRequest (result : AgentRunResult.t) (issue : GitHubIssue.t)
    (repoConfig : RepoWatchConfig.t) (branch : string) (taskId runId : Z)
    : M unit :=
  let owner := RepoWatchConfig.owner repoConfig in
  let repo := RepoWatchConfig.repo repoConfig in
  let n := string_of_Z (GitHubIssue.number issue) in
  let repoDir := repoDir_of repoConfig issue in
  commitAndPush repoDir
    ("fix: resolve issue #" ++ n ++ " via loom" ++ nl ++ nl ++ "Closes #" ++ n)
    branch ;;;
  pr <- createPullRequest owner repo
          ("fix: " ++ GitHubIssue.title issue ++ " (#" ++ n ++ ")")
          (join_with nl
             [ "This PR was automatically generated by Loom to resolve issue #"
                 ++ n ++ ".";
               "";
               "**Issue:** " ++ GitHubIssue.title issue;
               "";
               "**Agent output:**";
               "```";
               slice0 3000 (AgentRunResult.output result);
               "```";
               "";
               "Closes #" ++ n ])
          branch
          (nullish (RepoWatchConfig.baseBranch repoConfig) "main") ;;
  now <- toISOString_now ;;
  update_task (set_task_completed (GitHubPullRequest.number pr)
                 (GitHubPullRequest.htmlUrl pr)) taskId ;;;
  update_agentRun (set_run_completed now (AgentRunResult.output result)) runId ;;;
  console (log_pr_opened (GitHubPullRequest.htmlUrl pr)) ;;;
  try_catch
    (addIssueComment owner repo (GitHubIssue.number issue)
       ("✅ Done! PR opened: " ++ GitHubPullRequest.htmlUrl pr))
    (fun _ => ret tt).

(** The comment is sent without being awaited and its rejection is
    dropped: [void addIssueComment(...).catch(() => {})]. *)
Definition recordFailure (taskId runId : Z) (errorMsg : string)
    (issue : GitHubIssue.t) (repoConfig : RepoWatchConfig.t) : M unit :=
  let owner := RepoWatchConfig.owner repoConfig in
  let repo := RepoWatchConfig.repo repoConfig in
  console (log_task_failed taskId errorMsg) ;;;
  now <- toISOString_now ;;
  update_task set_task_failed taskId ;;;
  update_agentRun (set_run_failed now errorMsg) runId ;;;
  try_catch
    (addIssueComment owner repo (GitHubIssue.number issue)
       ("❌ Loom failed to process this issue: " ++ errorMsg))
    (fun _ => ret tt).

(** The body of the [try] of [runAgentForTask]. *)
Definition pipeline (taskId runId : Z) (issue : GitHubIssue.t)
    (repoConfig : RepoWatchConfig.t) : M unit :=
  '(branch, repoDir) <- prepareWorkDir repoConfig issue ;;
  prepareBranch repoConfig branch repoDir ;;;
  result <- executeAgent issue repoDir branch taskId ;;
  submitPullRequest result issue repoConfig branch taskId runId.

Definition runAgentForTask (taskId : Z) (issue : GitHubIssue.t)
    (repoConfig : RepoWatchConfig.t) : M unit :=
  runId <- createAgentRun taskId ;;
  try_catch
    (pipeline taskId runId issue repoConfig)
    (fun err => recordFailure taskId runId err issue repoConfig).

(** Lines 91-93 of [handleIssue]: the task already stored for the issue. *)
Definition existingTask_of (issue : GitHubIssue.t) : M (option Task.t) :=
  existing <- select_tasks_by_issue (GitHubIssue.number issue) ;;
  ret (hd_error existing).

(** Must the issue be left alone (lines 94-101)? *)
Definition skips (existingTask : option Task.t) : bool :=
  match existingTask with
  | Some t =>
      match Task.status t with
      | in_progress | completed => true
      | _ => false
      end
  | None => false
  end.

(** Lines 103-123 of [handleIssue]: the task to run, reused or inserted. *)
Definition claimTask (existingTask : option Task.t) (issue : GitHubIssue.t)
    (repoRecord : Repo.t) : M Z :=
  match existingTask with
  | Some t =>
      match Task.status t with
      | failed =>
          let taskId := Task.id t in
          update_task (set_retry (Repo.id repoRecord)) taskId ;;;
          console (log_retrying taskId (GitHubIssue.number issue)) ;;;
          ret taskId
      | _ =>
          inserted <- insert_task (GitHubIssue.body issue)
                        (GitHubIssue.number issue) (Repo.id repoRecord)
                        in_progress (GitHubIssue.title issue) ;;
          taskId <- requireFirst inserted "insert task" ;;
          console (log_created taskId (GitHubIssue.number issue)
                     (GitHubIssue.title issue)) ;;;
          ret taskId
      end
  | None =>
      inserted <- insert_task (GitHubIssue.body issue)
                    (GitHubIssue.number issue) (Repo.id repoRecord)
                    in_progress (GitHubIssue.title issue) ;;
      taskId <- requireFirst inserted "insert task" ;;
      console (log_created taskId (GitHubIssue.number issue)
                 (GitHubIssue.title issue)) ;;;
      ret taskId
  end.

(** Lines 125-140 of [handleIssue]: the two notifications. *)
Definition notifyWorking (taskId : Z) (issue : GitHubIssue.t)
    (repoConfig : RepoWatchConfig.t) : M unit :=
  let owner := RepoWatchConfig.owner repoConfig in
  let repo := RepoWatchConfig.repo repoConfig in
  try_catch
    (addIssueLabel owner repo (GitHubIssue.number issue) "loom:working")
    (fun _ => ret tt) ;;;
  try_catch
    (addIssueComment owner repo (GitHubIssue.number issue)
       ("🤖 Loom is working on this issue (task #" ++ string_of_Z taskId
        ++ "). I'll open a PR when done."))
    (fun _ => ret tt).

Definition handleIssue (issue : GitHubIssue.t) (repoRecord : Repo.t)
    (repoConfig : RepoWatchConfig.t) : M unit :=
  existingTask <- existingTask_of issue ;;
  if skips existingTask then
    match existingTask with
    | Some t =>
        console (log_skipping (GitHubIssue.number issue) (Task.id t)
                   (Task.status t))
    | None => ret tt
    end
  else
    taskId <- claimTask existingTask issue repoRecord ;;
    notifyWorking taskId issue repoConfig ;;;
    runAgentForTask taskId issue repoConfig.

Definition processRepo (repoConfig : RepoWatchConfig.t) : M unit :=
  let owner := RepoWatchConfig.owner repoConfig in
  let repo := RepoWatchConfig.repo repoConfig in
  let label := RepoWatchConfig.label repoConfig in
  repoRecord <- upsertRepo repoConfig ;;
  issues <- listIssues owner repo label ;;
  console (log_issue_count owner repo (List.length issues) label) ;;;
  for_of issues (fun issue => handleIssue issue repoRecord repoConfig).

Definition poll : M unit :=
  console (log_polling (List.length (EngineConfig.repos config))) ;;;
  for_of (EngineConfig.repos config) (fun repoConfig =>
    try_catch
      (processRepo repoConfig)
      (fun err =>
         console (log_repo_error (RepoWatchConfig.owner repoConfig)
                    (RepoWatchConfig.repo repoConfig) err))).

(** [n] turns of the [while (this.running)] of [loop]. *)
Fixpoint loop (n : nat) : M unit :=
  match n with
  | O => ret tt
  | S k =>
      try_catch poll (fun err => console (log_poll_error err)) ;;;
      sleep (EngineConfig.pollIntervalMs config) ;;;
      loop k
  end.

End Engine.

(* ================================================================== *)
(** ** packages/engine/src/config.ts *)

(** [process.env]. *)
Definition Env : Type := string -> option string.

(** [xs.map(f)] for an [f] that may throw: the first exception ends it. *)
Fixpoint map_throwing {A B} (f : A -> Result B) (xs : list A) : Result (list B) :=
  match xs with
  | [] => Ok []
  | x :: rest =>
      match f x with
      | Throw e => Throw e
      | Ok y =>
          match map_throwing f rest with
          | Throw e => Throw e
          | Ok ys => Ok (y :: ys)
          end
      end
  end.

(** The callback of the [map] of [parseRepoList]. *)
Definition parseRepoEntry (entry : string) : Result RepoWatchConfig.t :=
  let fields := split_on ":" (trim entry) in
  let repoPath := nth_error fields 0 in
  let label := nth_error fields 1 in
  let parts := split_on "/" (nullish repoPath "") in
  let owner := nullish (nth_error parts 0) "" in
  let repo := nullish (nth_error parts 1) "" in
  if (negb (truthy owner) || negb (truthy repo))%bool
  then Throw ("Invalid repo entry: " ++ entry)
  else Ok (RepoWatchConfig.mk owner repo (nullish label "loom") None).

Definition parseRepoList (raw : string) : Result (list RepoWatchConfig.t) :=
  map_throwing parseRepoEntry (split_on "," raw).

(* ================================================================== *)
(** ** packages/github/src/client.ts *)

(** An [Octokit], as far as the code makes it: its [auth] option. *)
Module Octokit.
Record t := mk {
  auth : option string }.
End Octokit.

(** [getClient(token)]; the second component is the module variable
    [_client] afterwards. *)
Definition getClient (env : Env) (token : option string)
    (_client : option Octokit.t) : Octokit.t * option Octokit.t :=
  match _client with
  | Some c => (c, _client)
  | None =>
      let c := Octokit.mk (match token with
                           | Some t => Some t
                           | None => env "GITHUB_TOKEN"
                           end) in
      (c, Some c)
  end.

Definition createClient (token : string) : Octokit.t :=
  Octokit.mk (Some token).

(* ================================================================== *)
(** * Definitions used by the statements *)

(** ** Frames *)

(** A frame is a reflexive and transitive relation between the state before
    and the state after; a computation preserves it when every run of it,
    whatever it returns or throws, relates its two states. *)
Class Frame (R : State.t -> State.t -> Prop) : Prop := {
  frame_refl : forall st, R st st;
  frame_trans : forall a b c, R a b -> R b c -> R a c }.

Definition preserves (R : State.t -> State.t -> Prop) {A} (m : M A) : Prop :=
  forall st, R st (snd (m st)).

(** The database is left as it was. *)
Definition db_same (st st' : State.t) : Prop := State.db st' = State.db st.

(** The trace grows by events that all satisfy [P]. *)
Definition trace_adds (P : Event -> Prop) (st st' : State.t) : Prop :=
  exists delta, State.trace st' = (State.trace st ++ delta)%list /\ Forall P delta.

(** The store after a successful [submitPullRequest]. *)
Definition db_completed (taskId runId : Z) (pr : GitHubPullRequest.t)
    (now ts output : string) (d : Store.t) : Store.t :=
  agentRuns_updated (set_run_completed now output) runId
    (tasks_updated (set_task_completed (GitHubPullRequest.number pr)
                      (GitHubPullRequest.htmlUrl pr)) taskId ts d).

(** The store after [recordFailure]. *)
Definition db_failed (taskId runId : Z) (now ts errorMsg : string)
    (d : Store.t) : Store.t :=
  agentRuns_updated (set_run_failed now errorMsg) runId
    (tasks_updated set_task_failed taskId ts d).

(** The row that [createAgentRun] inserts. *)
Definition new_run (cfg : EngineConfig.t) (taskId : Z) (ts : string)
    (d : Store.t) : AgentRun.t :=
  AgentRun.mk None None (next_agentRun_id d)
    (AgentConfig.model (EngineConfig.agent cfg)) None
    (provider_name (AgentConfig.provider (EngineConfig.agent cfg)))
    ts run_running taskId.

(** Every task row with this id has this status. *)
Definition task_is (d : Store.t) (taskId : Z) (s : TaskStatus) : Prop :=
  forall t, In t (Store.tasks d) -> Task.id t = taskId -> Task.status t = s.

(** Every run row with this id has this status and belongs to this task. *)
Definition run_is (d : Store.t) (runId taskId : Z) (s : RunStatus) : Prop :=
  forall r, In r (Store.agentRuns d) -> AgentRun.id r = runId ->
            AgentRun.status r = s /\ AgentRun.taskId r = taskId.

(** A relation between the stores, read as a relation between the states. *)
Definition on_db (Rd : Store.t -> Store.t -> Prop) (st st' : State.t) : Prop :=
  Rd (State.db st) (State.db st').

(** The rows of [repos] are kept, in place and unchanged; rows may have
    been added after them. *)
Definition repos_extended (d d' : Store.t) : Prop :=
  exists extra, Store.repos d' = (Store.repos d ++ extra)%list.

Definition repos_kept : State.t -> State.t -> Prop := on_db repos_extended.

(** The row of [repos] that [upsertRepo] looks for. *)
Definition repo_matches (rc : RepoWatchConfig.t) (r : Repo.t) : bool :=
  (String.eqb (Repo.owner r) (RepoWatchConfig.owner rc)
   && String.eqb (Repo.name r) (RepoWatchConfig.repo rc))%bool.

(** ** Reconciliation *)

(** The row that [handleIssue] inserts for an issue. *)
Definition new_task (issue : GitHubIssue.t) (repoRecord : Repo.t) (ts : string)
    (d : Store.t) : Task.t :=
  Task.mk ts (GitHubIssue.body issue) (Some (GitHubIssue.number issue))
    (next_task_id d) None None (Some (Repo.id repoRecord)) in_progress
    (GitHubIssue.title issue) ts.

(** The store [d'] is [d] after one run of the pipeline for the task: the
    new run was inserted, and the task and the run were closed together. *)
Definition closed_after (cfg : EngineConfig.t) (taskId : Z) (d d' : Store.t)
    : Prop :=
  exists ts,
    let run := new_run cfg taskId ts d in
    (exists pr now ts' output,
       d' = db_completed taskId (AgentRun.id run) pr now ts' output
              (with_agentRun run d))
    \/ (exists now ts' errorMsg,
          d' = db_failed taskId (AgentRun.id run) now ts' errorMsg
                 (with_agentRun run d)).

(** The two notifications of [handleIssue]. *)
Definition working_label (rc : RepoWatchConfig.t) (issue : GitHubIssue.t) : Event :=
  EvCall (issues_addLabels (RepoWatchConfig.owner rc) (RepoWatchConfig.repo rc)
            (GitHubIssue.number issue) ["loom:working"]).

Definition working_comment (rc : RepoWatchConfig.t) (issue : GitHubIssue.t)
    (taskId : Z) : Event :=
  EvCall (issues_createComment (RepoWatchConfig.owner rc)
            (RepoWatchConfig.repo rc) (GitHubIssue.number issue)
            ("🤖 Loom is working on this issue (task #" ++ string_of_Z taskId
             ++ "). I'll open a PR when done.")).

(** The state in which the pipeline starts, after the two notifications. *)
Definition notified (rc : RepoWatchConfig.t) (issue : GitHubIssue.t)
    (taskId : Z) (st : State.t) : State.t :=
  State.mk (State.db st) (2 + State.tick st)
    (State.trace st ++ [working_label rc issue; working_comment rc issue taskId]).

(** The issue numbers held by the rows of [tasks]. *)
Definition issue_numbers (l : list Task.t) : list Z :=
  flat_map (fun t => match Task.githubIssueId t with
                     | Some n => [n]
                     | None => []
                     end) l.

(** No two task rows hold the same issue number. *)
Definition unique_issues (d : Store.t) : Prop :=
  NoDup (issue_numbers (Store.tasks d)).

(** No task row waits in [todo]. *)
Definition no_todo (d : Store.t) : Prop :=
  Forall (fun t => Task.status t <> todo) (Store.tasks d).

(** The lookup that the specification words: by repository and issue. *)
Definition findTaskByIssue_spec (repoId issueNumber : Z) (d : Store.t)
    : option Task.t :=
  find (fun t => match Task.repoId t, Task.githubIssueId t with
                 | Some r, Some n => (Z.eqb r repoId && Z.eqb n issueNumber)%bool
                 | _, _ => false
                 end) (Store.tasks d).

(** The invariant of the task table under the orchestrator: if it holds
    before, it holds after. *)
Definition keeps_dedup (d d' : Store.t) : Prop :=
  no_todo d /\ unique_issues d -> no_todo d' /\ unique_issues d'.

(** ** Reading a trace *)

(** The listings of issues asked for, in order. *)
Definition listings (tr : list Event) : list Call :=
  flat_map (fun e => match e with
                     | EvCall (issues_listForRepo o r l s p) =>
                         [issues_listForRepo o r l s p]
                     | _ => []
                     end) tr.

(** The issues on which [handleIssue] took its decision (left alone, taken
    again, or inserted), in order. *)
Definition handled (tr : list Event) : list Z :=
  flat_map (fun e => match e with
                     | EvLog (log_skipping n _ _) => [n]
                     | EvLog (log_retrying _ n) => [n]
                     | EvLog (log_created _ n _) => [n]
                     | _ => []
                     end) tr.

(** An event that is neither a listing nor a decision. *)
Definition quiet (e : Event) : Prop :=
  match e with
  | EvCall (issues_listForRepo _ _ _ _ _) => False
  | EvLog (log_skipping _ _ _) => False
  | EvLog (log_retrying _ _) => False
  | EvLog (log_created _ _ _) => False
  | _ => True
  end.

(** The listing that [processRepo] asks for. *)
Definition listing_of (rc : RepoWatchConfig.t) : Call :=
  issues_listForRepo (RepoWatchConfig.owner rc) (RepoWatchConfig.repo rc)
    (RepoWatchConfig.label rc) "open" 100.

(** Any event. *)
Definition any_event (e : Event) : Prop := True.

(** The first event that a computation adds to the trace. *)
Definition starts_with (e : Event) {A} (m : M A) : Prop :=
  forall st, exists rest,
    State.trace (snd (m st)) = (State.trace st ++ e :: rest)%list.

(** A computation that returns without a trace. *)
Definition silent {A} (m : M A) : Prop :=
  forall st, exists a st',
    m st = (Ok a, st') /\ State.trace st' = State.trace st
    /\ State.tick st' = State.tick st.

(** An event that, if it names a branch, names [b]: the ref created on
    GitHub, the checkout and the push of the git helpers (which run without
    a capture buffer), the prompt of the agent (which runs with one), and
    the head of the pull request. *)
Definition names_branch (b : string) (e : Event) : Prop :=
  match e with
  | EvCall (git_createRef _ _ ref _) => ref = "refs/heads/" ++ b
  | EvCall (pulls_create _ _ _ _ head _) => head = b
  | EvCall (spawnSync _ args opts) =>
      match SpawnOptions.maxBuffer opts with
      | Some _ =>
          exists input, args = buildArgs input /\ AgentRunInput.branch input = b
      | None =>
          match args with
          | "checkout" :: rest => rest = ["-b"; b]
          | "push" :: rest => rest = ["origin"; b]
          | _ => True
          end
      end
  | _ => True
  end.

(** The checkout that [prepareBranch] ends with. *)
Definition checkout_call (branch dir : string) : Event :=
  EvCall (spawnSync "git" ["checkout"; "-b"; branch] (inherit (Some dir))).

(** ** The agent runner *)

(** What [runAgent] returns for a given reply of [spawnSync]. *)
Definition agent_result (reply : SpawnSyncResult.t) : AgentRunResult.t :=
  let stdout := nullish (SpawnSyncResult.stdout reply) "" in
  let stderr := nullish (SpawnSyncResult.stderr reply) "" in
  let output := join_with nl (filter truthy [stdout; stderr]) in
  match SpawnSyncResult.error reply, SpawnSyncResult.status reply with
  | Some message, _ => AgentRunResult.mk false output (Some message) None
  | None, Some c =>
      if Z.eqb c 0 then AgentRunResult.mk true output None (Some c)
      else AgentRunResult.mk false output
             (Some (if truthy stderr then stderr
                    else "Exit code " ++ string_of_Z c)) (Some c)
  | None, None =>
      AgentRunResult.mk false output
        (Some (if truthy stderr then stderr else "Exit code null")) None
  end.




(** ** Sample data *)

(** A world in which every call succeeds, no issue is listed and every
    child process ends with the given reply. *)
Definition quiet_world (reply : SpawnSyncResult.t) : World.t :=
  World.mk (fun _ => Ok []) (fun _ => Ok tt)
    (fun _ => Ok (GitHubRepo.mk "o" "r" "o/r" "" "" "main"))
    (fun _ => Ok "sha") (fun _ => Ok (GitHubPullRequest.mk 7 "https://pr/7"))
    (fun _ => Ok tt) (fun _ => reply) (fun _ => tt)
    (fun _ => "2026-01-11T00:00:00.000Z") (fun _ => "2026-01-11 00:00:00").

(** A child that ran to the end with code 0. *)
Definition exit0 : SpawnSyncResult.t :=
  SpawnSyncResult.mk None (Some 0) (Some "done") (Some "").

(** A child that was killed at the timeout, caught the signal and left
    with code 0: [error] is set and [status] is 0. *)
Definition timed_out_exit0 : SpawnSyncResult.t :=
  SpawnSyncResult.mk (Some "spawnSync claude ETIMEDOUT") (Some 0) (Some "") (Some "").


Definition claude_config : AgentConfig.t :=
  AgentConfig.mk claude None None None None None.

Definition sample_input : AgentRunInput.t :=
  AgentRunInput.mk 1 "Fix it" None "/tmp/loom-agent/o-r-42" "loom/issue-42"
    claude_config.

Definition empty_store : Store.t := Store.mk [] [] [] 0 0 0.

Definition initial_state : State.t := State.mk empty_store 0 [].

(** ** Workspaces *)

(** A name that [join] appends as it is: no separator in it, and not one of
    the segments that [normalize] drops or resolves. *)
Definition plain_segment (seg : string) : Prop :=
  occurs "/" seg = false /\ seg <> "" /\ seg <> "." /\ seg <> "..".

(** What [join w seg] puts before a plain [seg]. *)
Definition join_prefix (w : string) : string :=
  if truthy w then
    let isAbsolute := starts_with_slash w in
    let kept := fold_left (normalize_step (negb isAbsolute)) (split_on "/" w) [] in
    (if isAbsolute then "/" else "") ++
    match kept with
    | [] => ""
    | _ => join_with "/" (rev kept) ++ "/"
    end
  else "".

Definition sample_config : EngineConfig.t :=
  EngineConfig.mk "token" 60000 [RepoWatchConfig.mk "o" "r" "loom" None]
    claude_config "/tmp/loom-agent".

Definition sample_issue (n : Z) : GitHubIssue.t :=
  GitHubIssue.mk (1000 + n) n "Fix it" (Some "It is broken") open []
    "https://api.github.com/issue" "https://github.com/issue"
    "2026-01-10T00:00:00Z" "2026-01-10T00:00:00Z".

(** A store in which the repository of [sample_config] was recorded with
    another watch label and a task of its issue #42 has failed. *)
Definition sample_repo : Repo.t :=
  Repo.mk "2026-01-01 00:00:00" "https://github.com/o/r" 1 "r" "o" "old-label".

Definition failed_task : Task.t :=
  Task.mk "2026-01-02 00:00:00" (Some "It is broken") (Some 42) 1 None None
    (Some 1) failed "Fix it" "2026-01-02 00:10:00".

Definition failed_run : AgentRun.t :=
  AgentRun.mk (Some "2026-01-02T00:10:00.000Z") (Some "git clone exited with code 128")
    1 None None "claude" "2026-01-02 00:00:00" run_failed 1.

Definition store_after_failure : Store.t :=
  Store.mk [sample_repo] [failed_task] [failed_run] 1 1 1.

Definition state_after_failure : State.t := State.mk store_after_failure 0 [].

Definition sample_rc : RepoWatchConfig.t := RepoWatchConfig.mk "o" "r" "loom" None.

(** Two watched repositories that both have an issue #5; the task of the
    first one is completed. *)
Definition second_repo : Repo.t :=
  Repo.mk "2026-01-01 00:00:00" "https://github.com/o2/r2" 2 "r2" "o2" "loom".

Definition second_rc : RepoWatchConfig.t := RepoWatchConfig.mk "o2" "r2" "loom" None.

Definition completed_task_5 : Task.t :=
  Task.mk "2026-01-02 00:00:00" None (Some 5) 1 (Some 9) (Some "https://pr/9")
    (Some 1) completed "Fix it" "2026-01-02 00:10:00".

Definition two_repo_state : State.t :=
  State.mk (Store.mk [sample_repo; second_repo] [completed_task_5] [] 2 1 0) 0 [].

(** A store in which a task of issue #5 was filed by hand and waits in
    [todo], the default status of the column. *)
Definition todo_task_5 : Task.t :=
  Task.mk "2026-01-02 00:00:00" None (Some 5) 1 None None (Some 1) todo
    "Fix it" "2026-01-02 00:00:00".

Definition todo_state : State.t :=
  State.mk (Store.mk [sample_repo] [todo_task_5] [] 1 1 0) 0 [].

(** What identifies a task row in the examples. *)
Definition task_summary (t : Task.t) : Z * option Z * option Z * TaskStatus :=
  (Task.id t, Task.repoId t, Task.githubIssueId t, Task.status t).

(** A child that failed with code 128. *)
Definition exit128 : SpawnSyncResult.t :=
  SpawnSyncResult.mk None (Some 128) (Some "") (Some "fatal: could not clone").

(** A world in which the first listing fails, the later ones return the
    issues #1 and #2, and every child process fails. *)
Definition flaky_world : World.t :=
  World.mk
    (fun n => match n with
              | O => Throw "HTTP 502"
              | S _ => Ok [sample_issue 1; sample_issue 2]
              end)
    (fun _ => Ok tt)
    (fun _ => Ok (GitHubRepo.mk "o" "r" "o/r" "" "" "main"))
    (fun _ => Ok "sha") (fun _ => Ok (GitHubPullRequest.mk 7 "https://pr/7"))
    (fun _ => Ok tt) (fun _ => exit128) (fun _ => tt)
    (fun _ => "2026-01-11T00:00:00.000Z") (fun _ => "2026-01-11 00:00:00").

(** A world in which GitHub rejects every label, comment and new ref, and
    every child process ends with code 0. *)
Definition rejecting_world : World.t :=
  World.mk (fun _ => Ok []) (fun _ => Throw "HTTP 422")
    (fun _ => Ok (GitHubRepo.mk "o" "r" "o/r" "" "" "main"))
    (fun _ => Ok "sha") (fun _ => Ok (GitHubPullRequest.mk 7 "https://pr/7"))
    (fun _ => Ok tt) (fun _ => exit0) (fun _ => tt)
    (fun _ => "2026-01-11T00:00:00.000Z") (fun _ => "2026-01-11 00:00:00").

(** A world in which every listing returns the given issues, every call to
    GitHub succeeds and every child process ends with the given reply. *)
Definition listing_world (issues : list GitHubIssue.t)
    (reply : SpawnSyncResult.t) : World.t :=
  World.mk (fun _ => Ok issues) (fun _ => Ok tt)
    (fun _ => Ok (GitHubRepo.mk "o" "r" "o/r" "" "" "main"))
    (fun _ => Ok "sha") (fun _ => Ok (GitHubPullRequest.mk 7 "https://pr/7"))
    (fun _ => Ok tt) (fun _ => reply) (fun _ => tt)
    (fun _ => "2026-01-11T00:00:00.000Z") (fun _ => "2026-01-11 00:00:00").

(** What identifies a run row in the examples. *)
Definition run_summary (r : AgentRun.t) : Z * Z * RunStatus * option string :=
  (AgentRun.id r, AgentRun.taskId r, AgentRun.status r, AgentRun.error r).

(** The two repositories of [two_repo_state], both watched, before any
    task. *)
Definition two_repo_config : EngineConfig.t :=
  EngineConfig.mk "token" 60000 [sample_rc; second_rc] claude_config
    "/tmp/loom-agent".

Definition two_repo_start : State.t :=
  State.mk (Store.mk [sample_repo; second_repo] [] [] 2 0 0) 0 [].

(** The decisions of [handleIssue] written to the console, in order. *)
Definition decisions (tr : list Event) : list Log :=
  flat_map (fun e => match e with
                     | EvLog (log_skipping n t s) => [log_skipping n t s]
                     | EvLog (log_retrying t n) => [log_retrying t n]
                     | EvLog (log_created t n title) => [log_created t n title]
                     | _ => []
                     end) tr.

(** ** Watched repositories as text *)

(** A character of a name: one byte of ASCII that is neither white space
    nor one of the separators of [WATCH_REPOS]. *)
Definition name_char (c : ascii) : bool :=
  (Nat.ltb (nat_of_ascii c) 128 && negb (is_space c)
   && negb (Ascii.eqb c ",") && negb (Ascii.eqb c ":")
   && negb (Ascii.eqb c "/"))%bool.

Fixpoint all_chars (p : ascii -> bool) (s : string) : bool :=
  match s with
  | EmptyString => true
  | String c r => (p c && all_chars p r)%bool
  end.

(** A watched repository written as [owner/repo:label]. *)
Definition show_repo (rc : RepoWatchConfig.t) : string :=
  RepoWatchConfig.owner rc ++ "/" ++ RepoWatchConfig.repo rc ++ ":"
  ++ RepoWatchConfig.label rc.

(** A configuration that [WATCH_REPOS] can express: names made of name
    characters, owner and repository not empty, no base branch. *)
Definition expressible (rc : RepoWatchConfig.t) : Prop :=
  all_chars name_char (RepoWatchConfig.owner rc) = true
  /\ all_chars name_char (RepoWatchConfig.repo rc) = true
  /\ all_chars name_char (RepoWatchConfig.label rc) = true
  /\ RepoWatchConfig.owner rc <> ""
  /\ RepoWatchConfig.repo rc <> ""
  /\ RepoWatchConfig.baseBranch rc = None.

(** What [parseRepoList] guarantees of a configuration it returns. *)
Definition well_named (rc : RepoWatchConfig.t) : Prop :=
  RepoWatchConfig.owner rc <> "" /\ RepoWatchConfig.repo rc <> ""
  /\ RepoWatchConfig.baseBranch rc = None
  /\ (forall c, In c ["/"; ":"; ","]%char ->
                occurs c (RepoWatchConfig.owner rc) = false
                /\ occurs c (RepoWatchConfig.repo rc) = false)
  /\ (forall c, In c [":"; ","]%char ->
                occurs c (RepoWatchConfig.label rc) = false).

(** ** Child processes *)

(** Did the child end without error and with status 0? *)
Definition spawn_ok (reply : SpawnSyncResult.t) : bool :=
  match SpawnSyncResult.error reply, SpawnSyncResult.status reply with
  | None, Some c => Z.eqb c 0
  | _, _ => false
  end.

(** The message that the git helpers throw for a child that did not. *)
Definition spawn_failure (reply : SpawnSyncResult.t) (what : string) : string :=
  match SpawnSyncResult.error reply with
  | Some message => message
  | None =>
      what ++ " exited with code "
      ++ match SpawnSyncResult.status reply with
         | Some c => string_of_Z c
         | None => "unknown"
         end
  end.

(** The state after one more call. *)
Definition called (c : Call) (st : State.t) : State.t :=
  State.mk (State.db st) (S (State.tick st)) (State.trace st ++ [EvCall c]).

(** The three commands of [commitAndPush]. *)
Definition git_add (dir : string) : Call :=
  spawnSync "git" ["add"; "-A"] (inherit (Some dir)).

Definition git_commit (dir message : string) : Call :=
  spawnSync "git" ["commit"; "-m"; message] (inherit (Some dir)).

Definition git_push (dir branch : string) : Call :=
  spawnSync "git" ["push"; "origin"; branch] (inherit (Some dir)).

(** ** The prompt *)

(** The text of the prompt, part by part. *)
Definition prompt_text (issueTitle description branch : string) : string :=
  "You are working on a GitHub issue. Your task is to implement the changes described below."
  ++ nl ++ nl ++ "Issue: " ++ issueTitle ++ nl ++ description ++ nl ++ nl
  ++ "You are working on branch: " ++ branch ++ nl ++ nl
  ++ "Please implement the changes, commit them, and push the branch." ++ nl
  ++ "When done, output a summary of what you changed.".

(** ** The cached client *)

(** [getClient] called once for each token of the list, in order: the
    clients returned and [_client] in the end. *)
Fixpoint getClient_each (env : Env) (tokens : list (option string))
    (_client : option Octokit.t) : list Octokit.t * option Octokit.t :=
  match tokens with
  | [] => ([], _client)
  | token :: rest =>
      let '(c, s) := getClient env token _client in
      let '(cs, s') := getClient_each env rest s in
      (c :: cs, s')
  end.

(** ** Base branches *)

(** An event that, if it opens a pull request, opens it against [base]. *)
Definition targets (base : string) (e : Event) : Prop :=
  match e with
  | EvCall (pulls_create _ _ _ _ _ b) => b = base
  | _ => True
  end.

(** The calls of a [createBranch] that went through, for a source branch
    and the sha found for it. *)
Definition branch_calls (owner repo branch source sha : string) : list Event :=
  [ EvCall (repos_get owner repo);
    EvCall (git_getRef owner repo ("heads/" ++ source));
    EvCall (git_createRef owner repo ("refs/heads/" ++ branch) sha) ].

(** ** The store, one decision at a time *)

(** The row that [upsertRepo] inserts. *)
Definition new_repo (rc : RepoWatchConfig.t) (ts : string) (d : Store.t) : Repo.t :=
  Repo.mk ts
    ("https://github.com/" ++ RepoWatchConfig.owner rc ++ "/"
     ++ RepoWatchConfig.repo rc)
    (next_repo_id d) (RepoWatchConfig.repo rc) (RepoWatchConfig.owner rc)
    (RepoWatchConfig.label rc).

(** What the orchestrator does to the store in one go: [upsertRepo] inserts
    the row of a repository that has none; [handleIssue] inserts a task for
    an issue whose first row, if any, is [todo], or takes a [failed] task
    again, and in both cases runs the pipeline for it. *)
Inductive store_step (cfg : EngineConfig.t) (d : Store.t) : Store.t -> Prop :=
| step_repo (rc : RepoWatchConfig.t) (ts : string) :
    find (repo_matches rc) (Store.repos d) = None ->
    store_step cfg d (with_repo (new_repo rc ts d) d)
| step_insert (issue : GitHubIssue.t) (repoRecord : Repo.t) (ts : string)
    (d' : Store.t) :
    (forall t, find (issue_is (GitHubIssue.number issue)) (Store.tasks d) = Some t ->
               Task.status t = todo) ->
    closed_after cfg (next_task_id d)
      (with_task (new_task issue repoRecord ts d) d) d' ->
    store_step cfg d d'
| step_retry (issue : GitHubIssue.t) (repoRecord : Repo.t) (t : Task.t)
    (ts : string) (d' : Store.t) :
    find (issue_is (GitHubIssue.number issue)) (Store.tasks d) = Some t ->
    Task.status t = failed ->
    closed_after cfg (Task.id t)
      (tasks_updated (set_retry (Repo.id repoRecord)) (Task.id t) ts d) d' ->
    store_step cfg d d'.

Inductive store_steps (cfg : EngineConfig.t) : Store.t -> Store.t -> Prop :=
| steps_none (d : Store.t) : store_steps cfg d d
| steps_more (d1 d2 d3 : Store.t) :
    store_steps cfg d1 d2 -> store_step cfg d2 d3 -> store_steps cfg d1 d3.

(** A run row as the pipeline leaves it: made for the configured agent,
    with its end time, and either [completed] with an output and no error or
    [failed] with an error and no output. *)
Definition closed_run (cfg : EngineConfig.t) (r : AgentRun.t) : Prop :=
  AgentRun.model r = AgentConfig.model (EngineConfig.agent cfg)
  /\ AgentRun.provider r
     = provider_name (AgentConfig.provider (EngineConfig.agent cfg))
  /\ AgentRun.completedAt r <> None
  /\ ((AgentRun.status r = run_completed
       /\ AgentRun.output r <> None /\ AgentRun.error r = None)
      \/ (AgentRun.status r = run_failed
          /\ AgentRun.error r <> None /\ AgentRun.output r = None)).

(** The run rows of [d] are kept in [d'], in place and unchanged, and the
    rows after them are closed runs of tasks of [d']. *)
Definition runs_appended (cfg : EngineConfig.t) (d d' : Store.t) : Prop :=
  exists extra,
    Store.agentRuns d' = (Store.agentRuns d ++ extra)%list
    /\ Forall (fun r => closed_run cfg r
                        /\ In (AgentRun.taskId r) (map Task.id (Store.tasks d')))
         extra.

(** Nothing is pending: no task is [in_progress], no run is [running]. *)
Definition settled (d : Store.t) : Prop :=
  Forall (fun t => Task.status t <> in_progress) (Store.tasks d)
  /\ Forall (fun r => AgentRun.status r <> run_running) (Store.agentRuns d).

(** Every [completed] task has its pull request. *)
Definition completed_have_pr (d : Store.t) : Prop :=
  Forall (fun t => Task.status t = completed ->
                   Task.prNumber t <> None /\ Task.prUrl t <> None)
    (Store.tasks d).

(** The owner and the name of each row of [repos]. *)
Definition repo_keys (d : Store.t) : list (string * string) :=
  map (fun r => (Repo.owner r, Repo.name r)) (Store.repos d).



(** The comment that [recordFailure] sends. *)
Definition failure_comment (rc : RepoWatchConfig.t) (issue : GitHubIssue.t)
    (errorMsg : string) : Event :=
  EvCall (issues_createComment (RepoWatchConfig.owner rc)
            (RepoWatchConfig.repo rc) (GitHubIssue.number issue)
            ("❌ Loom failed to process this issue: " ++ errorMsg)).

(** The state in which the pipeline starts: the run row is in. *)
Definition run_started (W : World.t) (cfg : EngineConfig.t) (taskId : Z)
    (st : State.t) : State.t :=
  State.mk
    (with_agentRun
       (new_run cfg taskId (World.current_timestamp W (State.tick st))
          (State.db st)) (State.db st))
    (State.tick st) (State.trace st).

(** ** The pull request *)

(** The message of the commit that [submitPullRequest] makes. *)
Definition commit_message (issue : GitHubIssue.t) : string :=
  let n := string_of_Z (GitHubIssue.number issue) in
  "fix: resolve issue #" ++ n ++ " via loom" ++ nl ++ nl ++ "Closes #" ++ n.

(** The request for the pull request, for a given excerpt of the output. *)
Definition pr_call (rc : RepoWatchConfig.t) (issue : GitHubIssue.t)
    (branch excerpt : string) : Call :=
  let n := string_of_Z (GitHubIssue.number issue) in
  pulls_create (RepoWatchConfig.owner rc) (RepoWatchConfig.repo rc)
    ("fix: " ++ GitHubIssue.title issue ++ " (#" ++ n ++ ")")
    (join_with nl
       [ "This PR was automatically generated by Loom to resolve issue #"
           ++ n ++ ".";
         "";
         "**Issue:** " ++ GitHubIssue.title issue;
         "";
         "**Agent output:**";
         "```";
         excerpt;
         "```";
         "";
         "Closes #" ++ n ])
    branch
    (nullish (RepoWatchConfig.baseBranch rc) "main").

(** An event that is a child process of git. *)
Definition git_child (e : Event) : Prop :=
  match e with
  | EvCall (spawnSync cmd _ _) => cmd = "git"
  | _ => False
  end.

(** ** The preparation of the workspace *)

(** The calls that [prepareWorkDir] and [prepareBranch] make on the disk. *)
Definition mkdir_call (cfg : EngineConfig.t) : Call :=
  mkdirSync (EngineConfig.workDir cfg).

Definition clone_call (cfg : EngineConfig.t) (rc : RepoWatchConfig.t)
    (issue : GitHubIssue.t) : Call :=
  spawnSync "git"
    ["clone"; "--depth"; "1";
     "https://" ++ EngineConfig.githubToken cfg ++ "@github.com/"
       ++ RepoWatchConfig.owner rc ++ "/" ++ RepoWatchConfig.repo rc ++ ".git";
     repoDir_of cfg rc issue]
    (inherit None).

Definition checkout (cfg : EngineConfig.t) (rc : RepoWatchConfig.t)
    (issue : GitHubIssue.t) : Call :=
  spawnSync "git" ["checkout"; "-b"; branch_of issue]
    (inherit (Some (repoDir_of cfg rc issue))).

(** A world in which GitHub answers every call and the clone goes through,
    but every later child process fails with code 128. *)
Definition clone_only_world : World.t :=
  World.mk (fun _ => Ok []) (fun _ => Ok tt)
    (fun _ => Ok (GitHubRepo.mk "o" "r" "o/r" "" "" "main"))
    (fun _ => Ok "sha") (fun _ => Ok (GitHubPullRequest.mk 7 "https://pr/7"))
    (fun _ => Ok tt)
    (fun n => match n with 1%nat => exit0 | _ => exit128 end)
    (fun _ => tt)
    (fun _ => "2026-01-11T00:00:00.000Z") (fun _ => "2026-01-11 00:00:00").

(* ================================================================== *)
(** * Proofs *)

(** ** Strings *)

Lemma append_nil_r (s : string) : s ++ "" = s.
Proof. induction s as [|c s IH]; cbn; congruence. Qed.

Lemma append_assoc (a b c : string) : (a ++ b) ++ c = a ++ (b ++ c).
Proof. induction a as [|x a IH]; cbn; congruence. Qed.


Lemma append_inv_head (a b c : string) : a ++ b = a ++ c -> b = c.
Proof. induction a as [|x a IH]; cbn; intros E; [exact E|]. injection E. auto. Qed.

Lemma occurs_append (c : ascii) (a b : string) :
  occurs c (a ++ b) = (occurs c a || occurs c b)%bool.
Proof.
  induction a as [|x a IH]; cbn; [reflexivity|].
  rewrite IH. now rewrite orb_assoc.
Qed.


(** ** Code units *)

Lemma is_continuation_of (m : nat) :
  (128 <= m < 192)%nat -> is_continuation (ascii_of_nat m) = true.
Proof.
  intros Hm. unfold is_continuation.
  rewrite nat_ascii_embedding by lia.
  apply andb_true_intro. split; [apply Nat.leb_le|apply Nat.ltb_lt]; lia.
Qed.

Lemma units_high_surrogate (k : nat) (b : ascii) (rest : string) :
  units_from k (high_surrogate b rest) = 1%nat.
Proof.
  unfold high_surrogate.
  set (w := ((nat_of_ascii b mod 8) * 256 + (byte_at 0 rest mod 64) * 4
             + (byte_at 1 rest mod 64) / 16 - 64)%nat).
  assert (H2 : is_continuation (ascii_of_nat (160 + (w / 64) mod 16)) = true).
  { apply is_continuation_of.
    pose proof (Nat.mod_upper_bound (w / 64) 16). lia. }
  assert (H3 : is_continuation (ascii_of_nat (128 + w mod 64)) = true).
  { apply is_continuation_of.
    pose proof (Nat.mod_upper_bound w 64). lia. }
  cbn [units_from].
  change (is_continuation (ascii_of_nat 237)) with false.
  change (utf16_units (ascii_of_nat 237)) with 1%nat.
  change (utf8_width (ascii_of_nat 237) - 1)%nat with 2%nat.
  cbn [andb]. rewrite H2, H3. reflexivity.
Qed.

(** [s.slice(0, n).length <= n]. *)
Lemma units_slice_from (s : string) :
  forall k n, (units_from k (slice_from k n s) <= n)%nat.
Proof.
  induction s as [|b r IH]; intros k n; cbn [slice_from]; [cbn; lia|].
  destruct (is_continuation b && Nat.ltb 0 k)%bool eqn:C.
  - cbn [units_from]. rewrite C. apply IH.
  - destruct (Nat.leb_spec (utf16_units b) n) as [Hu|Hu].
    + cbn [units_from]. rewrite C.
      specialize (IH (utf8_width b - 1)%nat (n - utf16_units b)%nat). lia.
    + destruct (Nat.eqb_spec n 1) as [->|Hn].
      * rewrite units_high_surrogate. lia.
      * cbn. lia.
Qed.

(** [s.slice(0, n)] is [s] when [s.length <= n]. *)
Lemma slice_from_whole (s : string) :
  forall k n, (units_from k s <= n)%nat -> slice_from k n s = s.
Proof.
  induction s as [|b r IH]; intros k n Hn; cbn [slice_from]; [reflexivity|].
  cbn [units_from] in Hn.
  destruct (is_continuation b && Nat.ltb 0 k)%bool eqn:C.
  - f_equal. now apply IH.
  - destruct (Nat.leb_spec (utf16_units b) n) as [Hu|Hu]; [|lia].
    f_equal. apply IH. lia.
Qed.

(** ** The scenarios of the specification, run on the model *)

(** Issue #42 with no task: the poll inserts the task, the agent ends with
    code 0, the task is completed with its pull request. *)
Example poll_completes_new_issue :
  let st := snd (poll (listing_world [sample_issue 42] exit0) sample_config
                   initial_state) in
  map task_summary (Store.tasks (State.db st)) = [(1, Some 1, Some 42, completed)]
  /\ map Task.prNumber (Store.tasks (State.db st)) = [Some 7]
  /\ map run_summary (Store.agentRuns (State.db st))
     = [(1, 1, run_completed, None)].
Proof. cbv zeta. repeat split; vm_compute; reflexivity. Qed.

(** The clone fails: the task and the run are failed, with the message. *)
Example poll_records_failure :
  let st := snd (poll (listing_world [sample_issue 42] exit128) sample_config
                   initial_state) in
  map task_summary (Store.tasks (State.db st)) = [(1, Some 1, Some 42, failed)]
  /\ map run_summary (Store.agentRuns (State.db st))
     = [(1, 1, run_failed, Some "git clone exited with code 128")].
Proof. cbv zeta. repeat split; vm_compute; reflexivity. Qed.

(** The next poll takes the failed task again, with a second run. *)
Example poll_retries_failed_task :
  let st1 := snd (poll (listing_world [sample_issue 42] exit128) sample_config
                    initial_state) in
  let st2 := snd (poll (listing_world [sample_issue 42] exit0) sample_config st1) in
  map task_summary (Store.tasks (State.db st2)) = [(1, Some 1, Some 42, completed)]
  /\ map run_summary (Store.agentRuns (State.db st2))
     = [(1, 1, run_failed, Some "git clone exited with code 128");
        (2, 1, run_completed, None)].
Proof. cbv zeta. repeat split; vm_compute; reflexivity. Qed.

(** A completed task: the next poll writes nothing. *)
Example poll_skips_completed_task :
  let st1 := snd (poll (listing_world [sample_issue 42] exit0) sample_config
                    initial_state) in
  let st2 := snd (poll (listing_world [sample_issue 42] exit0) sample_config st1) in
  State.db st2 = State.db st1.
Proof. vm_compute. reflexivity. Qed.

(** The agent is killed at the timeout: the task ends failed. *)
Example poll_fails_on_timeout :
  let timed_out := SpawnSyncResult.mk (Some "spawnSync claude ETIMEDOUT") None
                     (Some "") (Some "") in
  let W := World.mk (fun _ => Ok [sample_issue 42]) (fun _ => Ok tt)
             (fun _ => Ok (GitHubRepo.mk "o" "r" "o/r" "" "" "main"))
             (fun _ => Ok "sha") (fun _ => Ok (GitHubPullRequest.mk 7 "https://pr/7"))
             (fun _ => Ok tt)
             (fun n => if Nat.leb 9 n then timed_out else exit0)
             (fun _ => tt)
             (fun _ => "2026-01-11T00:00:00.000Z") (fun _ => "2026-01-11 00:00:00") in
  let st := snd (poll W sample_config initial_state) in
  map task_summary (Store.tasks (State.db st)) = [(1, Some 1, Some 42, failed)]
  /\ map run_summary (Store.agentRuns (State.db st))
     = [(1, 1, run_failed, Some "spawnSync claude ETIMEDOUT")].
Proof. cbv zeta. repeat split; vm_compute; reflexivity. Qed.

(** The call of the agent in the first scenario. *)
Example poll_spawns_agent :
  nth_error
    (State.trace (snd (poll (listing_world [sample_issue 42] exit0) sample_config
                         initial_state))) 14
  = Some (EvCall (spawnSync "claude"
                    (buildArgs (AgentRunInput.mk 1 "Fix it" (Some "It is broken")
                                  "/tmp/loom-agent/o-r-42" "loom/issue-42"
                                  claude_config))
                    (SpawnOptions.mk (Some "/tmp/loom-agent/o-r-42")
                       (Some maxBuffer) (Some 1800000)))).
Proof. vm_compute. reflexivity. Qed.

(** [slice] and [length] count UTF-16 code units: an accented letter of
    two bytes is one unit, a character outside the basic plane is two. *)
Lemma slice0_counts_code_units :
  utf16_length "ééé" = 3%nat
  /\ slice0 3 "ééé" = "ééé"
  /\ slice0 2 "ééé" = "éé"
  /\ utf16_length "a😀b" = 4%nat
  /\ slice0 3 "a😀b" = "a😀"
  /\ slice0 3 "abcdef" = "abc".
Proof. repeat split; vm_compute; reflexivity. Qed.

(** ** Frames and the monad *)

#[export] Instance db_same_frame : Frame db_same.
Proof.
  split; unfold db_same; intros; congruence.
Qed.

#[export] Instance trace_adds_frame (P : Event -> Prop) : Frame (trace_adds P).
Proof.
  split; unfold trace_adds.
  - intros st. exists []. rewrite app_nil_r. auto.
  - intros a b c (d1 & E1 & F1) (d2 & E2 & F2).
    exists (d1 ++ d2)%list. rewrite E2, E1, app_assoc. split; [reflexivity|].
    apply Forall_app; auto.
Qed.

Section FrameRules.
Context (R : State.t -> State.t -> Prop) `{Frame R}.

Lemma preserves_run {A} (m : M A) st r st' :
  preserves R m -> m st = (r, st') -> R st st'.
Proof. intros Hm E. specialize (Hm st). now rewrite E in Hm. Qed.

Lemma preserves_ret {A} (a : A) : preserves R (ret a).
Proof. intros st. apply frame_refl. Qed.

Lemma preserves_throw {A} (e : string) : preserves R (@throw A e).
Proof. intros st. apply frame_refl. Qed.

Lemma preserves_get_db : preserves R get_db.
Proof. intros st. apply frame_refl. Qed.

Lemma preserves_CURRENT_TIMESTAMP W : preserves R (CURRENT_TIMESTAMP W).
Proof. intros st. apply frame_refl. Qed.

Lemma preserves_bind {A B} (m : M A) (k : A -> M B) :
  preserves R m -> (forall a, preserves R (k a)) -> preserves R (bind m k).
Proof.
  intros Hm Hk st. unfold bind.
  specialize (Hm st). destruct (m st) as [[a|e] st1]; cbn in *; auto.
  eapply frame_trans; [exact Hm|apply Hk].
Qed.

Lemma preserves_bind_returns {A B} (m : M A) (k : A -> M B) (P : A -> Prop) :
  (forall st a st', m st = (Ok a, st') -> P a) ->
  preserves R m -> (forall a, P a -> preserves R (k a)) -> preserves R (bind m k).
Proof.
  intros Hret Hm Hk st. unfold bind.
  specialize (Hm st). specialize (Hret st).
  destruct (m st) as [[a|e] st1]; cbn in *; auto.
  eapply frame_trans; [exact Hm|]. apply Hk. eapply Hret. reflexivity.
Qed.

Lemma preserves_try_catch {A} (m : M A) (h : string -> M A) :
  preserves R m -> (forall e, preserves R (h e)) -> preserves R (try_catch m h).
Proof.
  intros Hm Hh st. unfold try_catch.
  specialize (Hm st). destruct (m st) as [[a|e] st1]; cbn in *; auto.
  eapply frame_trans; [exact Hm|apply Hh].
Qed.

Lemma preserves_for_of {A} (xs : list A) (f : A -> M unit) :
  (forall x, preserves R (f x)) -> preserves R (for_of xs f).
Proof.
  intros Hf. induction xs as [|x xs IH]; cbn.
  - apply preserves_ret.
  - apply preserves_bind; auto.
Qed.
End FrameRules.

(** Breaks a goal [preserves R m] along the shape of [m]; what is left is
    about the primitive steps of [m]. *)
Ltac frame_step :=
  match goal with
  | |- preserves _ (ret _) => apply preserves_ret; try typeclasses eauto
  | |- preserves _ (throw _) => apply preserves_throw; try typeclasses eauto
  | |- preserves _ get_db => apply preserves_get_db; try typeclasses eauto
  | |- preserves _ (CURRENT_TIMESTAMP _) =>
      apply preserves_CURRENT_TIMESTAMP; try typeclasses eauto
  | |- preserves _ (bind _ _) =>
      apply preserves_bind; [try typeclasses eauto| |intros ?]
  | |- preserves _ (try_catch _ _) =>
      apply preserves_try_catch; [try typeclasses eauto| |intros ?]
  | |- preserves _ (for_of [] _) => cbn [for_of]
  | |- preserves _ (for_of (_ :: _) _) => cbn [for_of]
  | |- preserves _ (for_of _ _) =>
      apply preserves_for_of; [try typeclasses eauto|intros ?]
  | |- preserves _ (match ?x with _ => _ end) => destruct x
  | |- preserves _ (requireFirst _ _) => unfold requireFirst
  end.

Ltac frame := repeat (cbv beta iota zeta; frame_step).

(** ** The agent runner *)

Lemma runAgent_returns (W : World.t) (input : AgentRunInput.t) (st : State.t) :
  exists st',
    runAgent W input st = (Ok (agent_result (World.spawn W (State.tick st))), st')
    /\ State.db st' = State.db st
    /\ State.tick st' = S (State.tick st).
Proof.
  unfold runAgent, agent_result, bind, console, emit, do_spawnSync, request, ret.
  cbn [State.db State.tick State.trace].
  destruct (World.spawn W (State.tick st)) as [err status out errout].
  cbn [SpawnSyncResult.error SpawnSyncResult.status SpawnSyncResult.stdout
       SpawnSyncResult.stderr].
  destruct err as [message|].
  - eexists; repeat split; reflexivity.
  - destruct status as [c|].
    + destruct (Z.eqb c 0) eqn:Hc.
      * destruct (truthy (nullish out "")); eexists; repeat split; reflexivity.
      * destruct (truthy (nullish errout "")); eexists; repeat split; reflexivity.
    + destruct (truthy (nullish errout "")); eexists; repeat split; reflexivity.
Qed.


(** C4, as stated, fails: the child exited with code 0 and [success] is
    false. *)
Lemma runAgent_exit0_not_success :
  SpawnSyncResult.status timed_out_exit0 = Some 0 /\
  fst (runAgent (quiet_world timed_out_exit0) sample_input initial_state)
  = Ok (AgentRunResult.mk false "" (Some "spawnSync claude ETIMEDOUT") None).
Proof. split; reflexivity. Qed.

(** C4 (amended).  [runAgent] never throws: for every input and every reply
    of [spawnSync] it returns a result.  The result has [success = false]
    when [spawnSync] reported an error (a failed spawn, a timeout) and when
    the exit status is not 0; [success] is true exactly when no error was
    reported and the exit status is 0. *)
Theorem runAgent_contract (W : World.t) (input : AgentRunInput.t) (st : State.t) :
  let reply := World.spawn W (State.tick st) in
  exists res st',
    runAgent W input st = (Ok res, st')
    /\ (SpawnSyncResult.error reply <> None -> AgentRunResult.success res = false)
    /\ (SpawnSyncResult.status reply <> Some 0 -> AgentRunResult.success res = false)
    /\ (AgentRunResult.success res = true <->
        SpawnSyncResult.error reply = None /\ SpawnSyncResult.status reply = Some 0).
Proof.
  intros reply.
  destruct (runAgent_returns W input st) as (st' & Hrun & _).
  exists (agent_result reply), st'. split; [exact Hrun|].
  unfold agent_result. subst reply.
  destruct (World.spawn W (State.tick st)) as [err status out errout]; cbn.
  destruct err as [message|]; [cbn; intuition congruence|].
  destruct status as [c|]; [|cbn; intuition congruence].
  destruct (Z.eqb_spec c 0) as [->|Hne]; cbn; intuition congruence.
Qed.







(** ** Numbers in template literals *)

Lemma digits_no_hyphen (d : Decimal.uint) :
  occurs "-" (NilEmpty.string_of_uint d) = false.
Proof. induction d; cbn; auto. Qed.

Lemma digits_no_slash (d : Decimal.uint) :
  occurs "/" (NilEmpty.string_of_uint d) = false.
Proof. induction d; cbn; auto. Qed.

Lemma string_of_Z_no_hyphen (z : Z) : 0 <= z -> occurs "-" (string_of_Z z) = false.
Proof.
  intros Hz. unfold string_of_Z. destruct z as [|p|p]; cbn; [reflexivity| |lia].
  unfold NilZero.string_of_uint.
  destruct (Pos.to_uint p) eqn:E; try reflexivity; rewrite <- E;
    apply digits_no_hyphen.
Qed.

Lemma string_of_Z_no_slash (z : Z) : occurs "/" (string_of_Z z) = false.
Proof.
  unfold string_of_Z. destruct z as [|p|p]; cbn; [reflexivity| |];
    unfold NilZero.string_of_uint;
    destruct (Pos.to_uint p) eqn:E; try reflexivity; rewrite <- E;
    apply digits_no_slash.
Qed.

Lemma string_of_Z_inj (a b : Z) : string_of_Z a = string_of_Z b -> a = b.
Proof.
  unfold string_of_Z. intros E.
  assert (Hnn : forall z, Z.to_int z <> Decimal.Pos Decimal.Nil
                          /\ Z.to_int z <> Decimal.Neg Decimal.Nil).
  { intros [|p|p]; cbn; split; try discriminate; intros [= Hp];
      now apply (Unsigned.to_uint_nonnil p). }
  apply DecimalZ.to_int_inj.
  assert (S : Some (Z.to_int a) = Some (Z.to_int b)).
  { rewrite <- (NilZero.isi (Z.to_int a)), <- (NilZero.isi (Z.to_int b));
      try apply Hnn. now rewrite E. }
  now injection S.
Qed.

(** ** Splitting at a character *)

Lemma split_last (c : ascii) (x y d1 d2 : string) :
  occurs c d1 = false -> occurs c d2 = false ->
  x ++ String c d1 = y ++ String c d2 -> x = y /\ d1 = d2.
Proof.
  intros H1 H2. revert y.
  induction x as [|a x IH]; intros [|b y] E; cbn in E.
  - injection E. auto.
  - injection E as _ E. rewrite E, occurs_append in H1. cbn in H1.
    rewrite Ascii.eqb_refl, orb_true_r in H1. discriminate.
  - injection E as _ E. rewrite <- E, occurs_append in H2. cbn in H2.
    rewrite Ascii.eqb_refl, orb_true_r in H2. discriminate.
  - injection E as -> E. destruct (IH y E) as [-> ->]. auto.
Qed.

Lemma split_first (c : ascii) (x y r1 r2 : string) :
  occurs c x = false -> occurs c y = false ->
  x ++ String c r1 = y ++ String c r2 -> x = y /\ r1 = r2.
Proof.
  revert y. induction x as [|a x IH]; intros [|b y] H1 H2 E; cbn in *.
  - injection E. auto.
  - injection E as <- _. rewrite Ascii.eqb_refl in H2. discriminate.
  - injection E as -> _. rewrite Ascii.eqb_refl in H1. discriminate.
  - injection E as -> E.
    apply orb_false_iff in H1, H2. destruct H1 as [_ H1], H2 as [_ H2].
    destruct (IH y H1 H2 E) as [-> ->]. auto.
Qed.

Lemma dir_name_shape (owner repo : string) (n : Z) :
  dir_name owner repo n = (owner ++ "-" ++ repo) ++ String "-" (string_of_Z n).
Proof. unfold dir_name. now rewrite !append_assoc. Qed.

(** Two directory names agree exactly when the issue numbers agree and the
    hyphenated owner and repository agree. *)
Lemma dir_name_eq_iff (o1 r1 o2 r2 : string) (n1 n2 : Z) :
  0 <= n1 -> 0 <= n2 ->
  dir_name o1 r1 n1 = dir_name o2 r2 n2 <->
  o1 ++ "-" ++ r1 = o2 ++ "-" ++ r2 /\ n1 = n2.
Proof.
  intros H1 H2. rewrite !dir_name_shape. split.
  - intros E. apply split_last in E; try now apply string_of_Z_no_hyphen.
    destruct E as [E1 E2]. split; [exact E1|now apply string_of_Z_inj].
  - intros [-> ->]. reflexivity.
Qed.

Lemma dir_name_plain (owner repo : string) (n : Z) :
  occurs "/" owner = false -> occurs "/" repo = false ->
  plain_segment (dir_name owner repo n).
Proof.
  intros Ho Hr. unfold plain_segment.
  assert (Hh : occurs "-" (dir_name owner repo n) = true).
  { unfold dir_name. rewrite occurs_append. cbn. now rewrite orb_true_r. }
  split.
  - unfold dir_name. rewrite !occurs_append, Ho, Hr, string_of_Z_no_slash.
    reflexivity.
  - repeat split; intros E; rewrite E in Hh; discriminate.
Qed.

(** ** [join] on a plain last segment *)

Lemma split_on_nonempty (c : ascii) (s : string) : split_on c s <> [].
Proof.
  destruct s as [|d r]; cbn; [discriminate|].
  destruct (Ascii.eqb d c); [discriminate|].
  destruct (split_on c r); discriminate.
Qed.

Lemma split_on_plain (c : ascii) (s : string) :
  occurs c s = false -> split_on c s = [s].
Proof.
  induction s as [|d r IH]; cbn; [reflexivity|].
  intros H. apply orb_false_iff in H. destruct H as [Hd Hr].
  rewrite Ascii.eqb_sym in Hd. rewrite Hd, (IH Hr). reflexivity.
Qed.

Lemma split_on_app (c : ascii) (a b : string) :
  split_on c (a ++ String c b) = (split_on c a ++ split_on c b)%list.
Proof.
  induction a as [|d a IH]; cbn.
  - now rewrite Ascii.eqb_refl.
  - destruct (Ascii.eqb d c); rewrite IH; [reflexivity|].
    pose proof (split_on_nonempty c a) as Hne.
    destruct (split_on c a); [contradiction|reflexivity].
Qed.

Lemma concat_snoc (sep : string) (l : list string) (x : string) :
  String.concat sep (l ++ [x])
  = match l with
    | [] => x
    | _ => String.concat sep l ++ sep ++ x
    end.
Proof.
  induction l as [|y l IH]; [reflexivity|].
  cbn [app String.concat]. rewrite IH.
  destruct l as [|z l]; cbn [app]; [reflexivity|].
  now rewrite !append_assoc.
Qed.

Lemma normalize_step_plain (allow : bool) (kept : list string) (seg : string) :
  plain_segment seg -> normalize_step allow kept seg = seg :: kept.
Proof.
  intros (_ & H0 & H1 & H2). unfold normalize_step.
  apply String.eqb_neq in H0, H1, H2. now rewrite H0, H1, H2.
Qed.

Lemma ends_with_slash_app (a seg : string) :
  seg <> "" -> ends_with_slash (a ++ seg) = ends_with_slash seg.
Proof.
  intros Hseg. induction a as [|c a IH]; [reflexivity|].
  cbn [append ends_with_slash]. rewrite IH.
  destruct (a ++ seg) eqn:E; [|reflexivity].
  destruct a; cbn in E; [contradiction|discriminate].
Qed.

Lemma ends_with_slash_plain (seg : string) :
  occurs "/" seg = false -> ends_with_slash seg = false.
Proof.
  induction seg as [|c r IH]; [reflexivity|].
  cbn [occurs ends_with_slash]. intros H.
  apply orb_false_iff in H. destruct H as [Hc Hr].
  destruct r; [now rewrite Ascii.eqb_sym|auto].
Qed.

Lemma truthy_app_r (a b : string) : truthy b = true -> truthy (a ++ b) = true.
Proof. destruct a; auto. Qed.

Lemma plain_truthy (seg : string) : plain_segment seg -> truthy seg = true.
Proof. intros (_ & H0 & _). destruct seg; [contradiction|reflexivity]. Qed.

Lemma plain_not_absolute (seg : string) :
  plain_segment seg -> starts_with_slash seg = false.
Proof.
  intros (Hs & _). destruct seg as [|c r]; [reflexivity|].
  cbn in *. apply orb_false_iff in Hs. destruct Hs as [Hc _].
  now rewrite Ascii.eqb_sym.
Qed.

(** [join] keeps a plain last segment as it is, after a prefix that
    depends on the directory alone. *)
Lemma join_plain (w seg : string) :
  plain_segment seg -> join w seg = join_prefix w ++ seg.
Proof.
  intros Hp. pose proof (plain_truthy seg Hp) as Ts.
  unfold join, join_prefix. cbn [filter]. rewrite Ts.
  destruct (truthy w) eqn:Tw.
  - cbn [join_with String.concat].
    assert (Ej : w ++ "/" ++ seg = w ++ String "/" seg) by reflexivity.
    rewrite Ej. unfold normalize.
    rewrite (truthy_app_r w (String "/" seg)) by reflexivity.
    assert (Ea : starts_with_slash (w ++ String "/" seg) = starts_with_slash w).
    { destruct w; [discriminate|reflexivity]. }
    rewrite Ea.
    assert (Et : ends_with_slash (w ++ String "/" seg) = false).
    { rewrite ends_with_slash_app by discriminate.
      cbn [ends_with_slash]. destruct seg as [|c r]; [discriminate|].
      apply ends_with_slash_plain. apply Hp. }
    rewrite Et. unfold normalizeString.
    rewrite split_on_app, (split_on_plain "/" seg) by apply Hp.
    rewrite fold_left_app. cbn [fold_left].
    rewrite normalize_step_plain by exact Hp.
    cbn [rev]. unfold join_with. rewrite concat_snoc.
    set (kept := fold_left _ _ _).
    destruct kept as [|k ks] eqn:Ek.
    + cbn [rev]. rewrite Ts. now rewrite !append_nil_r.
    + destruct (rev (k :: ks)) eqn:Er.
      { apply (f_equal (@List.length string)) in Er.
        rewrite length_rev in Er. discriminate. }
      rewrite truthy_app_r by (apply truthy_app_r; exact Ts).
      rewrite !append_nil_r. now rewrite !append_assoc.
  - cbn [join_with String.concat]. unfold normalize. rewrite Ts.
    rewrite (plain_not_absolute seg Hp), (ends_with_slash_plain seg) by apply Hp.
    unfold normalizeString. rewrite split_on_plain by apply Hp.
    cbn [fold_left negb]. rewrite normalize_step_plain by exact Hp.
    cbn [rev app join_with String.concat]. rewrite Ts.
    cbn. now rewrite append_nil_r.
Qed.

Lemma join_plain_inj (w a b : string) :
  plain_segment a -> plain_segment b -> join w a = join w b -> a = b.
Proof.
  intros Ha Hb. rewrite !join_plain by assumption. apply append_inv_head.
Qed.

(** ** C7 *)

Lemma bind_returns {A B} (m : M A) (k : A -> M B) (P : B -> Prop) :
  (forall a st b st', k a st = (Ok b, st') -> P b) ->
  forall st b st', bind m k st = (Ok b, st') -> P b.
Proof.
  intros Hk st b st' E. unfold bind in E.
  destruct (m st) as [[a|e] st1]; [eauto|discriminate].
Qed.

Lemma prepareWorkDir_returns W cfg rc issue st branch dir st' :
  prepareWorkDir W cfg rc issue st = (Ok (branch, dir), st') ->
  branch = branch_of issue /\ dir = repoDir_of cfg rc issue.
Proof.
  unfold prepareWorkDir. intros E.
  apply (bind_returns _ _
           (fun p => fst p = branch_of issue /\ snd p = repoDir_of cfg rc issue))
    in E; [exact E|].
  intros _ s1 p s1'.
  apply (bind_returns _ _
           (fun p => fst p = branch_of issue /\ snd p = repoDir_of cfg rc issue)).
  intros _ s2 q s2' [= <- _]. auto.
Qed.

(** C7, as stated, fails: the owner [a-b] with the repository [c] and the
    owner [a] with the repository [b-c] are given the same directory for
    the issue of the same number. *)
Lemma prepareWorkDir_not_injective :
  let rc1 := RepoWatchConfig.mk "a-b" "c" "loom" None in
  let rc2 := RepoWatchConfig.mk "a" "b-c" "loom" None in
  (RepoWatchConfig.owner rc1, RepoWatchConfig.repo rc1)
    <> (RepoWatchConfig.owner rc2, RepoWatchConfig.repo rc2)
  /\ fst (prepareWorkDir (quiet_world exit0) sample_config rc1 (sample_issue 1)
            initial_state)
     = Ok ("loom/issue-1", "/tmp/loom-agent/a-b-c-1")
  /\ fst (prepareWorkDir (quiet_world exit0) sample_config rc2 (sample_issue 1)
            initial_state)
     = Ok ("loom/issue-1", "/tmp/loom-agent/a-b-c-1").
Proof.
  cbv zeta. split; [discriminate|]. split; vm_compute; reflexivity.
Qed.

(** C7 (amended).  For owners and repositories whose names hold no [/] and
    issue numbers that are not negative, two runs of [prepareWorkDir] under
    one configuration compute the same directory exactly when the issue
    numbers are equal and [owner-repo] reads the same for both.  Hence the
    directory determines the triple when the owners hold no [-]; in
    particular, for one repository, distinct issues get distinct
    directories. *)
Theorem prepareWorkDir_same_dir (W1 W2 : World.t) (cfg : EngineConfig.t)
    (rc1 rc2 : RepoWatchConfig.t) (i1 i2 : GitHubIssue.t)
    (st1 st2 st1' st2' : State.t) (b1 b2 d1 d2 : string) :
  occurs "/" (RepoWatchConfig.owner rc1) = false ->
  occurs "/" (RepoWatchConfig.repo rc1) = false ->
  occurs "/" (RepoWatchConfig.owner rc2) = false ->
  occurs "/" (RepoWatchConfig.repo rc2) = false ->
  0 <= GitHubIssue.number i1 ->
  0 <= GitHubIssue.number i2 ->
  prepareWorkDir W1 cfg rc1 i1 st1 = (Ok (b1, d1), st1') ->
  prepareWorkDir W2 cfg rc2 i2 st2 = (Ok (b2, d2), st2') ->
  (d1 = d2 <->
   RepoWatchConfig.owner rc1 ++ "-" ++ RepoWatchConfig.repo rc1
   = RepoWatchConfig.owner rc2 ++ "-" ++ RepoWatchConfig.repo rc2
   /\ GitHubIssue.number i1 = GitHubIssue.number i2)
  /\ (occurs "-" (RepoWatchConfig.owner rc1) = false ->
      occurs "-" (RepoWatchConfig.owner rc2) = false ->
      d1 = d2 ->
      RepoWatchConfig.owner rc1 = RepoWatchConfig.owner rc2
      /\ RepoWatchConfig.repo rc1 = RepoWatchConfig.repo rc2
      /\ GitHubIssue.number i1 = GitHubIssue.number i2).
Proof.
  intros Ho1 Hr1 Ho2 Hr2 Hn1 Hn2 E1 E2.
  apply prepareWorkDir_returns in E1, E2.
  destruct E1 as [_ ->], E2 as [_ ->]. unfold repoDir_of.
  assert (Hiff : join (EngineConfig.workDir cfg)
                   (dir_name (RepoWatchConfig.owner rc1) (RepoWatchConfig.repo rc1)
                      (GitHubIssue.number i1))
                 = join (EngineConfig.workDir cfg)
                     (dir_name (RepoWatchConfig.owner rc2) (RepoWatchConfig.repo rc2)
                        (GitHubIssue.number i2))
                 <-> RepoWatchConfig.owner rc1 ++ "-" ++ RepoWatchConfig.repo rc1
                     = RepoWatchConfig.owner rc2 ++ "-" ++ RepoWatchConfig.repo rc2
                     /\ GitHubIssue.number i1 = GitHubIssue.number i2).
  { rewrite <- dir_name_eq_iff by assumption. split.
    - apply join_plain_inj; now apply dir_name_plain.
    - now intros ->. }
  split; [exact Hiff|].
  intros Hh1 Hh2 E. apply Hiff in E. destruct E as [E En].
  assert (Es : RepoWatchConfig.owner rc1 ++ String "-" (RepoWatchConfig.repo rc1)
               = RepoWatchConfig.owner rc2 ++ String "-" (RepoWatchConfig.repo rc2))
    by exact E.
  apply split_first in Es; try assumption.
  destruct Es as [Eo Er]. auto.
Qed.

Lemma prepareWorkDir_same_dir_witness :
  let rc := RepoWatchConfig.mk "o" "r" "loom" None in
  ("/tmp/loom-agent/o-r-1" = "/tmp/loom-agent/o-r-2" <->
   "o" ++ "-" ++ "r" = "o" ++ "-" ++ "r" /\ 1 = 2)
  /\ (occurs "-" "o" = false -> occurs "-" "o" = false ->
      "/tmp/loom-agent/o-r-1" = "/tmp/loom-agent/o-r-2" ->
      "o" = "o" /\ "r" = "r" /\ 1 = 2).
Proof.
  intros rc.
  apply (prepareWorkDir_same_dir (quiet_world exit0) (quiet_world exit0)
           sample_config rc rc (sample_issue 1) (sample_issue 2)
           initial_state initial_state
           (snd (prepareWorkDir (quiet_world exit0) sample_config rc
                   (sample_issue 1) initial_state))
           (snd (prepareWorkDir (quiet_world exit0) sample_config rc
                   (sample_issue 2) initial_state))
           "loom/issue-1" "loom/issue-2");
    vm_compute; try reflexivity; discriminate.
Defined.

(** ** What the primitive steps preserve *)

Lemma request_db_same W {A} (c : Call) (reply : World.t -> nat -> Result A) :
  preserves db_same (request W c reply).
Proof. intros st. reflexivity. Qed.

Lemma emit_db_same (e : Event) : preserves db_same (emit e).
Proof. intros st. reflexivity. Qed.

Lemma request_trace_adds (P : Event -> Prop) W {A} (c : Call)
    (reply : World.t -> nat -> Result A) :
  P (EvCall c) -> preserves (trace_adds P) (request W c reply).
Proof. intros Hc st. exists [EvCall c]. cbn. auto. Qed.

Lemma emit_trace_adds (P : Event -> Prop) (e : Event) :
  P e -> preserves (trace_adds P) (emit e).
Proof. intros He st. exists [e]. cbn. auto. Qed.

Lemma put_db_trace_adds (P : Event -> Prop) (d : Store.t) :
  preserves (trace_adds P) (put_db d).
Proof. intros st. exists []. cbn. rewrite app_nil_r. auto. Qed.

(** Unfolds the helpers that only talk to the outside world. *)
Ltac unfold_io :=
  unfold prepareWorkDir, prepareBranch, executeAgent, notifyWorking,
    runAgent, commitAndPush, cloneRepo, checkoutBranch, createBranch, getRepo,
    createPullRequest, listIssues, addIssueLabel, addIssueComment, check_spawn,
    do_spawnSync, toISOString_now, sleep, console.

Ltac db_same_io :=
  unfold_io; frame; auto using request_db_same, emit_db_same.

Lemma prepareWorkDir_db_same W cfg rc issue :
  preserves db_same (prepareWorkDir W cfg rc issue).
Proof. db_same_io. Qed.

Lemma prepareBranch_db_same W rc branch dir :
  preserves db_same (prepareBranch W rc branch dir).
Proof. db_same_io. Qed.

Lemma executeAgent_db_same W cfg issue dir branch taskId :
  preserves db_same (executeAgent W cfg issue dir branch taskId).
Proof. db_same_io. Qed.

Lemma notifyWorking_db_same W taskId issue rc :
  preserves db_same (notifyWorking W taskId issue rc).
Proof. db_same_io. Qed.

Lemma commitAndPush_db_same W dir message branch :
  preserves db_same (commitAndPush W dir message branch).
Proof. db_same_io. Qed.

(** ** The pipeline and the store *)

Lemma submitPullRequest_outcome W cfg result issue rc branch taskId runId st :
  exists st',
    (exists e, submitPullRequest W cfg result issue rc branch taskId runId st
               = (Throw e, st') /\ State.db st' = State.db st)
    \/ (submitPullRequest W cfg result issue rc branch taskId runId st = (Ok tt, st')
        /\ exists pr now ts,
             State.db st' = db_completed taskId runId pr now ts
                              (AgentRunResult.output result) (State.db st)).
Proof.
  unfold submitPullRequest, bind.
  destruct (commitAndPush W _ _ _ st) as [[[]|e] st1] eqn:E1;
    pose proof (preserves_run db_same _ _ _ _ (commitAndPush_db_same W _ _ _) E1) as D1.
  2:{ exists st1. left. eauto. }
  unfold createPullRequest, request.
  destruct (World.pulls_create W (State.tick st1)) as [pr|e].
  2:{ eexists. left. eexists. split; [reflexivity|exact D1]. }
  unfold toISOString_now, request, update_task, update_agentRun, bind,
    CURRENT_TIMESTAMP, get_db, put_db, console, emit, try_catch,
    addIssueComment, request, ret.
  cbn [State.db State.tick State.trace].
  destruct (World.octokit_unit W _) as [[]|e];
    eexists; right; (split; [reflexivity|]); cbn [State.db];
    exists pr; do 2 eexists; unfold db_completed; rewrite D1; reflexivity.
Qed.

Lemma recordFailure_outcome W taskId runId errorMsg issue rc st :
  exists st',
    recordFailure W taskId runId errorMsg issue rc st = (Ok tt, st')
    /\ exists now ts,
         State.db st' = db_failed taskId runId now ts errorMsg (State.db st).
Proof.
  unfold recordFailure, toISOString_now, request, update_task, update_agentRun,
    bind, CURRENT_TIMESTAMP, get_db, put_db, console, emit, try_catch,
    addIssueComment, request, ret.
  cbn [State.db State.tick State.trace].
  destruct (World.octokit_unit W _) as [[]|e];
    eexists; (split; [reflexivity|]); cbn [State.db];
    do 2 eexists; reflexivity.
Qed.

Lemma pipeline_outcome W cfg taskId runId issue rc st :
  exists st',
    (exists e, pipeline W cfg taskId runId issue rc st = (Throw e, st')
               /\ State.db st' = State.db st)
    \/ (pipeline W cfg taskId runId issue rc st = (Ok tt, st')
        /\ exists pr now ts output,
             State.db st' = db_completed taskId runId pr now ts output (State.db st)).
Proof.
  unfold pipeline, bind.
  destruct (prepareWorkDir W cfg rc issue st) as [[[branch dir]|e] st1] eqn:E1;
    pose proof (preserves_run db_same _ _ _ _ (prepareWorkDir_db_same W _ _ _) E1) as D1.
  2:{ exists st1. left. eauto. }
  destruct (prepareBranch W rc branch dir st1) as [[[]|e] st2] eqn:E2;
    pose proof (preserves_run db_same _ _ _ _ (prepareBranch_db_same W _ _ _) E2) as D2.
  2:{ exists st2. left. exists e. split; [reflexivity|congruence]. }
  destruct (executeAgent W cfg issue dir branch taskId st2) as [[result|e] st3] eqn:E3;
    pose proof (preserves_run db_same _ _ _ _ (executeAgent_db_same W _ _ _ _ _) E3) as D3.
  2:{ exists st3. left. exists e. split; [reflexivity|congruence]. }
  destruct (submitPullRequest_outcome W cfg result issue rc branch taskId runId st3)
    as (st4 & [(e & E4 & D4) | (E4 & pr & now & ts & D4)]).
  - exists st4. left. exists e. split; [exact E4|congruence].
  - exists st4. right. split; [exact E4|].
    exists pr, now, ts, (AgentRunResult.output result).
    rewrite D4. unfold db_same in *. congruence.
Qed.

(** [runAgentForTask] always returns; the store it leaves is the store with
    the new run, closed either way. *)
Lemma runAgentForTask_outcome W cfg taskId issue rc st :
  exists st',
    runAgentForTask W cfg taskId issue rc st = (Ok tt, st')
    /\ closed_after cfg taskId (State.db st) (State.db st').
Proof.
  unfold runAgentForTask, createAgentRun, insert_agentRun, requireFirst, bind,
    CURRENT_TIMESTAMP, get_db, put_db, ret, try_catch, closed_after.
  cbn [State.db State.tick State.trace AgentRun.id].
  set (ts := World.current_timestamp W (State.tick st)).
  set (st1 := State.mk _ _ _).
  destruct (pipeline_outcome W cfg taskId (next_agentRun_id (State.db st)) issue rc st1)
    as (st2 & [(e & E & D) | (E & pr & now & ts' & output & D)]).
  - rewrite E.
    destruct (recordFailure_outcome W taskId (next_agentRun_id (State.db st)) e issue rc st2)
      as (st3 & E3 & now & ts' & D3).
    exists st3. split; [exact E3|]. exists ts.
    right. exists now, ts', e. rewrite D3, D. reflexivity.
  - rewrite E. exists st2. split; [reflexivity|]. exists ts.
    left. exists pr, now, ts', output. rewrite D. reflexivity.
Qed.

(** ** Fresh ids and updated rows *)

Lemma fold_max_ge (seq : Z) (ids : list Z) :
  seq <= fold_right Z.max seq ids /\
  forall x, In x ids -> x <= fold_right Z.max seq ids.
Proof.
  induction ids as [|y ys [IH1 IH2]]; cbn.
  - split; [lia|tauto].
  - split; [lia|]. intros x [->|Hx]; [lia|]. specialize (IH2 x Hx). lia.
Qed.

Lemma next_id_fresh (seq : Z) (ids : list Z) : ~ In (next_id seq ids) ids.
Proof.
  intros Hin. apply (proj2 (fold_max_ge seq ids)) in Hin. unfold next_id in Hin. lia.
Qed.

Lemma touch_task_id set taskId now t :
  (forall u, Task.id (set u) = Task.id u) ->
  Task.id (touch_task set taskId now t) = Task.id t.
Proof.
  intros Hset. unfold touch_task. destruct (Z.eqb _ _); cbn; auto.
Qed.

Lemma touch_task_issue set taskId now t :
  (forall u, Task.githubIssueId (set u) = Task.githubIssueId u) ->
  Task.githubIssueId (touch_task set taskId now t) = Task.githubIssueId t.
Proof.
  intros Hset. unfold touch_task. destruct (Z.eqb _ _); cbn; auto.
Qed.

Lemma map_touch_task_ids set taskId now l :
  (forall u, Task.id (set u) = Task.id u) ->
  map Task.id (map (touch_task set taskId now) l) = map Task.id l.
Proof.
  intros Hset. rewrite map_map. apply map_ext. intros t.
  now apply touch_task_id.
Qed.

Lemma touch_task_status set taskId now t s :
  (forall u, Task.id (set u) = Task.id u) ->
  (forall u, Task.status (set u) = s) ->
  Task.id (touch_task set taskId now t) = taskId ->
  Task.status (touch_task set taskId now t) = s.
Proof.
  intros Hid Hs. unfold touch_task.
  destruct (Z.eqb_spec (Task.id t) taskId) as [E|NE]; cbn; auto.
  intros E. contradiction.
Qed.

Lemma map_touch_agentRun_ids set runId l :
  (forall u, AgentRun.id (set u) = AgentRun.id u) ->
  map AgentRun.id (map (touch_agentRun set runId) l) = map AgentRun.id l.
Proof.
  intros Hset. rewrite map_map. apply map_ext. intros r.
  unfold touch_agentRun. destruct (Z.eqb _ _); auto.
Qed.

Lemma tasks_updated_task_is set taskId now d s :
  (forall u, Task.id (set u) = Task.id u) ->
  (forall u, Task.status (set u) = s) ->
  task_is (tasks_updated set taskId now d) taskId s.
Proof.
  intros Hid Hs t Hin E. cbn in Hin. apply in_map_iff in Hin.
  destruct Hin as (t0 & <- & _). now apply touch_task_status.
Qed.

(** A run that was just inserted and then updated by its id. *)
Lemma closed_run_is set run d s :
  AgentRun.id run = next_agentRun_id d ->
  (forall u, AgentRun.id (set u) = AgentRun.id u) ->
  (forall u, AgentRun.taskId (set u) = AgentRun.taskId u) ->
  (forall u, AgentRun.status (set u) = s) ->
  forall r,
    In r (map (touch_agentRun set (AgentRun.id run)) (Store.agentRuns d ++ [run])) ->
    AgentRun.id r = AgentRun.id run ->
    AgentRun.status r = s /\ AgentRun.taskId r = AgentRun.taskId run.
Proof.
  intros Hfresh Hid Htask Hs r Hin E.
  apply in_map_iff in Hin. destruct Hin as (r0 & <- & Hin0).
  unfold touch_agentRun in *.
  destruct (Z.eqb_spec (AgentRun.id r0) (AgentRun.id run)) as [E0|NE].
  - apply in_app_iff in Hin0. destruct Hin0 as [Hold|[<-|[]]].
    + exfalso. apply (next_id_fresh (Store.seq_agentRuns d)
                        (map AgentRun.id (Store.agentRuns d))).
      fold (next_agentRun_id d). rewrite <- Hfresh, <- E0. now apply in_map.
    + split; [apply Hs|apply Htask].
  - contradiction.
Qed.

Lemma map_touch_task_issues set taskId now l :
  (forall u, Task.githubIssueId (set u) = Task.githubIssueId u) ->
  map Task.githubIssueId (map (touch_task set taskId now) l)
  = map Task.githubIssueId l.
Proof.
  intros Hset. rewrite map_map. apply map_ext. intros t.
  now apply touch_task_issue.
Qed.

Lemma touch_task_not_todo set taskId now t :
  (forall u, Task.status (set u) <> todo) ->
  Task.status t <> todo -> Task.status (touch_task set taskId now t) <> todo.
Proof.
  intros Hset Ht. unfold touch_task. destruct (Z.eqb _ _); cbn; auto.
Qed.

Lemma tasks_updated_no_todo set taskId now d :
  (forall u, Task.status (set u) <> todo) ->
  no_todo d -> no_todo (tasks_updated set taskId now d).
Proof.
  intros Hset Hd. unfold no_todo in *. cbn. apply Forall_map.
  eapply Forall_impl; [|exact Hd]. intros t. now apply touch_task_not_todo.
Qed.

(** What one run of the pipeline does to the store. *)
Lemma closed_after_facts cfg taskId d d' :
  closed_after cfg taskId d d' ->
  let runId := next_agentRun_id d in
  Store.repos d' = Store.repos d
  /\ map Task.id (Store.tasks d') = map Task.id (Store.tasks d)
  /\ map Task.githubIssueId (Store.tasks d') = map Task.githubIssueId (Store.tasks d)
  /\ (no_todo d -> no_todo d')
  /\ map AgentRun.id (Store.agentRuns d')
     = (map AgentRun.id (Store.agentRuns d) ++ [runId])%list
  /\ ((task_is d' taskId completed /\ run_is d' runId taskId run_completed)
      \/ (task_is d' taskId failed /\ run_is d' runId taskId run_failed)).
Proof.
  intros (ts & Hdb) runId. cbv zeta in Hdb.
  assert (Hrid : AgentRun.id (new_run cfg taskId ts d) = runId) by reflexivity.
  rewrite Hrid in Hdb.
  destruct Hdb as [(pr & now & ts' & output & ->) | (now & ts' & e & ->)].
  - unfold db_completed.
    cbn [agentRuns_updated tasks_updated with_agentRun Store.tasks
           Store.agentRuns Store.repos].
    rewrite map_touch_task_ids, map_touch_task_issues, map_touch_agentRun_ids
      by reflexivity.
    rewrite map_app. cbn [map new_run AgentRun.id].
    repeat split; try reflexivity.
    + intros Hd.
      apply (tasks_updated_no_todo _ taskId ts' (with_agentRun _ d));
        [discriminate|exact Hd].
    + left. split.
      * apply (tasks_updated_task_is _ taskId ts' (with_agentRun _ d)); reflexivity.
      * intros r Hin E. rewrite <- Hrid in Hin, E.
        now apply (closed_run_is _ _ d run_completed) in Hin.
  - unfold db_failed.
    cbn [agentRuns_updated tasks_updated with_agentRun Store.tasks
           Store.agentRuns Store.repos].
    rewrite map_touch_task_ids, map_touch_task_issues, map_touch_agentRun_ids
      by reflexivity.
    rewrite map_app. cbn [map new_run AgentRun.id].
    repeat split; try reflexivity.
    + intros Hd.
      apply (tasks_updated_no_todo _ taskId ts' (with_agentRun _ d));
        [discriminate|exact Hd].
    + right. split.
      * apply (tasks_updated_task_is _ taskId ts' (with_agentRun _ d)); reflexivity.
      * intros r Hin E. rewrite <- Hrid in Hin, E.
        now apply (closed_run_is _ _ d run_failed) in Hin.
Qed.

(** ** C2 *)

(** C2.  [runAgentForTask] always returns.  When it has returned, every
    task row with the given id is [completed] or [failed], never
    [in_progress], and the run row it created at its start (a fresh id,
    bound to the task) is [completed] or [failed], never [running]; the two
    agree.  No task row is added or removed and the only new run row is
    that one.  This holds for every reply of the outside world, hence
    whichever step of the pipeline failed. *)
Theorem runAgentForTask_terminal (W : World.t) (cfg : EngineConfig.t)
    (taskId : Z) (issue : GitHubIssue.t) (rc : RepoWatchConfig.t) (st : State.t) :
  let d := State.db st in
  let runId := next_agentRun_id d in
  exists st',
    runAgentForTask W cfg taskId issue rc st = (Ok tt, st') /\
    let d' := State.db st' in
    map Task.id (Store.tasks d') = map Task.id (Store.tasks d) /\
    map AgentRun.id (Store.agentRuns d')
      = (map AgentRun.id (Store.agentRuns d) ++ [runId])%list /\
    ~ In runId (map AgentRun.id (Store.agentRuns d)) /\
    ((task_is d' taskId completed /\ run_is d' runId taskId run_completed)
     \/ (task_is d' taskId failed /\ run_is d' runId taskId run_failed)).
Proof.
  intros d runId.
  destruct (runAgentForTask_outcome W cfg taskId issue rc st) as (st' & Hrun & Hdb).
  exists st'. split; [exact Hrun|].
  apply closed_after_facts in Hdb.
  destruct Hdb as (_ & Hids & _ & _ & Hruns & Hclosed).
  cbv zeta. repeat split; try assumption.
  apply next_id_fresh.
Qed.

(** ** Relations between stores, through the whole orchestrator *)

Section DbFrame.
Variable Rd : Store.t -> Store.t -> Prop.
Hypothesis Rd_refl : forall d, Rd d d.
Hypothesis Rd_trans : forall a b c, Rd a b -> Rd b c -> Rd a c.

#[local] Instance on_db_frame : Frame (on_db Rd).
Proof.
  split; unfold on_db; intros; [apply Rd_refl|eapply Rd_trans; eauto].
Qed.

Lemma db_same_on_db {A} (m : M A) : preserves db_same m -> preserves (on_db Rd) m.
Proof.
  intros Hm st. specialize (Hm st). unfold db_same, on_db in *.
  rewrite Hm. apply Rd_refl.
Qed.

Lemma request_on_db W {A} (c : Call) (reply : World.t -> nat -> Result A) :
  preserves (on_db Rd) (request W c reply).
Proof. apply db_same_on_db, request_db_same. Qed.

Lemma emit_on_db (e : Event) : preserves (on_db Rd) (emit e).
Proof. apply db_same_on_db, emit_db_same. Qed.

Hypothesis Rd_with_repo : forall row d, Rd d (with_repo row d).
Hypothesis Rd_with_agentRun : forall row d, Rd d (with_agentRun row d).
Hypothesis Rd_retry :
  forall repoId taskId now d, Rd d (tasks_updated (set_retry repoId) taskId now d).
Hypothesis Rd_completed :
  forall n url taskId now d,
    Rd d (tasks_updated (set_task_completed n url) taskId now d).
Hypothesis Rd_failed :
  forall taskId now d, Rd d (tasks_updated set_task_failed taskId now d).
Hypothesis Rd_agentRuns_updated :
  forall set runId d, Rd d (agentRuns_updated set runId d).

Lemma insert_repo_on_db W githubUrl name owner label :
  preserves (on_db Rd) (insert_repo W githubUrl name owner label).
Proof. intros st. apply Rd_with_repo. Qed.

Lemma insert_agentRun_on_db W model provider status taskId :
  preserves (on_db Rd) (insert_agentRun W model provider status taskId).
Proof. intros st. apply Rd_with_agentRun. Qed.

Lemma update_retry_on_db W repoId taskId :
  preserves (on_db Rd) (update_task W (set_retry repoId) taskId).
Proof. intros st. apply Rd_retry. Qed.

Lemma update_completed_on_db W n url taskId :
  preserves (on_db Rd) (update_task W (set_task_completed n url) taskId).
Proof. intros st. apply Rd_completed. Qed.

Lemma update_failed_on_db W taskId :
  preserves (on_db Rd) (update_task W set_task_failed taskId).
Proof. intros st. apply Rd_failed. Qed.

Lemma update_agentRun_on_db set runId :
  preserves (on_db Rd) (update_agentRun set runId).
Proof. intros st. apply Rd_agentRuns_updated. Qed.

Ltac on_db_prims :=
  auto using request_on_db, emit_on_db, insert_repo_on_db,
    insert_agentRun_on_db, update_retry_on_db, update_completed_on_db,
    update_failed_on_db, update_agentRun_on_db.

Lemma upsertRepo_on_db W rc : preserves (on_db Rd) (upsertRepo W rc).
Proof.
  unfold upsertRepo, select_repos_by_owner. frame; on_db_prims.
Qed.

Lemma runAgentForTask_on_db W cfg taskId issue rc :
  preserves (on_db Rd) (runAgentForTask W cfg taskId issue rc).
Proof.
  unfold runAgentForTask, createAgentRun, pipeline, submitPullRequest,
    recordFailure.
  unfold_io. frame; on_db_prims.
Qed.

Lemma notifyWorking_on_db W taskId issue rc :
  preserves (on_db Rd) (notifyWorking W taskId issue rc).
Proof. apply db_same_on_db, notifyWorking_db_same. Qed.

Lemma handleIssue_on_db_of_insert W cfg issue repoRecord rc :
  (forall row d, Rd d (with_task row d)) ->
  preserves (on_db Rd) (handleIssue W cfg issue repoRecord rc).
Proof.
  intros Rd_with_task.
  assert (Hins : forall d g r s t,
             preserves (on_db Rd) (insert_task W d g r s t)).
  { intros d g r s t st. apply Rd_with_task. }
  unfold handleIssue, existingTask_of, select_tasks_by_issue, claimTask.
  unfold_io. frame; on_db_prims.
  all: try apply runAgentForTask_on_db.
  all: apply db_same_on_db, emit_db_same.
Qed.

(** From the issues of one repository to the turns of the loop. *)
Hypothesis handleIssue_on_db :
  forall W cfg issue repoRecord rc,
    preserves (on_db Rd) (handleIssue W cfg issue repoRecord rc).

Lemma processRepo_on_db W cfg rc : preserves (on_db Rd) (processRepo W cfg rc).
Proof.
  unfold processRepo. unfold_io. frame; on_db_prims.
  apply upsertRepo_on_db.
Qed.

Lemma poll_on_db W cfg : preserves (on_db Rd) (poll W cfg).
Proof.
  unfold poll. unfold_io. frame; on_db_prims. apply processRepo_on_db.
Qed.

Lemma loop_on_db W cfg n : preserves (on_db Rd) (loop W cfg n).
Proof.
  induction n as [|n IH]; cbn [loop].
  - apply preserves_ret. typeclasses eauto.
  - unfold_io. frame; on_db_prims. apply poll_on_db.
Qed.
End DbFrame.

(** ** C10 *)

Lemma find_filter {A} (p q : A -> bool) (l : list A) :
  find q (filter p l) = find (fun x => (p x && q x)%bool) l.
Proof.
  induction l as [|x l IH]; cbn; [reflexivity|].
  destruct (p x); cbn; [destruct (q x); auto|auto].
Qed.

Lemma upsertRepo_found W rc st found :
  find (repo_matches rc) (Store.repos (State.db st)) = Some found ->
  upsertRepo W rc st = (Ok found, st).
Proof.
  intros Hfind. unfold upsertRepo, select_repos_by_owner, bind, get_db, ret.
  rewrite find_filter. unfold repo_matches in Hfind. now rewrite Hfind.
Qed.

Lemma repos_extended_refl d : repos_extended d d.
Proof. exists []. now rewrite app_nil_r. Qed.

Lemma repos_extended_trans a b c :
  repos_extended a b -> repos_extended b c -> repos_extended a c.
Proof.
  intros (e1 & E1) (e2 & E2). exists (e1 ++ e2)%list.
  now rewrite E2, E1, app_assoc.
Qed.

Lemma repos_extended_same d d' :
  Store.repos d' = Store.repos d -> repos_extended d d'.
Proof. intros E. exists []. now rewrite app_nil_r. Qed.

(** Closes the side conditions of the rules for relations between stores. *)
Ltac repos_side :=
  first
    [ exact repos_extended_refl
    | exact repos_extended_trans
    | solve [intros; apply repos_extended_same; reflexivity]
    | solve [intros; eexists; reflexivity] ].

Lemma handleIssue_repos_kept W cfg issue repoRecord rc :
  preserves repos_kept (handleIssue W cfg issue repoRecord rc).
Proof. apply handleIssue_on_db_of_insert; repos_side. Qed.

Lemma loop_repos_kept W cfg n : preserves repos_kept (loop W cfg n).
Proof.
  apply loop_on_db; try repos_side.
  intros; apply handleIssue_repos_kept.
Qed.

Lemma poll_repos_kept W cfg : preserves repos_kept (poll W cfg).
Proof.
  apply poll_on_db; try repos_side.
  intros; apply handleIssue_repos_kept.
Qed.

Lemma processRepo_repos_kept W cfg rc : preserves repos_kept (processRepo W cfg rc).
Proof.
  apply processRepo_on_db; try repos_side.
  intros; apply handleIssue_repos_kept.
Qed.

Lemma upsertRepo_repos_kept W rc : preserves repos_kept (upsertRepo W rc).
Proof. apply upsertRepo_on_db; repos_side. Qed.

(** C10.  When a row of [repos] has the owner and the name of the
    configuration, [upsertRepo] returns the first such row as it is stored
    and leaves the whole state as it was: no row is inserted and the stored
    [watchLabel] is not touched, whatever label the configuration has.  And
    no operation of the orchestrator - [upsertRepo], [handleIssue],
    [processRepo], [poll], any number of turns of [loop] - deletes or
    changes a row of [repos]: the table afterwards is the table before,
    possibly followed by new rows. *)
Theorem upsertRepo_keeps_rows (W : World.t) (cfg : EngineConfig.t) :
  (forall rc st found,
     find (repo_matches rc) (Store.repos (State.db st)) = Some found ->
     upsertRepo W rc st = (Ok found, st))
  /\ (forall rc st, repos_kept st (snd (upsertRepo W rc st)))
  /\ (forall issue repoRecord rc st,
        repos_kept st (snd (handleIssue W cfg issue repoRecord rc st)))
  /\ (forall rc st, repos_kept st (snd (processRepo W cfg rc st)))
  /\ (forall st, repos_kept st (snd (poll W cfg st)))
  /\ (forall n st, repos_kept st (snd (loop W cfg n st))).
Proof.
  split; [intros rc st found; apply upsertRepo_found|].
  split; [intros rc; apply upsertRepo_repos_kept|].
  split; [intros issue repoRecord rc; apply handleIssue_repos_kept|].
  split; [intros rc; apply processRepo_repos_kept|].
  split; [apply poll_repos_kept|intros n; apply loop_repos_kept].
Qed.

Lemma upsertRepo_keeps_rows_witness :
  RepoWatchConfig.label sample_rc <> Repo.watchLabel sample_repo
  /\ upsertRepo (quiet_world exit0) sample_rc state_after_failure
     = (Ok sample_repo, state_after_failure).
Proof.
  split; [discriminate|].
  apply (proj1 (upsertRepo_keeps_rows (quiet_world exit0) sample_config)).
  reflexivity.
Defined.

(** ** [handleIssue], step by step *)

Lemma hd_firstn_filter {A} (p : A -> bool) (l : list A) :
  hd_error (firstn 1 (filter p l)) = find p l.
Proof.
  induction l as [|x l IH]; cbn; [reflexivity|].
  destruct (p x); [reflexivity|exact IH].
Qed.

Lemma existingTask_of_run issue st :
  existingTask_of issue st
  = (Ok (find (issue_is (GitHubIssue.number issue)) (Store.tasks (State.db st))), st).
Proof.
  unfold existingTask_of, select_tasks_by_issue, bind, get_db, ret.
  now rewrite hd_firstn_filter.
Qed.

Lemma notifyWorking_run W taskId issue rc st :
  notifyWorking W taskId issue rc st = (Ok tt, notified rc issue taskId st).
Proof.
  unfold notifyWorking, addIssueLabel, addIssueComment, try_catch, bind,
    request, ret, notified, working_label, working_comment.
  destruct (World.octokit_unit W (State.tick st)) as [[]|e1];
    cbn [State.db State.tick State.trace];
    destruct (World.octokit_unit W (S (State.tick st))) as [[]|e2];
    cbn [State.db State.tick State.trace];
    rewrite <- app_assoc; reflexivity.
Qed.

Lemma claimTask_failed W t issue repoRecord st :
  Task.status t = failed ->
  claimTask W (Some t) issue repoRecord st
  = (Ok (Task.id t),
     State.mk (tasks_updated (set_retry (Repo.id repoRecord)) (Task.id t)
                 (World.current_timestamp W (State.tick st)) (State.db st))
       (State.tick st)
       (State.trace st
        ++ [EvLog (log_retrying (Task.id t) (GitHubIssue.number issue))])).
Proof. intros E. unfold claimTask. rewrite E. reflexivity. Qed.

Lemma claimTask_insert W found issue repoRecord st :
  (forall t, found = Some t -> Task.status t <> failed) ->
  claimTask W found issue repoRecord st
  = (Ok (next_task_id (State.db st)),
     State.mk (with_task (new_task issue repoRecord
                            (World.current_timestamp W (State.tick st))
                            (State.db st)) (State.db st))
       (State.tick st)
       (State.trace st
        ++ [EvLog (log_created (next_task_id (State.db st))
                     (GitHubIssue.number issue) (GitHubIssue.title issue))])).
Proof.
  intros Hnf. unfold claimTask.
  destruct found as [t|]; [|reflexivity].
  specialize (Hnf t eq_refl).
  destruct (Task.status t); try reflexivity. contradiction.
Qed.

Lemma handleIssue_skipped W cfg issue repoRecord rc st t :
  find (issue_is (GitHubIssue.number issue)) (Store.tasks (State.db st)) = Some t ->
  Task.status t = in_progress \/ Task.status t = completed ->
  handleIssue W cfg issue repoRecord rc st
  = (Ok tt,
     State.mk (State.db st) (State.tick st)
       (State.trace st
        ++ [EvLog (log_skipping (GitHubIssue.number issue) (Task.id t)
                     (Task.status t))])).
Proof.
  intros Hfind Hs. unfold handleIssue, bind.
  rewrite existingTask_of_run, Hfind. unfold skips.
  destruct Hs as [E|E]; rewrite E; reflexivity.
Qed.

Lemma handleIssue_claimed W cfg issue repoRecord rc st :
  skips (find (issue_is (GitHubIssue.number issue)) (Store.tasks (State.db st)))
  = false ->
  exists taskId st1,
    claimTask W (find (issue_is (GitHubIssue.number issue))
                   (Store.tasks (State.db st))) issue repoRecord st
    = (Ok taskId, st1)
    /\ handleIssue W cfg issue repoRecord rc st
       = runAgentForTask W cfg taskId issue rc (notified rc issue taskId st1).
Proof.
  intros Hs. unfold handleIssue, bind.
  rewrite existingTask_of_run, Hs.
  set (found := find _ _) in *.
  destruct found as [t|].
  - unfold skips in Hs. destruct (Task.status t) eqn:E; try discriminate.
    + rewrite (claimTask_insert W (Some t)) by (intros ? [= <-]; congruence).
      do 2 eexists. split; [reflexivity|]. now rewrite notifyWorking_run.
    + rewrite (claimTask_failed W t) by exact E.
      do 2 eexists. split; [reflexivity|]. now rewrite notifyWorking_run.
  - rewrite (claimTask_insert W None) by discriminate.
    do 2 eexists. split; [reflexivity|]. now rewrite notifyWorking_run.
Qed.

(** ** C3 *)

(** When no two rows hold the same issue number, the row that
    [handleIssue] finds for a number is the only row that holds it. *)
Lemma unique_issue_found (n : Z) (l : list Task.t) (t : Task.t) :
  NoDup (issue_numbers l) -> In t l -> Task.githubIssueId t = Some n ->
  find (issue_is n) l = Some t.
Proof.
  induction l as [|x l IH]; intros Hnd Hin Ht; [contradiction|].
  cbn [find issue_numbers flat_map] in *.
  destruct Hin as [->|Hin].
  - unfold issue_is. rewrite Ht, Z.eqb_refl. reflexivity.
  - unfold issue_is at 1.
    destruct (Task.githubIssueId x) as [m|] eqn:Ex.
    + cbn [app] in Hnd. inversion Hnd as [|? ? Hnotin Hnd']; subst.
      destruct (Z.eqb_spec m n) as [->|Hne]; [|now apply IH].
      exfalso. apply Hnotin. unfold issue_numbers.
      apply in_flat_map. exists t. split; [exact Hin|].
      rewrite Ht. now left.
    + now apply IH.
Qed.

(** C3.  The code does not always take a failed task again.  The task of
    an issue is looked up by the issue number alone and only the first row
    with the number is looked at, so a failed task that is not that row is
    missed.  With a [todo] row of the issue first, the failed task 2 of
    issue #5 is left [failed] by the next poll, which inserts a brand-new
    task 3 and binds the run of the attempt to it.  With two watched
    repositories that both have an issue #5, the failed task of the second
    repository's issue is handed to the first repository's issue by the
    next poll, and the second repository's issue is skipped: it gets no
    attempt. *)
Theorem poll_misses_failed_task :
  (let W := listing_world [sample_issue 5] exit128 in
   let st1 := snd (poll W sample_config todo_state) in
   let st2 := snd (poll W sample_config st1) in
   map task_summary (Store.tasks (State.db st1))
   = [(1, Some 1, Some 5, todo); (2, Some 1, Some 5, failed)]
   /\ map task_summary (Store.tasks (State.db st2))
      = [(1, Some 1, Some 5, todo); (2, Some 1, Some 5, failed);
         (3, Some 1, Some 5, failed)]
   /\ map run_summary (Store.agentRuns (State.db st2))
      = [(1, 2, run_failed, Some "git clone exited with code 128");
         (2, 3, run_failed, Some "git clone exited with code 128")])
  /\ (let st1 := snd (poll (listing_world [sample_issue 5] exit128)
                        two_repo_config two_repo_start) in
      let st2 := snd (poll (listing_world [sample_issue 5] exit0)
                        two_repo_config st1) in
      map task_summary (Store.tasks (State.db st1))
      = [(1, Some (Repo.id second_repo), Some 5, failed)]
      /\ map task_summary (Store.tasks (State.db st2))
         = [(1, Some (Repo.id sample_repo), Some 5, completed)]
      /\ decisions (State.trace st2)
         = [log_created 1 5 "Fix it"; log_retrying 1 5;
            log_retrying 1 5; log_skipping 5 1 completed]).
Proof.
  cbv zeta. repeat split; vm_compute; reflexivity.
Qed.

(** ** The task table under the orchestrator *)

Lemma issue_numbers_of_ids (l l' : list Task.t) :
  map Task.githubIssueId l' = map Task.githubIssueId l ->
  issue_numbers l' = issue_numbers l.
Proof.
  revert l'. induction l as [|t l IH]; intros [|t' l'] E; try discriminate.
  - reflexivity.
  - cbn in E. injection E as Et El. cbn. rewrite Et. f_equal. auto.
Qed.

Lemma find_none_not_listed (n : Z) (l : list Task.t) :
  find (issue_is n) l = None -> ~ In n (issue_numbers l).
Proof.
  induction l as [|t l IH]; cbn; [tauto|].
  unfold issue_is at 1. destruct (Task.githubIssueId t) as [m|].
  - destruct (Z.eqb_spec m n) as [->|Hne]; [discriminate|].
    intros Hf [E|Hin]; [congruence|]. now apply IH.
  - intros Hf Hin. now apply IH.
Qed.

Lemma NoDup_snoc {A} (l : list A) (x : A) :
  NoDup l -> ~ In x l -> NoDup (l ++ [x]).
Proof.
  intros Hl Hx. induction Hl as [|y l Hy Hl IH]; cbn.
  - constructor; [tauto|constructor].
  - constructor.
    + rewrite in_app_iff. cbn. intros [H|[H|[]]]; [contradiction|].
      apply Hx. now left.
    + apply IH. intros H. apply Hx. now right.
Qed.

Lemma keeps_dedup_refl d : keeps_dedup d d.
Proof. unfold keeps_dedup. tauto. Qed.

Lemma keeps_dedup_trans a b c :
  keeps_dedup a b -> keeps_dedup b c -> keeps_dedup a c.
Proof. unfold keeps_dedup. tauto. Qed.

Lemma keeps_dedup_same_tasks d d' :
  Store.tasks d' = Store.tasks d -> keeps_dedup d d'.
Proof. unfold keeps_dedup, no_todo, unique_issues. intros ->. tauto. Qed.

Lemma keeps_dedup_updated set taskId now d :
  (forall u, Task.githubIssueId (set u) = Task.githubIssueId u) ->
  (forall u, Task.status (set u) <> todo) ->
  keeps_dedup d (tasks_updated set taskId now d).
Proof.
  intros Hissue Hstatus [Hnt Hu]. split.
  - now apply tasks_updated_no_todo.
  - unfold unique_issues in *. cbn [tasks_updated Store.tasks].
    rewrite (issue_numbers_of_ids (Store.tasks d)); [exact Hu|].
    now apply map_touch_task_issues.
Qed.

Lemma keeps_dedup_closed cfg taskId d d' :
  closed_after cfg taskId d d' -> keeps_dedup d d'.
Proof.
  intros Hc. apply closed_after_facts in Hc.
  destruct Hc as (_ & _ & Hissues & Hnt & _). intros [H1 H2].
  split; [auto|]. unfold unique_issues in *.
  now rewrite (issue_numbers_of_ids (Store.tasks d)).
Qed.

Lemma keeps_dedup_insert issue repoRecord ts d :
  find (issue_is (GitHubIssue.number issue)) (Store.tasks d) = None ->
  keeps_dedup d (with_task (new_task issue repoRecord ts d) d).
Proof.
  intros Hfind [Hnt Hu]. unfold no_todo, unique_issues in *.
  cbn [with_task Store.tasks]. split.
  - apply Forall_app. split; [exact Hnt|]. constructor; [discriminate|constructor].
  - unfold issue_numbers. rewrite flat_map_app. cbn.
    apply NoDup_snoc; [exact Hu|]. now apply find_none_not_listed.
Qed.

Lemma handleIssue_keeps_dedup W cfg issue repoRecord rc :
  preserves (on_db keeps_dedup) (handleIssue W cfg issue repoRecord rc).
Proof.
  intros st. unfold on_db.
  destruct (skips (find (issue_is (GitHubIssue.number issue))
                     (Store.tasks (State.db st)))) eqn:Hs.
  - destruct (find _ _) as [t|] eqn:Hfind; [|discriminate].
    rewrite (handleIssue_skipped W cfg issue repoRecord rc st t Hfind).
    + apply keeps_dedup_refl.
    + unfold skips in Hs. destruct (Task.status t); auto; discriminate.
  - destruct (handleIssue_claimed W cfg issue repoRecord rc st Hs)
      as (taskId & st1 & Hclaim & ->).
    destruct (runAgentForTask_outcome W cfg taskId issue rc
                (notified rc issue taskId st1)) as (st' & -> & Hclosed).
    cbn [snd]. apply keeps_dedup_closed in Hclosed. cbn [notified State.db] in Hclosed.
    eapply keeps_dedup_trans; [|exact Hclosed].
    destruct (find _ _) as [t|] eqn:Hfind.
    + unfold skips in Hs. destruct (Task.status t) eqn:E; try discriminate.
      * intros [Hnt _]. exfalso. unfold no_todo in Hnt.
        apply find_some in Hfind. destruct Hfind as [Hin _].
        rewrite Forall_forall in Hnt. now apply (Hnt t Hin).
      * rewrite (claimTask_failed W t) in Hclaim by exact E.
        injection Hclaim as _ <-. cbn [State.db].
        apply keeps_dedup_updated; [reflexivity|discriminate].
    + rewrite (claimTask_insert W None) in Hclaim by discriminate.
      injection Hclaim as _ <-. cbn [State.db].
      now apply keeps_dedup_insert.
Qed.

Lemma loop_keeps_dedup W cfg n : preserves (on_db keeps_dedup) (loop W cfg n).
Proof.
  apply loop_on_db;
    first
      [ exact keeps_dedup_refl
      | exact keeps_dedup_trans
      | solve [intros; apply keeps_dedup_same_tasks; reflexivity]
      | solve [intros; apply keeps_dedup_updated; [reflexivity|discriminate]]
      | intros; apply handleIssue_keeps_dedup ].
Qed.

(** ** C1 *)

(** C1.  The code does not look the task up by the repository and the
    issue.  The lookup is by the issue number alone: for issue #5 of the
    second repository, which has no task, [handleIssue] finds the completed
    task of issue #5 of the first repository and leaves the issue alone, so
    that issue is never dispatched.  And a second row is inserted for a
    repository and issue that have a completed task: when a task of the
    issue waits in [todo], the first turn inserts a second row for the same
    repository and issue and completes it, and the next turn inserts a
    third. *)
Lemma handleIssue_lookup_ignores_repo :
  let W := quiet_world exit0 in
  (findTaskByIssue_spec (Repo.id second_repo) 5 (State.db two_repo_state) = None
   /\ fst (existingTask_of (sample_issue 5) two_repo_state)
      = Ok (Some completed_task_5)
   /\ Task.repoId completed_task_5 = Some (Repo.id sample_repo)
   /\ State.db (snd (handleIssue W sample_config (sample_issue 5) second_repo
                       second_rc two_repo_state))
      = State.db two_repo_state)
  /\ (let st1 := snd (handleIssue W sample_config (sample_issue 5) sample_repo
                        sample_rc todo_state) in
      let st2 := snd (handleIssue W sample_config (sample_issue 5) sample_repo
                        sample_rc st1) in
      map task_summary (Store.tasks (State.db st1))
      = [(1, Some 1, Some 5, todo); (2, Some 1, Some 5, completed)]
      /\ map task_summary (Store.tasks (State.db st2))
         = [(1, Some 1, Some 5, todo); (2, Some 1, Some 5, completed);
            (3, Some 1, Some 5, completed)]).
Proof.
  cbv zeta. repeat split; vm_compute; reflexivity.
Qed.

(** ** Traces *)

(** Breaks a goal about the trace of the pipeline down to its events and
    closes each with [side]. *)
Ltac trace_frame side :=
  unfold runAgentForTask, createAgentRun, pipeline, submitPullRequest,
    recordFailure, insert_agentRun, insert_task, insert_repo, update_task,
    update_agentRun;
  unfold_io; frame;
  first [ apply put_db_trace_adds
        | apply request_trace_adds; side
        | apply emit_trace_adds; side ].

Lemma runAgentForTask_quiet W cfg taskId issue rc :
  preserves (trace_adds quiet) (runAgentForTask W cfg taskId issue rc).
Proof. trace_frame ltac:(exact I). Qed.

Lemma quiet_listings (delta : list Event) :
  Forall quiet delta -> listings delta = [] /\ handled delta = [].
Proof.
  induction 1 as [|e delta He _ [IH1 IH2]]; [auto|].
  unfold listings, handled in *. cbn [flat_map]. rewrite IH1, IH2.
  destruct e as [[]|[]]; cbn in *; auto; contradiction.
Qed.

Lemma listings_app (a b : list Event) :
  listings (a ++ b) = (listings a ++ listings b)%list.
Proof. apply flat_map_app. Qed.

Lemma handled_app (a b : list Event) :
  handled (a ++ b) = (handled a ++ handled b)%list.
Proof. apply flat_map_app. Qed.

(** ** C5 *)

Lemma claimTask_decision W found issue repoRecord st taskId st1 :
  skips found = false ->
  claimTask W found issue repoRecord st = (Ok taskId, st1) ->
  exists l,
    State.trace st1 = (State.trace st ++ [EvLog l])%list
    /\ handled [EvLog l] = [GitHubIssue.number issue]
    /\ listings [EvLog l] = [].
Proof.
  intros Hs Hclaim.
  destruct found as [t|].
  - unfold skips in Hs. destruct (Task.status t) eqn:E; try discriminate.
    + rewrite (claimTask_insert W (Some t)) in Hclaim
        by (intros ? [= <-]; congruence).
      injection Hclaim as _ <-. eexists. split; [reflexivity|]. split; reflexivity.
    + rewrite (claimTask_failed W t) in Hclaim by exact E.
      injection Hclaim as _ <-. eexists. split; [reflexivity|]. split; reflexivity.
  - rewrite (claimTask_insert W None) in Hclaim by discriminate.
    injection Hclaim as _ <-. eexists. split; [reflexivity|]. split; reflexivity.
Qed.

(** [handleIssue] always returns, with one decision on its issue and no
    listing. *)
Lemma handleIssue_handled W cfg issue repoRecord rc st :
  exists st' delta,
    handleIssue W cfg issue repoRecord rc st = (Ok tt, st')
    /\ State.trace st' = (State.trace st ++ delta)%list
    /\ handled delta = [GitHubIssue.number issue]
    /\ listings delta = [].
Proof.
  destruct (skips (find (issue_is (GitHubIssue.number issue))
                     (Store.tasks (State.db st)))) eqn:Hs.
  - destruct (find _ _) as [t|] eqn:Hfind; [|discriminate].
    assert (Hst : Task.status t = in_progress \/ Task.status t = completed).
    { unfold skips in Hs. destruct (Task.status t); auto; discriminate. }
    rewrite (handleIssue_skipped W cfg issue repoRecord rc st t Hfind Hst).
    do 2 eexists. split; [reflexivity|]. split; [reflexivity|].
    split; reflexivity.
  - destruct (handleIssue_claimed W cfg issue repoRecord rc st Hs)
      as (taskId & st1 & Hclaim & ->).
    destruct (claimTask_decision W _ issue repoRecord st taskId st1 Hs Hclaim)
      as (l & Htr1 & Hh & Hl).
    destruct (runAgentForTask_outcome W cfg taskId issue rc
                (notified rc issue taskId st1)) as (st' & Hrun & _).
    pose proof (runAgentForTask_quiet W cfg taskId issue rc
                  (notified rc issue taskId st1)) as (delta & Htr & Hq).
    rewrite Hrun in Htr. cbn [snd notified State.trace] in Htr.
    apply quiet_listings in Hq. destruct Hq as [Hql Hqh].
    exists st', ([EvLog l] ++ [working_label rc issue; working_comment rc issue taskId]
                 ++ delta)%list.
    split; [exact Hrun|]. split.
    + rewrite Htr, Htr1. now rewrite <- !app_assoc.
    + rewrite !handled_app, !listings_app, Hh, Hl, Hql, Hqh. split; reflexivity.
Qed.

Lemma for_of_handleIssue_handled W cfg repoRecord rc issues st :
  exists st' delta,
    for_of issues (fun issue => handleIssue W cfg issue repoRecord rc) st
    = (Ok tt, st')
    /\ State.trace st' = (State.trace st ++ delta)%list
    /\ handled delta = map GitHubIssue.number issues
    /\ listings delta = [].
Proof.
  revert st. induction issues as [|issue issues IH]; intros st.
  - exists st, []. cbn. rewrite app_nil_r. auto.
  - cbn [for_of]. unfold bind.
    destruct (handleIssue_handled W cfg issue repoRecord rc st)
      as (st1 & d1 & -> & Htr1 & Hh1 & Hl1).
    destruct (IH st1) as (st2 & d2 & -> & Htr2 & Hh2 & Hl2).
    exists st2, (d1 ++ d2)%list. split; [reflexivity|]. split.
    + now rewrite Htr2, Htr1, app_assoc.
    + rewrite handled_app, listings_app, Hh1, Hh2, Hl1, Hl2. split; reflexivity.
Qed.

Lemma console_run (l : Log) (st : State.t) :
  console l st
  = (Ok tt,
     State.mk (State.db st) (State.tick st) (State.trace st ++ [EvLog l])).
Proof. reflexivity. Qed.

Lemma upsertRepo_silent W rc : silent (upsertRepo W rc).
Proof.
  intros st. unfold upsertRepo, select_repos_by_owner, insert_repo, requireFirst,
    bind, get_db, put_db, CURRENT_TIMESTAMP, ret.
  cbn [State.db State.tick State.trace].
  destruct (find _ _); do 2 eexists; (split; [reflexivity|split; reflexivity]).
Qed.

(** [processRepo], once the listing has come back. *)
Lemma processRepo_listed W cfg rc st issues :
  World.listForRepo W (State.tick st) = Ok issues ->
  exists st' delta,
    processRepo W cfg rc st = (Ok tt, st')
    /\ State.trace st' = (State.trace st ++ delta)%list
    /\ handled delta = map GitHubIssue.number issues
    /\ listings delta = [listing_of rc].
Proof.
  intros Hreply. unfold processRepo, bind.
  destruct (upsertRepo_silent W rc st) as (repoRecord & st1 & -> & Htr1 & Htk1).
  unfold listIssues, request. rewrite Htk1, Hreply.
  unfold console, emit. cbn [State.db State.tick State.trace].
  match goal with
  | |- context [for_of issues ?f ?s] =>
      destruct (for_of_handleIssue_handled W cfg repoRecord rc issues s)
        as (st' & delta & -> & Htr & Hh & Hl)
  end.
  cbn [State.trace] in Htr.
  exists st', ([EvCall (listing_of rc);
                EvLog (log_issue_count (RepoWatchConfig.owner rc)
                         (RepoWatchConfig.repo rc) (List.length issues)
                         (RepoWatchConfig.label rc))] ++ delta)%list.
  split; [reflexivity|]. split.
  - rewrite Htr, Htr1. now rewrite <- !app_assoc.
  - rewrite handled_app, listings_app, Hh, Hl. split; reflexivity.
Qed.

(** [processRepo] asks for its listing, whatever comes of it. *)
Lemma processRepo_lists W cfg rc st :
  exists delta,
    State.trace (snd (processRepo W cfg rc st)) = (State.trace st ++ delta)%list
    /\ listings delta = [listing_of rc].
Proof.
  destruct (World.listForRepo W (State.tick st)) as [issues|e] eqn:Hreply.
  - destruct (processRepo_listed W cfg rc st issues Hreply)
      as (st' & delta & -> & Htr & _ & Hl).
    exists delta. auto.
  - unfold processRepo, bind.
    destruct (upsertRepo_silent W rc st) as (repoRecord & st1 & -> & Htr1 & Htk1).
    unfold listIssues, request. rewrite Htk1, Hreply. cbn [snd State.trace].
    exists [EvCall (listing_of rc)]. rewrite Htr1. auto.
Qed.

Lemma poll_repos_listed W cfg repos st :
  exists st' delta,
    for_of repos (fun repoConfig =>
      try_catch (processRepo W cfg repoConfig)
        (fun err =>
           console (log_repo_error (RepoWatchConfig.owner repoConfig)
                      (RepoWatchConfig.repo repoConfig) err))) st
    = (Ok tt, st')
    /\ State.trace st' = (State.trace st ++ delta)%list
    /\ listings delta = map listing_of repos.
Proof.
  revert st. induction repos as [|rc repos IH]; intros st.
  - exists st, []. cbn. rewrite app_nil_r. auto.
  - cbn [for_of]. unfold bind at 1. unfold try_catch at 1.
    destruct (processRepo_lists W cfg rc st) as (d1 & Htr1 & Hl1).
    destruct (processRepo W cfg rc st) as [[[]|e] st1]; cbn [snd] in Htr1.
    + destruct (IH st1) as (st2 & d2 & -> & Htr2 & Hl2).
      exists st2, (d1 ++ d2)%list. split; [reflexivity|]. split.
      * now rewrite Htr2, Htr1, app_assoc.
      * rewrite listings_app, Hl1, Hl2. reflexivity.
    + cbv beta iota. rewrite console_run.
      match goal with
      | |- context [for_of repos ?f ?s] =>
          destruct (IH s) as (st2 & d2 & -> & Htr2 & Hl2)
      end.
      cbn [State.trace] in Htr2.
      exists st2, (d1 ++ [EvLog (log_repo_error (RepoWatchConfig.owner rc)
                                   (RepoWatchConfig.repo rc) e)] ++ d2)%list.
      split; [reflexivity|]. split.
      * rewrite Htr2, Htr1. now rewrite <- !app_assoc.
      * rewrite !listings_app, Hl1, Hl2. reflexivity.
Qed.

(** C5.  A turn of [poll] never throws and asks for the listing of every
    configured repository, in the order of the configuration, whatever
    failed for the repositories before.  And once the listing of a
    repository has come back, [processRepo] returns and [handleIssue] has
    taken its decision on every listed issue, in order, whatever the
    pipelines of the issues before did. *)
Theorem poll_isolation (W : World.t) (cfg : EngineConfig.t) :
  (forall st,
     exists st' delta,
       poll W cfg st = (Ok tt, st')
       /\ State.trace st' = (State.trace st ++ delta)%list
       /\ listings delta = map listing_of (EngineConfig.repos cfg))
  /\ (forall rc st issues,
        World.listForRepo W (State.tick st) = Ok issues ->
        exists st' delta,
          processRepo W cfg rc st = (Ok tt, st')
          /\ State.trace st' = (State.trace st ++ delta)%list
          /\ handled delta = map GitHubIssue.number issues).
Proof.
  split.
  - intros st. unfold poll, bind, console, emit.
    cbn [State.db State.tick State.trace].
    match goal with
    | |- context [for_of _ _ ?s] =>
        destruct (poll_repos_listed W cfg (EngineConfig.repos cfg) s)
          as (st' & delta & Hrun & Htr & Hl)
    end.
    cbn [State.trace] in Htr.
    exists st', ([EvLog (log_polling (List.length (EngineConfig.repos cfg)))]
                 ++ delta)%list.
    split; [exact Hrun|]. split.
    + rewrite Htr. now rewrite <- app_assoc.
    + rewrite listings_app, Hl. reflexivity.
  - intros rc st issues Hreply.
    destruct (processRepo_listed W cfg rc st issues Hreply)
      as (st' & delta & Hrun & Htr & Hh & _).
    exists st', delta. auto.
Qed.

Lemma poll_isolation_witness :
  exists st' delta,
    processRepo flaky_world sample_config sample_rc (State.mk empty_store 1 [])
    = (Ok tt, st')
    /\ State.trace st' = delta
    /\ handled delta = [1; 2].
Proof.
  exact (proj2 (poll_isolation flaky_world sample_config) sample_rc
           (State.mk empty_store 1 []) [sample_issue 1; sample_issue 2] eq_refl).
Defined.

(** ** C6 *)

Lemma starts_with_request W {A} (c : Call) (reply : World.t -> nat -> Result A) :
  starts_with (EvCall c) (request W c reply).
Proof. intros st. exists []. reflexivity. Qed.

Lemma starts_with_bind (e : Event) {A B} (m : M A) (k : A -> M B) :
  starts_with e m ->
  (forall a, preserves (trace_adds any_event) (k a)) ->
  starts_with e (bind m k).
Proof.
  intros Hm Hk st. unfold bind.
  destruct (Hm st) as (rest & Hr).
  destruct (m st) as [[a|err] st1]; cbn [snd] in *.
  - destruct (Hk a st1) as (delta & Hd & _).
    exists (rest ++ delta)%list. rewrite Hd, Hr, <- app_assoc. reflexivity.
  - exists rest. exact Hr.
Qed.

Lemma starts_with_try_catch (e : Event) {A} (m : M A) (h : string -> M A) :
  starts_with e m ->
  (forall err, preserves (trace_adds any_event) (h err)) ->
  starts_with e (try_catch m h).
Proof.
  intros Hm Hh st. unfold try_catch.
  destruct (Hm st) as (rest & Hr).
  destruct (m st) as [[a|err] st1]; cbn [snd] in *.
  - exists rest. exact Hr.
  - destruct (Hh err st1) as (delta & Hd & _).
    exists (rest ++ delta)%list. rewrite Hd, Hr, <- app_assoc. reflexivity.
Qed.

Lemma starts_with_after_silent (e : Event) {A B} (m : M A) (k : A -> M B) :
  silent m -> (forall a, starts_with e (k a)) -> starts_with e (bind m k).
Proof.
  intros Hm Hk st. unfold bind.
  destruct (Hm st) as (a & st1 & -> & Htr & _).
  destruct (Hk a st1) as (rest & Hr). exists rest. now rewrite Hr, Htr.
Qed.

Lemma createAgentRun_silent W cfg taskId : silent (createAgentRun W cfg taskId).
Proof.
  intros st. unfold createAgentRun, insert_agentRun, requireFirst, bind,
    CURRENT_TIMESTAMP, get_db, put_db, ret.
  do 2 eexists. split; [reflexivity|split; reflexivity].
Qed.

(** The pipeline opens with the creation of the work directory. *)
Lemma runAgentForTask_starts W cfg taskId issue rc :
  starts_with (EvCall (mkdirSync (EngineConfig.workDir cfg)))
    (runAgentForTask W cfg taskId issue rc).
Proof.
  unfold runAgentForTask.
  apply starts_with_after_silent; [apply createAgentRun_silent|intros runId].
  apply starts_with_try_catch.
  - unfold pipeline. apply starts_with_bind.
    + unfold prepareWorkDir. apply starts_with_bind.
      * apply starts_with_request.
      * intros _. trace_frame ltac:(exact I).
    + intros [branch dir]. trace_frame ltac:(exact I).
  - intros err. trace_frame ltac:(exact I).
Qed.

Lemma claimTask_keeps_runs W found issue repoRecord st taskId st1 :
  claimTask W found issue repoRecord st = (Ok taskId, st1) ->
  Store.agentRuns (State.db st1) = Store.agentRuns (State.db st)
  /\ next_agentRun_id (State.db st1) = next_agentRun_id (State.db st).
Proof.
  intros Hclaim.
  assert (Hcases : (exists t, found = Some t /\ Task.status t = failed)
                   \/ (forall t, found = Some t -> Task.status t <> failed)).
  { destruct found as [t|]; [|right; discriminate].
    destruct (Task.status t) eqn:E;
      try (right; intros ? [= <-]; congruence).
    left. eauto. }
  destruct Hcases as [(t & -> & E)|Hnf].
  - rewrite (claimTask_failed W t) in Hclaim by exact E.
    injection Hclaim as _ <-. split; reflexivity.
  - rewrite (claimTask_insert W found) in Hclaim by exact Hnf.
    injection Hclaim as _ <-. split; reflexivity.
Qed.

(** C6.  The two notifications never throw: whatever the replies to the
    label and to the comment, [notifyWorking] returns, having made both
    calls and written nothing.  And whenever [handleIssue] does not leave
    the issue alone, it returns, and after its decision it has made the two
    calls and then started the pipeline of the task: the work directory was
    asked for and a run row with a fresh id was inserted for the task. *)
Theorem handleIssue_notifies_then_runs (W : World.t) (cfg : EngineConfig.t)
    (issue : GitHubIssue.t) (repoRecord : Repo.t) (rc : RepoWatchConfig.t)
    (st : State.t) :
  (forall taskId st1,
     notifyWorking W taskId issue rc st1 = (Ok tt, notified rc issue taskId st1))
  /\ (skips (find (issue_is (GitHubIssue.number issue))
               (Store.tasks (State.db st))) = false ->
      exists taskId l st' rest,
        handleIssue W cfg issue repoRecord rc st = (Ok tt, st')
        /\ handled [EvLog l] = [GitHubIssue.number issue]
        /\ State.trace st'
           = (State.trace st
              ++ [EvLog l; working_label rc issue;
                  working_comment rc issue taskId;
                  EvCall (mkdirSync (EngineConfig.workDir cfg))]
              ++ rest)%list
        /\ ~ In (next_agentRun_id (State.db st))
               (map AgentRun.id (Store.agentRuns (State.db st)))
        /\ exists r,
             In r (Store.agentRuns (State.db st'))
             /\ AgentRun.id r = next_agentRun_id (State.db st)
             /\ AgentRun.taskId r = taskId).
Proof.
  split; [intros taskId st1; apply notifyWorking_run|].
  intros Hs.
  destruct (handleIssue_claimed W cfg issue repoRecord rc st Hs)
    as (taskId & st1 & Hclaim & Hrun).
  destruct (claimTask_decision W _ issue repoRecord st taskId st1 Hs Hclaim)
    as (l & Htr1 & Hh & _).
  destruct (claimTask_keeps_runs W _ issue repoRecord st taskId st1 Hclaim)
    as (Hruns1 & Hnext1).
  destruct (runAgentForTask_outcome W cfg taskId issue rc
              (notified rc issue taskId st1)) as (st' & Hout & Hclosed).
  destruct (runAgentForTask_starts W cfg taskId issue rc
              (notified rc issue taskId st1)) as (rest & Hrest).
  rewrite Hout in Hrest. cbn [snd notified State.trace] in Hrest.
  apply closed_after_facts in Hclosed. cbn [notified State.db] in Hclosed.
  destruct Hclosed as (_ & _ & _ & _ & Hids & Hst).
  rewrite Hnext1, Hruns1 in Hids. rewrite Hnext1 in Hst.
  exists taskId, l, st', rest.
  split; [now rewrite Hrun|]. split; [exact Hh|]. split.
  - rewrite Hrest, Htr1. now rewrite <- !app_assoc.
  - split; [apply next_id_fresh|].
    assert (Hin : In (next_agentRun_id (State.db st))
                    (map AgentRun.id (Store.agentRuns (State.db st')))).
    { rewrite Hids. apply in_or_app. right. now left. }
    apply in_map_iff in Hin. destruct Hin as (r & Hid & Hin).
    exists r. split; [exact Hin|]. split; [exact Hid|].
    destruct Hst as [[_ Hr]|[_ Hr]]; now apply (Hr r Hin Hid).
Qed.

Lemma handleIssue_notifies_then_runs_witness :
  exists taskId l st' rest,
    handleIssue rejecting_world sample_config (sample_issue 42) sample_repo
      sample_rc initial_state = (Ok tt, st')
    /\ handled [EvLog l] = [42]
    /\ State.trace st'
       = ([EvLog l; working_label sample_rc (sample_issue 42);
           working_comment sample_rc (sample_issue 42) taskId;
           EvCall (mkdirSync "/tmp/loom-agent")] ++ rest)%list
    /\ ~ In 1 []
    /\ exists r,
         In r (Store.agentRuns (State.db st'))
         /\ AgentRun.id r = 1 /\ AgentRun.taskId r = taskId.
Proof.
  exact (proj2 (handleIssue_notifies_then_runs rejecting_world sample_config
                  (sample_issue 42) sample_repo sample_rc initial_state)
           eq_refl).
Defined.

(** ** C9 *)

Lemma check_spawn_ok (reply : SpawnSyncResult.t) (what : string) (st : State.t) :
  snd (check_spawn reply what st) = st
  /\ (fst (check_spawn reply what st) = Ok tt <->
      SpawnSyncResult.error reply = None /\ SpawnSyncResult.status reply = Some 0).
Proof.
  unfold check_spawn, throw, ret.
  destruct (SpawnSyncResult.error reply) as [message|]; cbn.
  - split; [reflexivity|]. split; [discriminate|]. intros [H _]; discriminate.
  - destruct (SpawnSyncResult.status reply) as [[|p|p]|]; cbn;
      (split; [reflexivity|]); split; auto; try discriminate;
      intros [_ H]; discriminate.
Qed.

Lemma checkoutBranch_run W dir branch st :
  let reply := World.spawn W (State.tick st) in
  let st' := State.mk (State.db st) (S (State.tick st))
               (State.trace st ++ [checkout_call branch dir]) in
  checkoutBranch W dir branch true st
  = (fst (check_spawn reply "git checkout" st'), st').
Proof.
  cbv zeta. unfold checkoutBranch, do_spawnSync, request, bind.
  cbn [State.db State.tick State.trace app].
  destruct (check_spawn_ok (World.spawn W (State.tick st)) "git checkout"
              (State.mk (State.db st) (S (State.tick st))
                 (State.trace st ++ [checkout_call branch dir]))) as [Hsnd _].
  unfold checkout_call in *. cbn [app] in *.
  destruct (check_spawn _ _ _) as [r s]. cbn [fst snd] in *. now subst s.
Qed.

(** The remote creation of the branch, under its [try]: it always returns. *)
Lemma try_createBranch_returns W owner repo branch fromBranch st :
  exists st1,
    try_catch (createBranch W owner repo branch fromBranch ;;; ret tt)
      (fun _ => ret tt) st = (Ok tt, st1).
Proof.
  unfold try_catch.
  destruct ((createBranch W owner repo branch fromBranch ;;; ret tt) st)
    as [[[]|e] st1]; eexists; reflexivity.
Qed.

Lemma prepareBranch_run W rc branch dir st :
  exists st1,
    let reply := World.spawn W (State.tick st1) in
    let st' := State.mk (State.db st1) (S (State.tick st1))
                 (State.trace st1 ++ [checkout_call branch dir]) in
    prepareBranch W rc branch dir st
    = (fst (check_spawn reply "git checkout" st'), st').
Proof.
  unfold prepareBranch. unfold bind at 1.
  destruct (try_createBranch_returns W (RepoWatchConfig.owner rc)
              (RepoWatchConfig.repo rc) branch (RepoWatchConfig.baseBranch rc) st)
    as (st1 & ->).
  exists st1. apply checkoutBranch_run.
Qed.

Lemma prepareBranch_outcome W rc branch dir st :
  let r := prepareBranch W rc branch dir st in
  let reply := World.spawn W (pred (State.tick (snd r))) in
  (exists tr, State.trace (snd r) = (tr ++ [checkout_call branch dir])%list)
  /\ (fst r = Ok tt <->
      SpawnSyncResult.error reply = None /\ SpawnSyncResult.status reply = Some 0).
Proof.
  destruct (prepareBranch_run W rc branch dir st) as (st1 & E).
  cbv zeta in *. rewrite E. cbn [fst snd State.tick State.trace pred].
  split; [eexists; reflexivity|]. apply check_spawn_ok.
Qed.

(** Closes the obligation that an event of the pipeline names the branch. *)
Ltac names_branch_side :=
  cbn -[buildArgs append string_of_Z join repoDir_of branch_of];
  first [ reflexivity | exact I | (eexists; split; reflexivity) ].

Lemma runAgentForTask_names_branch W cfg taskId issue rc :
  preserves (trace_adds (names_branch (branch_of issue)))
    (runAgentForTask W cfg taskId issue rc).
Proof.
  unfold runAgentForTask. apply preserves_bind; [typeclasses eauto| |intros runId].
  { trace_frame names_branch_side. }
  apply preserves_try_catch; [typeclasses eauto| |intros err].
  2:{ trace_frame names_branch_side. }
  unfold pipeline.
  apply (preserves_bind_returns _ _ _ (fun p => fst p = branch_of issue)).
  - intros st [b d] st' E. now apply prepareWorkDir_returns in E.
  - trace_frame names_branch_side.
  - intros [b d] Hb. cbn [fst] in Hb. subst b.
    trace_frame names_branch_side.
Qed.

(** C9.  The branch of a run is [loom/issue-<n>], made from the issue
    number: [prepareWorkDir] returns no other, and every call of the
    pipeline that names a branch - the ref created on GitHub, the checkout,
    the prompt of the agent, the push, the head of the pull request - names
    that one.  [prepareBranch] ends with the local [git checkout -b] for
    every outcome of the remote creation, and it succeeds exactly when that
    checkout does: a failed remote creation never makes it throw. *)
Theorem prepareBranch_tolerates_remote_failure (W : World.t)
    (cfg : EngineConfig.t) (issue : GitHubIssue.t) (rc : RepoWatchConfig.t) :
  (forall st b d st',
     prepareWorkDir W cfg rc issue st = (Ok (b, d), st') ->
     b = "loom/issue-" ++ string_of_Z (GitHubIssue.number issue))
  /\ (forall branch dir st,
        let r := prepareBranch W rc branch dir st in
        let reply := World.spawn W (pred (State.tick (snd r))) in
        (exists tr, State.trace (snd r) = (tr ++ [checkout_call branch dir])%list)
        /\ (fst r = Ok tt <->
            SpawnSyncResult.error reply = None
            /\ SpawnSyncResult.status reply = Some 0))
  /\ (forall taskId st,
        trace_adds (names_branch (branch_of issue)) st
          (snd (runAgentForTask W cfg taskId issue rc st))).
Proof.
  split.
  - intros st b d st' E. apply prepareWorkDir_returns in E. destruct E as [-> _].
    reflexivity.
  - split.
    + intros branch dir st. apply prepareBranch_outcome.
    + intros taskId. apply runAgentForTask_names_branch.
Qed.

Lemma prepareBranch_tolerates_remote_failure_witness :
  fst (createBranch rejecting_world "o" "r" "loom/issue-42" None initial_state)
  = Throw "HTTP 422"
  /\ fst (prepareBranch rejecting_world sample_rc "loom/issue-42"
            "/tmp/loom-agent/o-r-42" initial_state) = Ok tt.
Proof.
  split; [reflexivity|].
  destruct (prepareBranch_tolerates_remote_failure rejecting_world sample_config
              (sample_issue 42) sample_rc) as (_ & Hbranch & _).
  destruct (Hbranch "loom/issue-42" "/tmp/loom-agent/o-r-42" initial_state)
    as [_ Hiff].
  apply Hiff. split; reflexivity.
Defined.

(* ================================================================== *)
(** * Further properties *)

(** ** [parseRepoList] *)

Lemma occurs_trimStart (c : ascii) (s : string) :
  occurs c (trimStart s) = true -> occurs c s = true.
Proof.
  induction s as [|d r IH]; cbn; [auto|].
  destruct (is_space d); [|auto].
  intros H. rewrite (IH H). apply orb_true_r.
Qed.

Lemma occurs_trimEnd (c : ascii) (s : string) :
  occurs c (trimEnd s) = true -> occurs c s = true.
Proof.
  induction s as [|d r IH]; cbn; [auto|].
  destruct (trimEnd r) as [|e t].
  - destruct (is_space d); cbn; [discriminate|].
    rewrite orb_false_r. intros ->. reflexivity.
  - cbn [occurs] in *. intros H. apply orb_true_iff in H.
    destruct H as [->|H]; [reflexivity|]. rewrite (IH H). apply orb_true_r.
Qed.

Lemma occurs_trim (c : ascii) (s : string) :
  occurs c (trim s) = true -> occurs c s = true.
Proof. intros H. now apply occurs_trimStart, occurs_trimEnd. Qed.

(** The pieces of a split hold no separator and nothing that the whole
    does not hold. *)
Lemma split_on_pieces (c : ascii) (s seg : string) :
  In seg (split_on c s) ->
  occurs c seg = false
  /\ forall d, occurs d seg = true -> occurs d s = true.
Proof.
  revert seg. induction s as [|x r IH]; intros seg Hin; cbn in Hin.
  - destruct Hin as [<-|[]]. cbn. auto.
  - destruct (Ascii.eqb_spec x c) as [->|Hne].
    + destruct Hin as [<-|Hin]; [cbn; split; [reflexivity|discriminate]|].
      destruct (IH seg Hin) as [H1 H2]. split; [exact H1|].
      intros d Hd. cbn. rewrite (H2 d Hd). apply orb_true_r.
    + pose proof (split_on_nonempty c r) as Hnn.
      destruct (split_on c r) as [|seg0 rest]; [contradiction|].
      destruct Hin as [<-|Hin].
      * destruct (IH seg0 (or_introl eq_refl)) as [H1 H2]. split.
        -- cbn. rewrite H1, orb_false_r.
           apply Ascii.eqb_neq. congruence.
        -- intros d Hd. cbn in *. apply orb_true_iff in Hd.
           destruct Hd as [->|Hd]; [reflexivity|].
           rewrite (H2 d Hd). apply orb_true_r.
      * destruct (IH seg (or_intror Hin)) as [H1 H2]. split; [exact H1|].
        intros d Hd. cbn. rewrite (H2 d Hd). apply orb_true_r.
Qed.

Lemma nullish_nth_in (l : list string) (n : nat) :
  truthy (nullish (nth_error l n) "") = true ->
  In (nullish (nth_error l n) "") l.
Proof.
  destruct (nth_error l n) as [x|] eqn:E; cbn; [|discriminate].
  intros _. eapply nth_error_In; eauto.
Qed.

Lemma occurs_false_of (c : ascii) (s t : string) :
  (forall d, occurs d s = true -> occurs d t = true) ->
  occurs c t = false -> occurs c s = false.
Proof.
  intros H Ht. destruct (occurs c s) eqn:E; [|reflexivity].
  rewrite (H c E) in Ht. discriminate.
Qed.

(** What one accepted entry gives. *)
Lemma parseRepoEntry_ok (entry : string) (rc : RepoWatchConfig.t) :
  parseRepoEntry entry = Ok rc ->
  occurs "," entry = false ->
  RepoWatchConfig.owner rc <> "" /\ RepoWatchConfig.repo rc <> ""
  /\ RepoWatchConfig.baseBranch rc = None
  /\ (forall c, In c ["/"; ":"; ","]%char ->
                occurs c (RepoWatchConfig.owner rc) = false
                /\ occurs c (RepoWatchConfig.repo rc) = false)
  /\ (forall c, In c [":"; ","]%char ->
                occurs c (RepoWatchConfig.label rc) = false).
Proof.
  unfold parseRepoEntry. intros Hok Hcomma.
  set (fields := split_on ":" (trim entry)) in *.
  set (repoPath := nullish (nth_error fields 0) "") in *.
  set (parts := split_on "/" repoPath) in *.
  set (owner := nullish (nth_error parts 0) "") in *.
  set (repo := nullish (nth_error parts 1) "") in *.
  remember (nth_error fields 1) as label eqn:El.
  destruct (truthy owner) eqn:To; [|discriminate].
  destruct (truthy repo) eqn:Tr; [|discriminate].
  cbn in Hok. injection Hok as <-. cbn [RepoWatchConfig.owner RepoWatchConfig.repo
    RepoWatchConfig.label RepoWatchConfig.baseBranch].
  assert (Htrim : occurs "," (trim entry) = false).
  { destruct (occurs "," (trim entry)) eqn:E; [|reflexivity].
    apply occurs_trim in E. congruence. }
  assert (Hfield : forall f, In f fields ->
                     occurs ":" f = false /\ occurs "," f = false).
  { intros f Hf. destruct (split_on_pieces ":" (trim entry) f Hf) as [H1 H2].
    split; [exact H1|]. now apply (occurs_false_of "," f (trim entry)). }
  assert (Hpath : occurs ":" repoPath = false /\ occurs "," repoPath = false).
  { unfold repoPath. destruct (nth_error fields 0) as [f|] eqn:E; cbn.
    - apply Hfield. eapply nth_error_In; eauto.
    - auto. }
  assert (Hpart : forall p, In p parts ->
                    forall c, In c ["/"; ":"; ","]%char -> occurs c p = false).
  { intros p Hp c Hc. destruct (split_on_pieces "/" repoPath p Hp) as [H1 H2].
    destruct Hc as [<-|[<-|[<-|[]]]]; [exact H1| |].
    - now apply (occurs_false_of ":" p repoPath).
    - now apply (occurs_false_of "," p repoPath). }
  split; [intros E; rewrite E in To; discriminate|].
  split; [intros E; rewrite E in Tr; discriminate|].
  split; [reflexivity|]. split.
  - intros c Hc. split; apply Hpart; auto; now apply nullish_nth_in.
  - intros c Hc. destruct label as [l|]; cbn.
    + destruct (Hfield l) as [H1 H2]; [eapply nth_error_In; eauto|].
      destruct Hc as [<-|[<-|[]]]; assumption.
    + destruct Hc as [<-|[<-|[]]]; reflexivity.
Qed.

Lemma map_throwing_ok {A B} (f : A -> Result B) (xs : list A) (ys : list B) :
  map_throwing f xs = Ok ys -> Forall2 (fun x y => f x = Ok y) xs ys.
Proof.
  revert ys. induction xs as [|x xs IH]; intros ys H; cbn in H.
  - injection H as <-. constructor.
  - destruct (f x) as [y|e] eqn:Ex; [|discriminate].
    destruct (map_throwing f xs) as [ys'|e]; [|discriminate].
    injection H as <-. constructor; auto.
Qed.

Lemma map_throwing_throws {A B} (f : A -> Result B) (xs : list A) (e : string) :
  map_throwing f xs = Throw e -> exists x, In x xs /\ f x = Throw e.
Proof.
  induction xs as [|x xs IH]; cbn; [discriminate|].
  destruct (f x) as [y|e'] eqn:Ex.
  - destruct (map_throwing f xs) as [ys|e']; [discriminate|].
    intros [= ->]. destruct (IH eq_refl) as (x' & Hin & Hx'). eauto.
  - intros [= ->]. eauto.
Qed.

Lemma map_throwing_stops {A B} (f : A -> Result B) (xs : list A) (x : A) (e : string) :
  In x xs -> f x = Throw e -> exists e', map_throwing f xs = Throw e'.
Proof.
  induction xs as [|y xs IH]; cbn; [tauto|].
  intros [->|Hin] Hx.
  - rewrite Hx. eauto.
  - destruct (f y); [|eauto].
    destruct (IH Hin Hx) as (e' & ->). eauto.
Qed.

Lemma parsed_well_named (raw : string) (cfgs : list RepoWatchConfig.t) :
  parseRepoList raw = Ok cfgs -> Forall well_named cfgs.
Proof.
  unfold parseRepoList. intros Hok. apply map_throwing_ok in Hok.
  assert (Hentries : Forall (fun e => occurs "," e = false) (split_on "," raw)).
  { apply Forall_forall. intros e He. now apply (split_on_pieces "," raw e). }
  induction Hok as [|e rc es rcs He _ IH]; constructor.
  - inversion Hentries; subst. unfold well_named.
    now apply (parseRepoEntry_ok e rc).
  - apply IH. now inversion Hentries.
Qed.

(** X1.  When [parseRepoList] returns, it returns one configuration for
    each comma-separated entry of the text, at least one, and each has an
    owner and a repository that are not empty and hold no [/], [:] or [,],
    a label that holds no [:] or [,], and no base branch. *)
Theorem parseRepoList_well_named (raw : string) (cfgs : list RepoWatchConfig.t) :
  parseRepoList raw = Ok cfgs ->
  List.length cfgs = List.length (split_on "," raw)
  /\ cfgs <> []
  /\ Forall well_named cfgs.
Proof.
  intros Hok. pose proof (parsed_well_named raw cfgs Hok) as Hall.
  unfold parseRepoList in Hok. apply map_throwing_ok in Hok.
  pose proof (split_on_nonempty "," raw) as Hnn.
  split; [symmetry; eapply Forall2_length; eauto|]. split; [|exact Hall].
  destruct Hok; [contradiction|discriminate].
Qed.

Lemma parseRepoList_well_named_witness :
  List.length [RepoWatchConfig.mk "o" "r" "loom" None;
               RepoWatchConfig.mk "a-b" "c" "bot" None] = 2%nat
  /\ [RepoWatchConfig.mk "o" "r" "loom" None;
      RepoWatchConfig.mk "a-b" "c" "bot" None] <> []
  /\ Forall well_named [RepoWatchConfig.mk "o" "r" "loom" None;
                        RepoWatchConfig.mk "a-b" "c" "bot" None].
Proof.
  exact (parseRepoList_well_named "o/r, a-b/c:bot" _ eq_refl).
Defined.

Lemma parseRepoEntry_message (entry msg : string) :
  parseRepoEntry entry = Throw msg -> msg = "Invalid repo entry: " ++ entry.
Proof.
  unfold parseRepoEntry.
  destruct (negb _ || negb _)%bool; [|discriminate]. now intros [= <-].
Qed.

Lemma parseRepoEntry_needs_slash (entry : string) :
  occurs "/" entry = false ->
  parseRepoEntry entry = Throw ("Invalid repo entry: " ++ entry).
Proof.
  intros Hs. unfold parseRepoEntry.
  set (fields := split_on ":" (trim entry)).
  assert (Hpath : occurs "/" (nullish (nth_error fields 0) "") = false).
  { destruct (nth_error fields 0) as [f|] eqn:E; cbn; [|reflexivity].
    apply nth_error_In in E.
    destruct (split_on_pieces ":" (trim entry) f E) as [_ H2].
    apply (occurs_false_of "/" f (trim entry)); [exact H2|].
    destruct (occurs "/" (trim entry)) eqn:Et; [|reflexivity].
    apply occurs_trim in Et. congruence. }
  rewrite (split_on_plain "/" _ Hpath). cbn [nth_error nullish truthy negb].
  now rewrite orb_true_r.
Qed.

(** X2.  When [parseRepoList] throws, the message is [Invalid repo entry: ]
    followed by one of the entries as it was written; and it throws
    whenever some entry holds no [/], whatever the other entries are:
    nothing is returned for the entries that are well formed. *)
Theorem parseRepoList_rejects (raw : string) :
  (forall msg,
     parseRepoList raw = Throw msg ->
     exists entry,
       In entry (split_on "," raw) /\ msg = "Invalid repo entry: " ++ entry)
  /\ (forall entry,
        In entry (split_on "," raw) -> occurs "/" entry = false ->
        exists msg, parseRepoList raw = Throw msg).
Proof.
  unfold parseRepoList. split.
  - intros msg H. apply map_throwing_throws in H.
    destruct H as (entry & Hin & He). exists entry. split; [exact Hin|].
    now apply parseRepoEntry_message.
  - intros entry Hin Hs.
    eapply map_throwing_stops; [exact Hin|].
    now apply parseRepoEntry_needs_slash.
Qed.

Lemma parseRepoList_rejects_witness :
  exists msg, parseRepoList "o/r,loom" = Throw msg.
Proof.
  apply (proj2 (parseRepoList_rejects "o/r,loom") "loom").
  - right. left. reflexivity.
  - reflexivity.
Defined.

Lemma all_chars_append (p : ascii -> bool) (a b : string) :
  all_chars p (a ++ b) = (all_chars p a && all_chars p b)%bool.
Proof.
  induction a as [|c a IH]; cbn; [reflexivity|]. now rewrite IH, andb_assoc.
Qed.

Lemma all_chars_occurs (p : ascii -> bool) (c : ascii) (s : string) :
  all_chars p s = true -> p c = false -> occurs c s = false.
Proof.
  intros Hs Hc. induction s as [|d r IH]; cbn in *; [reflexivity|].
  apply andb_true_iff in Hs. destruct Hs as [Hd Hr].
  rewrite (IH Hr), orb_false_r. apply Ascii.eqb_neq. intros ->. congruence.
Qed.

Lemma trim_unspaced (s : string) :
  all_chars (fun c => negb (is_space c)) s = true -> trim s = s.
Proof.
  intros H. unfold trim.
  assert (Hs : trimStart s = s).
  { destruct s as [|c r]; cbn in *; [reflexivity|].
    apply andb_true_iff in H. destruct H as [Hc _].
    apply negb_true_iff in Hc. now rewrite Hc. }
  rewrite Hs. induction s as [|c r IH]; cbn in *; [reflexivity|].
  apply andb_true_iff in H. destruct H as [Hc Hr].
  apply negb_true_iff in Hc.
  assert (Hr' : trimStart r = r).
  { destruct r as [|d t]; cbn in *; [reflexivity|].
    apply andb_true_iff in Hr. destruct Hr as [Hd _].
    apply negb_true_iff in Hd. now rewrite Hd. }
  rewrite (IH Hr Hr'). destruct r; [now rewrite Hc|reflexivity].
Qed.

Lemma all_chars_weaken (p q : ascii -> bool) (s : string) :
  (forall c, p c = true -> q c = true) ->
  all_chars p s = true -> all_chars q s = true.
Proof.
  intros Hpq. induction s as [|c r IH]; cbn; [auto|].
  intros H. apply andb_true_iff in H. destruct H as [Hc Hr].
  now rewrite (Hpq c Hc), (IH Hr).
Qed.

Lemma split_on_concat (c : ascii) (l : list string) :
  l <> [] -> (forall s, In s l -> occurs c s = false) ->
  split_on c (String.concat (String c "") l) = l.
Proof.
  induction l as [|x l IH]; [contradiction|]. intros _ Hl.
  destruct l as [|y l].
  - cbn. apply split_on_plain. apply Hl. now left.
  - assert (E : String.concat (String c "") (x :: y :: l)
                = x ++ String c (String.concat (String c "") (y :: l)))
      by reflexivity.
    rewrite E, split_on_app, split_on_plain by (apply Hl; now left).
    rewrite IH; [reflexivity|discriminate|].
    intros s Hs. apply Hl. now right.
Qed.

Lemma name_char_facts (c : ascii) :
  name_char c = true ->
  is_space c = false /\ c <> ","%char /\ c <> ":"%char /\ c <> "/"%char.
Proof.
  unfold name_char. intros H.
  repeat (apply andb_true_iff in H; destruct H as [H ?]).
  repeat match goal with
         | H : negb _ = true |- _ => apply negb_true_iff in H
         end.
  repeat split; try assumption; intros ->; discriminate.
Qed.

Lemma name_no_separator (s : string) (c : ascii) :
  all_chars name_char s = true -> In c [","; ":"; "/"]%char -> occurs c s = false.
Proof.
  intros Hs Hc. apply (all_chars_occurs name_char); [exact Hs|].
  destruct Hc as [<-|[<-|[<-|[]]]]; reflexivity.
Qed.

Lemma parseRepoEntry_show (rc : RepoWatchConfig.t) :
  expressible rc -> parseRepoEntry (show_repo rc) = Ok rc.
Proof.
  destruct rc as [owner repo label base].
  unfold expressible, show_repo.
  cbn [RepoWatchConfig.owner RepoWatchConfig.repo RepoWatchConfig.label
       RepoWatchConfig.baseBranch].
  intros (Ho & Hr & Hl & Hne_o & Hne_r & ->).
  unfold parseRepoEntry.
  assert (Hunsp : forall s, all_chars name_char s = true ->
                    all_chars (fun c => negb (is_space c)) s = true).
  { intros s. apply all_chars_weaken. intros c Hc.
    apply name_char_facts in Hc. destruct Hc as [Hc _]. now rewrite Hc. }
  rewrite trim_unspaced.
  2:{ rewrite !all_chars_append, (Hunsp owner Ho), (Hunsp repo Hr),
        (Hunsp label Hl). reflexivity. }
  assert (E : owner ++ "/" ++ repo ++ ":" ++ label
              = (owner ++ String "/" repo) ++ String ":" label).
  { rewrite append_assoc. reflexivity. }
  rewrite E, split_on_app.
  assert (Hpath : occurs ":" (owner ++ String "/" repo) = false).
  { rewrite occurs_append. cbn. 
    rewrite (name_no_separator owner ":"), (name_no_separator repo ":");
      cbn; auto. }
  rewrite (split_on_plain ":" _ Hpath).
  rewrite (split_on_plain ":" label) by (apply name_no_separator; cbn; auto).
  cbn [app nth_error nullish].
  rewrite split_on_app.
  rewrite (split_on_plain "/" owner), (split_on_plain "/" repo)
    by (apply name_no_separator; cbn; auto).
  cbn [app nth_error nullish].
  destruct owner; [contradiction|]. destruct repo; [contradiction|].
  reflexivity.
Qed.

Lemma map_throwing_map {A B} (f : A -> Result B) (g : B -> A) (ys : list B) :
  Forall (fun y => f (g y) = Ok y) ys -> map_throwing f (map g ys) = Ok ys.
Proof.
  induction 1 as [|y ys Hy _ IH]; cbn; [reflexivity|]. now rewrite Hy, IH.
Qed.

(** X3.  Written as [owner/repo:label] entries joined by commas, a list of
    configurations that is not empty and whose names are made of name
    characters is read back by [parseRepoList] as it was. *)
Theorem parseRepoList_show (cfgs : list RepoWatchConfig.t) :
  cfgs <> [] -> Forall expressible cfgs ->
  parseRepoList (join_with "," (map show_repo cfgs)) = Ok cfgs.
Proof.
  intros Hne Hall. unfold parseRepoList, join_with.
  change "," with (String ","%char "").
  rewrite split_on_concat.
  - apply map_throwing_map. eapply Forall_impl; [|exact Hall].
    intros rc. apply parseRepoEntry_show.
  - destruct cfgs; [contradiction|discriminate].
  - intros s Hs. apply in_map_iff in Hs. destruct Hs as (rc & <- & Hin).
    rewrite Forall_forall in Hall. destruct (Hall rc Hin) as (Ho & Hr & Hl & _).
    unfold show_repo. rewrite !occurs_append. cbn.
    rewrite (name_no_separator _ "," Ho), (name_no_separator _ "," Hr),
      (name_no_separator _ "," Hl); cbn; auto.
Qed.

Lemma parseRepoList_show_witness :
  parseRepoList "o/r:loom,a-b/c:bot"
  = Ok [RepoWatchConfig.mk "o" "r" "loom" None;
        RepoWatchConfig.mk "a-b" "c" "bot" None].
Proof.
  apply (parseRepoList_show [RepoWatchConfig.mk "o" "r" "loom" None;
                             RepoWatchConfig.mk "a-b" "c" "bot" None]).
  - discriminate.
  - repeat constructor; discriminate.
Defined.

(** X4.  For a configuration that [parseRepoList] returned, the workspace
    of an issue is a direct child of the work directory: [join] appends the
    name [owner-repo-number] as it is, and the name holds no [/], so no
    configured name can lead out of the work directory. *)
Theorem parsed_workspace_is_child (raw : string) (cfgs : list RepoWatchConfig.t)
    (cfg : EngineConfig.t) (rc : RepoWatchConfig.t) (issue : GitHubIssue.t) :
  parseRepoList raw = Ok cfgs -> In rc cfgs ->
  let name := dir_name (RepoWatchConfig.owner rc) (RepoWatchConfig.repo rc)
                (GitHubIssue.number issue) in
  repoDir_of cfg rc issue = join_prefix (EngineConfig.workDir cfg) ++ name
  /\ occurs "/" name = false.
Proof.
  intros Hok Hin name.
  pose proof (parsed_well_named raw cfgs Hok) as Hall.
  rewrite Forall_forall in Hall.
  destruct (Hall rc Hin) as (_ & _ & _ & Hnames & _).
  destruct (Hnames "/"%char (or_introl eq_refl)) as [Ho Hr].
  pose proof (dir_name_plain (RepoWatchConfig.owner rc) (RepoWatchConfig.repo rc)
                (GitHubIssue.number issue) Ho Hr) as Hplain.
  split.
  - unfold repoDir_of. now apply join_plain.
  - apply Hplain.
Qed.

Lemma parsed_workspace_is_child_witness :
  repoDir_of sample_config (RepoWatchConfig.mk ".." ".." "loom" None)
    (sample_issue 7)
  = "/tmp/loom-agent/" ++ "..-..-7"
  /\ occurs "/" "..-..-7" = false.
Proof.
  apply (parsed_workspace_is_child "../.." [RepoWatchConfig.mk ".." ".." "loom" None]
           sample_config (RepoWatchConfig.mk ".." ".." "loom" None)
           (sample_issue 7) eq_refl (or_introl eq_refl)).
Defined.

(** ** The prompt and the arguments of the agent *)

Lemma trimEnd_append (a b : string) :
  trimEnd b <> "" -> trimEnd (a ++ b) = a ++ trimEnd b.
Proof.
  intros Hb. induction a as [|c a IH]; [reflexivity|].
  cbn [append trimEnd]. rewrite IH.
  destruct (a ++ trimEnd b) eqn:E; [|reflexivity].
  destruct a; cbn in E; [contradiction|discriminate].
Qed.

(** X5.  The prompt holds the title, the body and the branch as they are:
    [trim] removes nothing, whatever white space they begin or end with.  A
    body that is [null] and a body that is empty give the same prompt, with
    no description. *)
Theorem buildPrompt_verbatim (issueTitle branch : string) (issueBody : option string) :
  buildPrompt issueTitle issueBody branch
  = prompt_text issueTitle
      (match issueBody with
       | Some b => if truthy b then nl ++ "Description:" ++ nl ++ b else ""
       | None => ""
       end) branch
  /\ buildPrompt issueTitle None branch = buildPrompt issueTitle (Some "") branch.
Proof.
  split; [|reflexivity].
  unfold buildPrompt, prompt_text, trim.
  set (d := match issueBody with
            | Some b => if truthy b then nl ++ "Description:" ++ nl ++ b else ""
            | None => ""
            end).
  set (w := "When done, output a summary of what you changed.").
  assert (Hw : trimEnd w = w) by reflexivity.
  assert (E : forall h p,
             join_with nl [h; ""; "Issue: " ++ issueTitle; d; "";
                           "You are working on branch: " ++ branch; ""; p; w]
             = (h ++ nl ++ nl ++ "Issue: " ++ issueTitle ++ nl ++ d ++ nl ++ nl
                ++ "You are working on branch: " ++ branch ++ nl ++ nl ++ p ++ nl)
               ++ w).
  { intros h p. unfold join_with. cbn [String.concat].
    rewrite !append_assoc. reflexivity. }
  rewrite E.
  match goal with
  | |- trimEnd (trimStart (?a ++ w)) = _ =>
      assert (Hs : trimStart (a ++ w) = a ++ w) by reflexivity;
      rewrite Hs, trimEnd_append, Hw by (rewrite Hw; discriminate)
  end.
  rewrite !append_assoc. reflexivity.
Qed.

(** ** The git helpers *)

Lemma check_spawn_run (reply : SpawnSyncResult.t) (what : string) (st : State.t) :
  check_spawn reply what st
  = (if spawn_ok reply then Ok tt else Throw (spawn_failure reply what), st).
Proof.
  unfold check_spawn, spawn_ok, spawn_failure, throw, ret.
  destruct (SpawnSyncResult.error reply) as [message|]; [reflexivity|].
  destruct (SpawnSyncResult.status reply) as [[|p|p]|]; reflexivity.
Qed.

Lemma commitAndPush_run (W : World.t) (dir message branch : string)
    (st : State.t) :
  let r1 := World.spawn W (State.tick st) in
  let r2 := World.spawn W (S (State.tick st)) in
  let r3 := World.spawn W (S (S (State.tick st))) in
  let st1 := called (git_add dir) st in
  let st2 := called (git_commit dir message) st1 in
  let st3 := called (git_push dir branch) st2 in
  commitAndPush W dir message branch st
  = if spawn_ok r1 then
      if spawn_ok r2 then
        if spawn_ok r3 then (Ok tt, st3)
        else (Throw (spawn_failure r3 ("git push origin " ++ branch)), st3)
      else (Throw (spawn_failure r2 ("git commit -m " ++ message)), st2)
    else (Throw (spawn_failure r1 "git add -A"), st1).
Proof.
  cbv zeta. unfold commitAndPush. cbn [for_of].
  unfold bind, do_spawnSync, request, ret.
  rewrite check_spawn_run. cbn [State.db State.tick State.trace].
  destruct (spawn_ok (World.spawn W (State.tick st))); [|reflexivity].
  rewrite check_spawn_run. cbn [State.db State.tick State.trace].
  destruct (spawn_ok (World.spawn W (S (State.tick st)))); [|reflexivity].
  rewrite check_spawn_run. cbn [State.db State.tick State.trace].
  destruct (spawn_ok (World.spawn W (S (S (State.tick st))))); reflexivity.
Qed.


(** X6.  [commitAndPush] runs [git add -A], [git commit -m <message>] and
    [git push origin <branch>] in the directory, in that order, and stops at
    the first child that reports an error or a status other than 0: nothing
    is pushed unless the add and the commit went through.  It returns
    exactly when all three did; otherwise it throws the error of the failed
    child, or the failed command line followed by its exit code. *)
Theorem commitAndPush_steps (W : World.t) (dir message branch : string)
    (st : State.t) :
  let r1 := World.spawn W (State.tick st) in
  let r2 := World.spawn W (S (State.tick st)) in
  let r3 := World.spawn W (S (S (State.tick st))) in
  let st1 := called (git_add dir) st in
  let st2 := called (git_commit dir message) st1 in
  let st3 := called (git_push dir branch) st2 in
  commitAndPush W dir message branch st
  = if spawn_ok r1 then
      if spawn_ok r2 then
        if spawn_ok r3 then (Ok tt, st3)
        else (Throw (spawn_failure r3 ("git push origin " ++ branch)), st3)
      else (Throw (spawn_failure r2 ("git commit -m " ++ message)), st2)
    else (Throw (spawn_failure r1 "git add -A"), st1).
Proof. apply commitAndPush_run. Qed.

(** ** What the agent's failure says *)

(** X7.  [executeAgent] returns exactly when the child reported no error
    and ended with status 0, and then returns what [runAgent] returned.
    Otherwise it throws the message of the error of [spawnSync] when there
    is one, else the stderr of the child when it is not empty, else
    [Exit code <status>], with [null] for no status.  Its own text,
    [Agent exited with code ...], is never the message: [runAgent] always
    sets [error] on a failure. *)
Theorem executeAgent_message (W : World.t) (cfg : EngineConfig.t)
    (issue : GitHubIssue.t) (dir branch : string) (taskId : Z) (st : State.t) :
  let reply := World.spawn W (State.tick st) in
  let stderr := nullish (SpawnSyncResult.stderr reply) "" in
  fst (executeAgent W cfg issue dir branch taskId st)
  = match SpawnSyncResult.error reply, SpawnSyncResult.status reply with
    | Some message, _ => Throw message
    | None, Some c =>
        if Z.eqb c 0 then Ok (agent_result reply)
        else Throw (if truthy stderr then stderr
                    else "Exit code " ++ string_of_Z c)
    | None, None =>
        Throw (if truthy stderr then stderr else "Exit code null")
    end.
Proof.
  cbv zeta. unfold executeAgent, bind.
  destruct (runAgent_returns W
              (AgentRunInput.mk taskId (GitHubIssue.title issue)
                 (GitHubIssue.body issue) dir branch (EngineConfig.agent cfg)) st)
    as (st' & -> & _).
  unfold agent_result.
  destruct (World.spawn W (State.tick st)) as [err status out errout].
  cbn [SpawnSyncResult.error SpawnSyncResult.status SpawnSyncResult.stderr].
  destruct err as [message|]; [reflexivity|].
  destruct status as [c|]; [|reflexivity].
  destruct (Z.eqb c 0); reflexivity.
Qed.

(** ** Base branches *)

Lemma createBranch_run W owner repo branch fromBranch st info sha :
  World.repos_get W (State.tick st) = Ok info ->
  World.getRef W (S (State.tick st)) = Ok sha ->
  createBranch W owner repo branch fromBranch st
  = (match World.octokit_unit W (S (S (State.tick st))) with
     | Ok _ => Ok sha
     | Throw e => Throw e
     end,
     State.mk (State.db st) (S (S (S (State.tick st))))
       (State.trace st
        ++ branch_calls owner repo branch
             (nullish fromBranch (GitHubRepo.defaultBranch info)) sha)).
Proof.
  intros Hinfo Hsha.
  unfold createBranch, getRepo, bind, request, ret, branch_calls.
  cbn [State.db State.tick State.trace]. rewrite Hinfo, Hsha.
  cbn [State.db State.tick State.trace]. rewrite <- !app_assoc. cbn [app].
  destruct (World.octokit_unit W _) as [[]|e]; reflexivity.
Qed.

Lemma runAgentForTask_targets W cfg taskId issue rc :
  preserves (trace_adds (targets (nullish (RepoWatchConfig.baseBranch rc) "main")))
    (runAgentForTask W cfg taskId issue rc).
Proof. trace_frame ltac:(first [exact I | reflexivity]). Qed.

(** X8.  For a repository watched through [WATCH_REPOS], which has no way
    to name a base branch: when GitHub answers, the branch of the issue is
    created at the head of the default branch of the repository, whatever
    that branch is, and checked out locally; every pull request that a run
    opens is against [main]. *)
Theorem parsed_base_branch (raw : string) (cfgs : list RepoWatchConfig.t)
    (rc : RepoWatchConfig.t) (W : World.t) :
  parseRepoList raw = Ok cfgs -> In rc cfgs ->
  (forall branch dir st info sha,
     World.repos_get W (State.tick st) = Ok info ->
     World.getRef W (S (State.tick st)) = Ok sha ->
     State.trace (snd (prepareBranch W rc branch dir st))
     = (State.trace st
        ++ branch_calls (RepoWatchConfig.owner rc) (RepoWatchConfig.repo rc)
             branch (GitHubRepo.defaultBranch info) sha
        ++ [checkout_call branch dir])%list)
  /\ (forall cfg taskId issue st,
        trace_adds (targets "main") st
          (snd (runAgentForTask W cfg taskId issue rc st))).
Proof.
  intros Hok Hin.
  assert (Hbase : RepoWatchConfig.baseBranch rc = None).
  { pose proof (parsed_well_named raw cfgs Hok) as Hall.
    rewrite Forall_forall in Hall. apply (Hall rc Hin). }
  split.
  - intros branch dir st info sha Hinfo Hsha.
    unfold prepareBranch. unfold bind at 1. unfold try_catch. unfold bind at 1.
    rewrite (createBranch_run W _ _ branch _ st info sha Hinfo Hsha), Hbase.
    cbn [nullish].
    destruct (World.octokit_unit W _) as [[]|e]; unfold ret;
      rewrite checkoutBranch_run; cbn [snd State.trace];
      rewrite <- app_assoc; reflexivity.
  - intros cfg taskId issue st.
    pose proof (runAgentForTask_targets W cfg taskId issue rc st) as H.
    rewrite Hbase in H. exact H.
Qed.

Lemma parsed_base_branch_witness :
  State.trace (snd (prepareBranch (quiet_world exit0) sample_rc "loom/issue-42"
                      "/tmp/loom-agent/o-r-42" initial_state))
  = [ EvCall (repos_get "o" "r");
      EvCall (git_getRef "o" "r" "heads/main");
      EvCall (git_createRef "o" "r" "refs/heads/loom/issue-42" "sha");
      checkout_call "loom/issue-42" "/tmp/loom-agent/o-r-42" ].
Proof.
  destruct (parsed_base_branch "o/r" [sample_rc] sample_rc (quiet_world exit0)
              eq_refl (or_introl eq_refl)) as [H _].
  exact (H "loom/issue-42" "/tmp/loom-agent/o-r-42" initial_state
           (GitHubRepo.mk "o" "r" "o/r" "" "" "main") "sha" eq_refl eq_refl).
Defined.

(** ** The cached client *)

Lemma getClient_cached env token c :
  getClient env token (Some c) = (c, Some c).
Proof. reflexivity. Qed.

Lemma getClient_each_cached env tokens c :
  getClient_each env tokens (Some c) = (map (fun _ => c) tokens, Some c).
Proof.
  induction tokens as [|t ts IH]; [reflexivity|].
  cbn [getClient_each map]. rewrite getClient_cached, IH. reflexivity.
Qed.

(** X9.  [getClient] builds a client once: the first call decides the
    token, the one given or else [GITHUB_TOKEN] of the environment, and
    every later call returns that same client, whatever token it is given. *)
Theorem getClient_first_wins (env : Env) (token : option string)
    (tokens : list (option string)) :
  let first := fst (getClient env token None) in
  getClient_each env (token :: tokens) None
  = (first :: map (fun _ => first) tokens, Some first)
  /\ Octokit.auth first
     = match token with Some t => Some t | None => env "GITHUB_TOKEN" end.
Proof.
  cbv zeta. cbn [getClient_each].
  destruct (getClient env token None) as [c s] eqn:E.
  assert (Hs : s = Some c /\ Octokit.auth c
               = match token with Some t => Some t | None => env "GITHUB_TOKEN" end).
  { unfold getClient in E. destruct token; injection E as <- <-; auto. }
  destruct Hs as [-> Hauth]. rewrite getClient_each_cached. cbn [fst]. auto.
Qed.

(** ** The store through the loop *)

Lemma store_steps_trans cfg a b c :
  store_steps cfg a b -> store_steps cfg b c -> store_steps cfg a c.
Proof.
  intros Hab Hbc. induction Hbc as [|b c d _ IH Hstep]; [exact Hab|].
  eapply steps_more; [apply IH; exact Hab|exact Hstep].
Qed.

Lemma store_steps_one cfg a b : store_step cfg a b -> store_steps cfg a b.
Proof. intros H. eapply steps_more; [apply steps_none|exact H]. Qed.

#[export] Instance store_steps_frame cfg : Frame (on_db (store_steps cfg)).
Proof.
  split; unfold on_db.
  - intros st. apply steps_none.
  - intros a b c. apply store_steps_trans.
Qed.

Lemma store_steps_same cfg {A} (m : M A) :
  preserves db_same m -> preserves (on_db (store_steps cfg)) m.
Proof.
  intros Hm st. specialize (Hm st). unfold db_same, on_db in *.
  rewrite Hm. apply steps_none.
Qed.

Lemma upsertRepo_inserts W rc st :
  find (repo_matches rc) (Store.repos (State.db st)) = None ->
  let row := new_repo rc (World.current_timestamp W (State.tick st)) (State.db st) in
  upsertRepo W rc st
  = (Ok row, State.mk (with_repo row (State.db st)) (State.tick st) (State.trace st)).
Proof.
  intros Hfind. cbv zeta.
  unfold upsertRepo, select_repos_by_owner, bind, get_db, ret.
  rewrite find_filter. unfold repo_matches in Hfind. rewrite Hfind.
  reflexivity.
Qed.

Lemma upsertRepo_store_steps W cfg rc :
  preserves (on_db (store_steps cfg)) (upsertRepo W rc).
Proof.
  intros st. unfold on_db.
  destruct (find (repo_matches rc) (Store.repos (State.db st))) as [found|] eqn:E.
  - rewrite (upsertRepo_found W rc st found E). apply steps_none.
  - rewrite (upsertRepo_inserts W rc st E). cbn [snd State.db].
    apply store_steps_one. now apply step_repo.
Qed.

Lemma handleIssue_store_step W cfg issue repoRecord rc st :
  let d := State.db st in
  let d' := State.db (snd (handleIssue W cfg issue repoRecord rc st)) in
  d' = d \/ store_step cfg d d'.
Proof.
  cbv zeta.
  destruct (skips (find (issue_is (GitHubIssue.number issue))
                     (Store.tasks (State.db st)))) eqn:Hs.
  - left. unfold skips in Hs.
    destruct (find _ _) as [t|] eqn:Hfind; [|discriminate].
    rewrite (handleIssue_skipped W cfg issue repoRecord rc st t Hfind);
      [reflexivity|].
    destruct (Task.status t); try discriminate; auto.
  - right.
    destruct (handleIssue_claimed W cfg issue repoRecord rc st Hs)
      as (taskId & st1 & Hclaim & ->).
    destruct (runAgentForTask_outcome W cfg taskId issue rc
                (notified rc issue taskId st1)) as (st' & -> & Hclosed).
    cbn [snd notified State.db] in *.
    destruct (find _ _) as [t|] eqn:Hfind.
    + unfold skips in Hs. destruct (Task.status t) eqn:Ht; try discriminate.
      * rewrite (claimTask_insert W (Some t)) in Hclaim
          by (intros ? [= <-]; congruence).
        injection Hclaim as <- <-. cbn [State.db] in Hclosed.
        eapply step_insert; [|exact Hclosed].
        intros t' Ht'. congruence.
      * rewrite (claimTask_failed W t) in Hclaim by exact Ht.
        injection Hclaim as <- <-. cbn [State.db] in Hclosed.
        eapply step_retry; eauto.
    + rewrite (claimTask_insert W None) in Hclaim by discriminate.
      injection Hclaim as <- <-. cbn [State.db] in Hclosed.
      eapply step_insert; [|exact Hclosed].
      intros t' Ht'. congruence.
Qed.

Lemma handleIssue_store_steps W cfg issue repoRecord rc :
  preserves (on_db (store_steps cfg)) (handleIssue W cfg issue repoRecord rc).
Proof.
  intros st. unfold on_db.
  destruct (handleIssue_store_step W cfg issue repoRecord rc st) as [->|H].
  - apply steps_none.
  - now apply store_steps_one.
Qed.

Ltac store_steps_prims :=
  auto using store_steps_same, request_db_same, emit_db_same,
    upsertRepo_store_steps, handleIssue_store_steps.

Lemma processRepo_store_steps W cfg rc :
  preserves (on_db (store_steps cfg)) (processRepo W cfg rc).
Proof. unfold processRepo. unfold_io. frame; store_steps_prims. Qed.

Lemma poll_store_steps W cfg : preserves (on_db (store_steps cfg)) (poll W cfg).
Proof.
  unfold poll. unfold_io. frame; store_steps_prims.
  apply processRepo_store_steps.
Qed.

Lemma loop_store_steps W cfg n : preserves (on_db (store_steps cfg)) (loop W cfg n).
Proof.
  induction n as [|n IH]; cbn [loop].
  - apply preserves_ret. typeclasses eauto.
  - unfold_io. frame; store_steps_prims. apply poll_store_steps.
Qed.

(** An invariant of the steps is an invariant of the loop. *)
Lemma store_steps_invariant cfg (Inv : Store.t -> Prop) :
  (forall d d', store_step cfg d d' -> Inv d -> Inv d') ->
  forall d d', store_steps cfg d d' -> Inv d -> Inv d'.
Proof.
  intros Hstep d d' H. induction H as [|d1 d2 d3 _ IH H23]; [auto|].
  intros H1. eapply Hstep; eauto.
Qed.

(** ** What one run of the pipeline leaves of the rows *)

Lemma touch_agentRun_other set runId l :
  ~ In runId (map AgentRun.id l) -> map (touch_agentRun set runId) l = l.
Proof.
  induction l as [|r l IH]; cbn; intros H; [reflexivity|].
  unfold touch_agentRun at 1.
  destruct (Z.eqb_spec (AgentRun.id r) runId) as [E|NE].
  - exfalso. apply H. now left.
  - f_equal. apply IH. tauto.
Qed.

Lemma closed_after_runs cfg taskId d d' :
  closed_after cfg taskId d d' ->
  exists run,
    Store.agentRuns d' = (Store.agentRuns d ++ [run])%list
    /\ closed_run cfg run /\ AgentRun.taskId run = taskId.
Proof.
  intros (ts & H). cbv zeta in H.
  pose proof (next_id_fresh (Store.seq_agentRuns d)
                (map AgentRun.id (Store.agentRuns d))) as Hfresh.
  destruct H as [(pr & now & ts' & output & ->) | (now & ts' & e & ->)].
  - exists (set_run_completed now output (new_run cfg taskId ts d)).
    unfold db_completed.
    cbn [agentRuns_updated tasks_updated with_agentRun Store.agentRuns].
    rewrite map_app. cbn [map new_run AgentRun.id].
    rewrite touch_agentRun_other by exact Hfresh.
    unfold touch_agentRun. cbn [AgentRun.id]. rewrite Z.eqb_refl.
    split; [reflexivity|]. split; [|reflexivity].
    unfold closed_run. cbn. repeat split; try discriminate.
    left. repeat split; discriminate.
  - exists (set_run_failed now e (new_run cfg taskId ts d)).
    unfold db_failed.
    cbn [agentRuns_updated tasks_updated with_agentRun Store.agentRuns].
    rewrite map_app. cbn [map new_run AgentRun.id].
    rewrite touch_agentRun_other by exact Hfresh.
    unfold touch_agentRun. cbn [AgentRun.id]. rewrite Z.eqb_refl.
    split; [reflexivity|]. split; [|reflexivity].
    unfold closed_run. cbn. repeat split; try discriminate.
    right. repeat split; discriminate.
Qed.

(** The rows of [tasks] after a run: each row of another task is as it was,
    each row of the task is [completed] with its pull request, or [failed]. *)
Lemma closed_after_tasks cfg taskId d d' :
  closed_after cfg taskId d d' ->
  exists f,
    Store.tasks d' = map f (Store.tasks d)
    /\ (forall t, Task.id t <> taskId -> f t = t)
    /\ (forall t, Task.id t = taskId ->
          (Task.status (f t) = completed
           /\ Task.prNumber (f t) <> None /\ Task.prUrl (f t) <> None)
          \/ Task.status (f t) = failed).
Proof.
  intros (ts & H). cbv zeta in H.
  destruct H as [(pr & now & ts' & output & ->) | (now & ts' & e & ->)].
  - exists (touch_task (set_task_completed (GitHubPullRequest.number pr)
                          (GitHubPullRequest.htmlUrl pr)) taskId ts').
    split; [reflexivity|]. split.
    + intros t Ht. unfold touch_task.
      destruct (Z.eqb_spec (Task.id t) taskId); [contradiction|reflexivity].
    + intros t Ht. left. unfold touch_task.
      destruct (Z.eqb_spec (Task.id t) taskId); [|contradiction].
      cbn. repeat split; discriminate.
  - exists (touch_task set_task_failed taskId ts').
    split; [reflexivity|]. split.
    + intros t Ht. unfold touch_task.
      destruct (Z.eqb_spec (Task.id t) taskId); [contradiction|reflexivity].
    + intros t Ht. right. unfold touch_task.
      destruct (Z.eqb_spec (Task.id t) taskId); [|contradiction].
      reflexivity.
Qed.

Lemma touch_task_other set taskId now t :
  Task.id t <> taskId -> touch_task set taskId now t = t.
Proof.
  intros H. unfold touch_task.
  destruct (Z.eqb_spec (Task.id t) taskId); [contradiction|reflexivity].
Qed.

Lemma next_task_id_fresh d t : In t (Store.tasks d) -> Task.id t <> next_task_id d.
Proof.
  intros Hin E.
  apply (next_id_fresh (Store.seq_tasks d) (map Task.id (Store.tasks d))).
  fold (next_task_id d). rewrite <- E. now apply in_map.
Qed.

(** The rows of [tasks] after a step, row by row: the rows before, each
    either as it was or a row of the task that was run, closed; and after
    them the row that was inserted, closed. *)
Lemma store_step_tasks cfg d d' :
  store_step cfg d d' ->
  exists (f : Task.t -> Task.t) (extra : list Task.t) (taskId : Z),
    Store.tasks d' = (map f (Store.tasks d) ++ extra)%list
    /\ (forall t, In t (Store.tasks d) -> Task.id (f t) = Task.id t)
    /\ (forall t, In t (Store.tasks d) -> Task.id t <> taskId -> f t = t)
    /\ (forall t, In t (Store.tasks d) -> Task.id t = taskId ->
          exists t0, In t0 (Store.tasks d) /\ Task.id t0 = taskId
                     /\ Task.status t0 = failed)
    /\ (forall t, In t (Store.tasks d) -> Task.id t = taskId ->
          (Task.status (f t) = completed
           /\ Task.prNumber (f t) <> None /\ Task.prUrl (f t) <> None)
          \/ Task.status (f t) = failed)
    /\ Forall (fun t => Task.id t = next_task_id d
                        /\ ((Task.status t = completed
                             /\ Task.prNumber t <> None /\ Task.prUrl t <> None)
                            \/ Task.status t = failed)) extra.
Proof.
  intros [rc ts Hnone | issue repoRecord ts d2 Hfound Hclosed
          | issue repoRecord t0 ts d2 Hfound Hfailed Hclosed].
  - exists (fun t => t), [], (next_task_id d).
    cbn [with_repo Store.tasks]. rewrite map_id, app_nil_r.
    split; [reflexivity|]. split; [reflexivity|]. split; [reflexivity|].
    split; [|split; [|constructor]];
      intros t Hin E; exfalso; now apply (next_task_id_fresh d t).
  - destruct (closed_after_tasks _ _ _ _ Hclosed) as (f & Htasks & Hother & Hsame).
    cbn [with_task Store.tasks] in Htasks. rewrite map_app in Htasks.
    exists f, [f (new_task issue repoRecord ts d)], (next_task_id d).
    split; [exact Htasks|].
    assert (Hold : forall t, In t (Store.tasks d) -> f t = t).
    { intros t Hin. apply Hother. now apply next_task_id_fresh. }
    repeat split.
    + intros t Hin. now rewrite Hold.
    + intros t Hin _. now apply Hold.
    + intros t Hin E. exfalso. now apply (next_task_id_fresh d t).
    + intros t Hin E. exfalso. now apply (next_task_id_fresh d t).
    + constructor; [|constructor].
      assert (Hid : Task.id (new_task issue repoRecord ts d) = next_task_id d)
        by reflexivity.
      split; [|now apply Hsame].
      pose proof (closed_after_facts _ _ _ _ Hclosed) as (_ & Hids & _).
      cbn [with_task Store.tasks] in Hids. rewrite Htasks in Hids.
      rewrite !map_app in Hids. cbn [map] in Hids.
      apply app_inj_tail in Hids. now destruct Hids as [_ ->].
  - destruct (closed_after_tasks _ _ _ _ Hclosed) as (f & Htasks & Hother & Hsame).
    cbn [tasks_updated Store.tasks] in Htasks. rewrite map_map in Htasks.
    set (g := touch_task (set_retry (Repo.id repoRecord)) (Task.id t0) ts) in *.
    assert (Hg : forall t, Task.id (g t) = Task.id t).
    { intros t. apply touch_task_id. reflexivity. }
    exists (fun t => f (g t)), [], (Task.id t0).
    rewrite app_nil_r. split; [exact Htasks|].
    pose proof (closed_after_facts _ _ _ _ Hclosed) as (_ & Hids & _).
    cbn [tasks_updated Store.tasks] in Hids.
    rewrite Htasks, (map_touch_task_ids _ _ _ (Store.tasks d)) in Hids
      by reflexivity.
    repeat split.
    + intros t Hin.
      assert (H := Hids). rewrite !map_map in H.
      destruct (Z.eq_dec (Task.id t) (Task.id t0)) as [E|NE].
      * clear H. revert t Hin E.
        assert (Hall : Forall (fun t => Task.id (f (g t)) = Task.id t) (Store.tasks d)).
        { clear - Hids. rewrite map_map in Hids.
          induction (Store.tasks d) as [|x l IH]; constructor;
            cbn in Hids; injection Hids as E1 E2; auto. }
        rewrite Forall_forall in Hall. intros t Hin _. now apply Hall.
      * rewrite Hother by (rewrite Hg; exact NE).
        apply Hg.
    + intros t Hin NE. rewrite Hother by (rewrite Hg; exact NE).
      now apply touch_task_other.
    + intros t Hin E. exists t0. apply find_some in Hfound. tauto.
    + intros t Hin E. apply Hsame. now rewrite Hg.
    + constructor.
Qed.

Lemma store_step_task_ids cfg d d' :
  store_step cfg d d' ->
  map Task.id (Store.tasks d') = map Task.id (Store.tasks d)
  \/ map Task.id (Store.tasks d')
     = (map Task.id (Store.tasks d) ++ [next_task_id d])%list.
Proof.
  intros [rc ts Hnone | issue repoRecord ts d2 Hfound Hclosed
          | issue repoRecord t0 ts d2 Hfound Hfailed Hclosed].
  - left. reflexivity.
  - right. pose proof (closed_after_facts _ _ _ _ Hclosed) as (_ & Hids & _).
    rewrite Hids. cbn [with_task Store.tasks]. now rewrite map_app.
  - left. pose proof (closed_after_facts _ _ _ _ Hclosed) as (_ & Hids & _).
    rewrite Hids. cbn [tasks_updated Store.tasks].
    now apply map_touch_task_ids.
Qed.

Lemma store_step_repos cfg d d' :
  store_step cfg d d' ->
  Store.repos d' = Store.repos d
  \/ exists rc ts,
       find (repo_matches rc) (Store.repos d) = None
       /\ Store.repos d' = (Store.repos d ++ [new_repo rc ts d])%list.
Proof.
  intros [rc ts Hnone | issue repoRecord ts d2 Hfound Hclosed
          | issue repoRecord t0 ts d2 Hfound Hfailed Hclosed].
  - right. exists rc, ts. auto.
  - left. now pose proof (closed_after_facts _ _ _ _ Hclosed) as (-> & _).
  - left. now pose proof (closed_after_facts _ _ _ _ Hclosed) as (-> & _).
Qed.

Lemma store_step_runs cfg d d' :
  store_step cfg d d' -> runs_appended cfg d d'.
Proof.
  intros [rc ts Hnone | issue repoRecord ts d2 Hfound Hclosed
          | issue repoRecord t0 ts d2 Hfound Hfailed Hclosed].
  - exists []. cbn [with_repo Store.agentRuns]. now rewrite app_nil_r.
  - destruct (closed_after_runs _ _ _ _ Hclosed) as (run & Hruns & Hrun & Htask).
    pose proof (closed_after_facts _ _ _ _ Hclosed) as (_ & Hids & _).
    exists [run]. split; [exact Hruns|].
    constructor; [|constructor]. split; [exact Hrun|].
    rewrite Hids, Htask. cbn [with_task Store.tasks].
    rewrite map_app, in_app_iff. right. now left.
  - destruct (closed_after_runs _ _ _ _ Hclosed) as (run & Hruns & Hrun & Htask).
    pose proof (closed_after_facts _ _ _ _ Hclosed) as (_ & Hids & _).
    exists [run]. split; [exact Hruns|].
    constructor; [|constructor]. split; [exact Hrun|].
    rewrite Hids, Htask. cbn [tasks_updated Store.tasks].
    rewrite map_touch_task_ids by reflexivity.
    apply in_map. apply find_some in Hfound. tauto.
Qed.

Lemma store_steps_runs cfg d d' :
  store_steps cfg d d' ->
  runs_appended cfg d d'
  /\ incl (map Task.id (Store.tasks d)) (map Task.id (Store.tasks d')).
Proof.
  induction 1 as [d|d1 d2 d3 _ [(e1 & E1 & F1) Hincl] Hstep].
  - split; [|apply incl_refl]. exists []. now rewrite app_nil_r.
  - assert (Hincl23 : incl (map Task.id (Store.tasks d2))
                        (map Task.id (Store.tasks d3))).
    { destruct (store_step_task_ids _ _ _ Hstep) as [->| ->];
        [apply incl_refl|apply incl_appl, incl_refl]. }
    destruct (store_step_runs _ _ _ Hstep) as (e2 & E2 & F2).
    split; [|eapply incl_tran; eauto].
    exists (e1 ++ e2)%list. rewrite E2, E1, app_assoc. split; [reflexivity|].
    apply Forall_app. split; [|exact F2].
    eapply Forall_impl; [|exact F1]. intros r [Hr Hin]. split; [exact Hr|].
    now apply Hincl23.
Qed.

(** X10.  The table [agent_runs] only grows, and only by closed runs: after
    any number of turns of the loop, the run rows that were there are still
    there, in place and unchanged, whatever their ids, and every row after
    them is a run of the configured agent that has its end time and is
    either [completed] with an output and no error or [failed] with an
    error and no output, and belongs to a task that is in [tasks]. *)
Theorem loop_runs_appended (W : World.t) (cfg : EngineConfig.t) (n : nat)
    (st : State.t) :
  runs_appended cfg (State.db st) (State.db (snd (loop W cfg n st))).
Proof.
  pose proof (loop_store_steps W cfg n st) as Hsteps. unfold on_db in Hsteps.
  now apply store_steps_runs in Hsteps.
Qed.

Lemma store_step_settled cfg d d' :
  store_step cfg d d' -> settled d -> settled d'.
Proof.
  intros Hstep [Htasks Hruns].
  destruct (store_step_tasks _ _ _ Hstep)
    as (f & extra & taskId & Ht & _ & Hother & _ & Hsame & Hextra).
  destruct (store_step_runs _ _ _ Hstep) as (rextra & Hr & Hclosed).
  unfold settled. rewrite Ht, Hr. split; apply Forall_app; split.
  - apply Forall_map. rewrite Forall_forall in *. intros t Hin.
    destruct (Z.eq_dec (Task.id t) taskId) as [E|NE].
    + destruct (Hsame t Hin E) as [(H & _)|H]; rewrite H; discriminate.
    + rewrite (Hother t Hin NE). now apply Htasks.
  - eapply Forall_impl; [|exact Hextra].
    intros t [_ [(H & _)|H]]; rewrite H; discriminate.
  - exact Hruns.
  - eapply Forall_impl; [|exact Hclosed].
    intros r [(_ & _ & _ & [(H & _)|(H & _)]) _]; rewrite H; discriminate.
Qed.

(** X11.  The loop leaves nothing pending: if no task is [in_progress] and
    no run is [running] before, then after any number of turns, whatever the
    outside world replied, no task is [in_progress] and no run is
    [running]. *)
Theorem loop_settled (W : World.t) (cfg : EngineConfig.t) (n : nat)
    (st : State.t) :
  settled (State.db st) -> settled (State.db (snd (loop W cfg n st))).
Proof.
  apply (store_steps_invariant cfg settled (store_step_settled cfg)).
  apply (loop_store_steps W cfg n st).
Qed.

Lemma loop_settled_witness :
  settled (State.db (snd (loop (listing_world [sample_issue 1; sample_issue 2]
                                  exit128) sample_config 2 initial_state))).
Proof.
  apply (loop_settled (listing_world [sample_issue 1; sample_issue 2] exit128)
           sample_config 2 initial_state).
  split; constructor.
Defined.

Lemma store_step_completed_have_pr cfg d d' :
  store_step cfg d d' -> completed_have_pr d -> completed_have_pr d'.
Proof.
  intros Hstep Htasks.
  destruct (store_step_tasks _ _ _ Hstep)
    as (f & extra & taskId & Ht & _ & Hother & _ & Hsame & Hextra).
  unfold completed_have_pr in *. rewrite Ht. apply Forall_app; split.
  - apply Forall_map. rewrite Forall_forall in *. intros t Hin.
    destruct (Z.eq_dec (Task.id t) taskId) as [E|NE].
    + destruct (Hsame t Hin E) as [(_ & H)|H]; [auto|].
      rewrite H. discriminate.
    + rewrite (Hother t Hin NE). now apply Htasks.
  - eapply Forall_impl; [|exact Hextra].
    intros t [_ [(_ & H)|H]]; [auto|]. rewrite H. discriminate.
Qed.

(** X12.  A task is [completed] only with its pull request: if every
    [completed] task has a [prNumber] and a [prUrl] before, then so it is
    after any number of turns of the loop. *)
Theorem loop_completed_have_pr (W : World.t) (cfg : EngineConfig.t) (n : nat)
    (st : State.t) :
  completed_have_pr (State.db st) ->
  completed_have_pr (State.db (snd (loop W cfg n st))).
Proof.
  apply (store_steps_invariant cfg completed_have_pr
           (store_step_completed_have_pr cfg)).
  apply (loop_store_steps W cfg n st).
Qed.

Lemma loop_completed_have_pr_witness :
  completed_have_pr
    (State.db (snd (loop (listing_world [sample_issue 42] exit0) sample_config 1
                      state_after_failure))).
Proof.
  apply (loop_completed_have_pr (listing_world [sample_issue 42] exit0)
           sample_config 1 state_after_failure).
  constructor; [discriminate|constructor].
Defined.

Lemma NoDup_map_eq {A B} (g : A -> B) (l : list A) (x y : A) :
  NoDup (map g l) -> In x l -> In y l -> g x = g y -> x = y.
Proof.
  induction l as [|a l IH]; cbn; [tauto|].
  intros Hnd Hx Hy E. inversion Hnd as [|? ? Hnotin Hnd']; subst.
  destruct Hx as [->|Hx], Hy as [->|Hy]; auto.
  - exfalso. apply Hnotin. rewrite E. now apply in_map.
  - exfalso. apply Hnotin. rewrite <- E. now apply in_map.
Qed.

Lemma store_step_open_tasks cfg d d' :
  store_step cfg d d' ->
  NoDup (map Task.id (Store.tasks d)) ->
  NoDup (map Task.id (Store.tasks d'))
  /\ forall t, In t (Store.tasks d) -> Task.status t <> failed ->
               In t (Store.tasks d').
Proof.
  intros Hstep Hnd. split.
  - destruct (store_step_task_ids _ _ _ Hstep) as [->| ->]; [exact Hnd|].
    apply NoDup_snoc; [exact Hnd|]. apply next_id_fresh.
  - destruct (store_step_tasks _ _ _ Hstep)
      as (f & extra & taskId & Ht & _ & Hother & Hfailed & _ & _).
    intros t Hin Hopen. rewrite Ht, in_app_iff. left.
    assert (NE : Task.id t <> taskId).
    { intros E. destruct (Hfailed t Hin E) as (t0 & Hin0 & E0 & Hs0).
      assert (t = t0) by (apply (NoDup_map_eq Task.id (Store.tasks d)); congruence).
      congruence. }
    rewrite <- (Hother t Hin NE). now apply in_map.
Qed.

Lemma store_steps_open_tasks cfg d d' :
  store_steps cfg d d' ->
  NoDup (map Task.id (Store.tasks d)) ->
  NoDup (map Task.id (Store.tasks d'))
  /\ forall t, In t (Store.tasks d) -> Task.status t <> failed ->
               In t (Store.tasks d').
Proof.
  induction 1 as [d|d1 d2 d3 _ IH Hstep]; intros Hnd; [auto|].
  destruct (IH Hnd) as [Hnd2 Hkept].
  destruct (store_step_open_tasks _ _ _ Hstep Hnd2) as [Hnd3 Hkept3].
  split; [exact Hnd3|]. auto.
Qed.

(** X13.  Only a [failed] task is ever taken again.  When the ids of the
    task rows are distinct before, they are distinct after any number of
    turns of the loop, and every task row that was [todo], [in_progress] or
    [completed] is still there exactly as it was: a task left [in_progress]
    by a run that was cut short is never picked up, a [todo] task is never
    started, a [completed] task is never run again. *)
Theorem loop_keeps_open_tasks (W : World.t) (cfg : EngineConfig.t) (n : nat)
    (st : State.t) :
  NoDup (map Task.id (Store.tasks (State.db st))) ->
  NoDup (map Task.id (Store.tasks (State.db (snd (loop W cfg n st)))))
  /\ forall t, In t (Store.tasks (State.db st)) -> Task.status t <> failed ->
               In t (Store.tasks (State.db (snd (loop W cfg n st)))).
Proof.
  apply (store_steps_open_tasks cfg). apply (loop_store_steps W cfg n st).
Qed.

Lemma loop_keeps_open_tasks_witness :
  In todo_task_5
    (Store.tasks (State.db (snd (loop (listing_world [sample_issue 5] exit0)
                                   sample_config 3 todo_state)))).
Proof.
  destruct (loop_keeps_open_tasks (listing_world [sample_issue 5] exit0)
              sample_config 3 todo_state) as [_ H].
  - cbn. constructor; [intros []|constructor].
  - apply H; [now left|discriminate].
Defined.

Lemma find_none_no_key (rc : RepoWatchConfig.t) (l : list Repo.t) :
  find (repo_matches rc) l = None ->
  ~ In (RepoWatchConfig.owner rc, RepoWatchConfig.repo rc)
       (map (fun r => (Repo.owner r, Repo.name r)) l).
Proof.
  intros Hnone Hin. apply in_map_iff in Hin. destruct Hin as (r & E & Hin).
  injection E as Eo En.
  pose proof (find_none _ _ Hnone r Hin) as Hm. unfold repo_matches in Hm.
  rewrite Eo, En, !String.eqb_refl in Hm. discriminate.
Qed.

Lemma store_step_repo_keys cfg d d' :
  store_step cfg d d' -> NoDup (repo_keys d) -> NoDup (repo_keys d').
Proof.
  intros Hstep Hnd. unfold repo_keys in *.
  destruct (store_step_repos _ _ _ Hstep) as [->|(rc & ts & Hnone & ->)];
    [exact Hnd|].
  rewrite map_app. cbn [map new_repo Repo.owner Repo.name].
  apply NoDup_snoc; [exact Hnd|]. now apply find_none_no_key.
Qed.

(** X14.  One row for each repository: when no two rows of [repos] have the
    same owner and name before, no two have after any number of turns of
    the loop, however often a repository is polled and whatever its label
    in the configuration. *)
Theorem loop_one_row_per_repo (W : World.t) (cfg : EngineConfig.t) (n : nat)
    (st : State.t) :
  NoDup (repo_keys (State.db st)) ->
  NoDup (repo_keys (State.db (snd (loop W cfg n st)))).
Proof.
  apply (store_steps_invariant cfg (fun d => NoDup (repo_keys d))
           (store_step_repo_keys cfg)).
  apply (loop_store_steps W cfg n st).
Qed.

Lemma loop_one_row_per_repo_witness :
  NoDup (repo_keys (State.db (snd (loop (listing_world [] exit0) sample_config 2
                                     initial_state)))).
Proof.
  apply (loop_one_row_per_repo (listing_world [] exit0) sample_config 2
           initial_state).
  constructor.
Defined.

(** ** [upsertRepo], twice *)

Lemma find_snoc {A} (p : A -> bool) (l : list A) (x : A) :
  find p l = None -> p x = true -> find p (l ++ [x]) = Some x.
Proof.
  induction l as [|a l IH]; cbn; intros Hnone Hx.
  - now rewrite Hx.
  - destruct (p a); [discriminate|auto].
Qed.

Lemma repo_matches_same (rc rc' : RepoWatchConfig.t) (r : Repo.t) :
  RepoWatchConfig.owner rc' = RepoWatchConfig.owner rc ->
  RepoWatchConfig.repo rc' = RepoWatchConfig.repo rc ->
  repo_matches rc' r = repo_matches rc r.
Proof. intros Eo Er. unfold repo_matches. now rewrite Eo, Er. Qed.

Lemma find_repo_matches_same (rc rc' : RepoWatchConfig.t) (l : list Repo.t) :
  RepoWatchConfig.owner rc' = RepoWatchConfig.owner rc ->
  RepoWatchConfig.repo rc' = RepoWatchConfig.repo rc ->
  find (repo_matches rc') l = find (repo_matches rc) l.
Proof.
  intros Eo Er. induction l as [|r l IH]; cbn; [reflexivity|].
  now rewrite (repo_matches_same rc rc' r Eo Er), IH.
Qed.

(** What [upsertRepo] returns is in the store and matches. *)
Lemma upsertRepo_returns W rc st :
  exists row st1,
    upsertRepo W rc st = (Ok row, st1)
    /\ In row (Store.repos (State.db st1))
    /\ repo_matches rc row = true
    /\ find (repo_matches rc) (Store.repos (State.db st1)) = Some row.
Proof.
  destruct (find (repo_matches rc) (Store.repos (State.db st))) as [found|] eqn:E.
  - exists found, st. rewrite (upsertRepo_found W rc st found E).
    pose proof (find_some _ _ E) as [Hin Hm]. auto.
  - rewrite (upsertRepo_inserts W rc st E).
    assert (Hm : repo_matches rc
                   (new_repo rc (World.current_timestamp W (State.tick st))
                      (State.db st)) = true).
    { unfold repo_matches, new_repo. cbn. now rewrite !String.eqb_refl. }
    do 2 eexists. split; [reflexivity|]. cbn [State.db with_repo Store.repos].
    split; [rewrite in_app_iff; right; now left|].
    split; [exact Hm|]. now apply find_snoc.
Qed.

(** X15.  [upsertRepo] never throws and returns a stored row with the owner
    and the name of the configuration; asking again for the same owner and
    name, with any label and at any time, returns that same row and changes
    nothing - no second row is made. *)
Theorem upsertRepo_idempotent (W W' : World.t) (rc rc' : RepoWatchConfig.t)
    (st : State.t) :
  RepoWatchConfig.owner rc' = RepoWatchConfig.owner rc ->
  RepoWatchConfig.repo rc' = RepoWatchConfig.repo rc ->
  exists row st1,
    upsertRepo W rc st = (Ok row, st1)
    /\ Repo.owner row = RepoWatchConfig.owner rc
    /\ Repo.name row = RepoWatchConfig.repo rc
    /\ In row (Store.repos (State.db st1))
    /\ upsertRepo W' rc' st1 = (Ok row, st1).
Proof.
  intros Eo Er.
  destruct (upsertRepo_returns W rc st) as (row & st1 & Hrun & Hin & Hm & Hfind).
  exists row, st1. split; [exact Hrun|].
  unfold repo_matches in Hm. apply andb_prop in Hm. destruct Hm as [Ho Hn].
  apply String.eqb_eq in Ho, Hn.
  repeat split; auto.
  apply upsertRepo_found. now rewrite (find_repo_matches_same rc rc').
Qed.

Lemma upsertRepo_idempotent_witness :
  exists row st1,
    upsertRepo (quiet_world exit0) sample_rc initial_state = (Ok row, st1)
    /\ Repo.owner row = "o"
    /\ Repo.name row = "r"
    /\ In row (Store.repos (State.db st1))
    /\ upsertRepo (quiet_world exit128)
         (RepoWatchConfig.mk "o" "r" "other" (Some "dev")) st1
       = (Ok row, st1).
Proof.
  exact (upsertRepo_idempotent (quiet_world exit0) (quiet_world exit128) sample_rc
           (RepoWatchConfig.mk "o" "r" "other" (Some "dev")) initial_state
           eq_refl eq_refl).
Defined.

(** ** Where a listing fails *)

Lemma issues_of_repo_repos_kept W cfg rc repoRecord :
  preserves repos_kept
    (bind (listIssues W (RepoWatchConfig.owner rc) (RepoWatchConfig.repo rc)
             (RepoWatchConfig.label rc))
       (fun issues =>
          bind (console (log_issue_count (RepoWatchConfig.owner rc)
                           (RepoWatchConfig.repo rc) (List.length issues)
                           (RepoWatchConfig.label rc)))
            (fun _ => for_of issues
                        (fun issue => handleIssue W cfg issue repoRecord rc)))).
Proof.
  assert (F : Frame repos_kept)
    by exact (on_db_frame repos_extended repos_extended_refl repos_extended_trans).
  assert (Hsame : forall A (m : M A), preserves db_same m -> preserves repos_kept m).
  { intros A m. apply db_same_on_db. exact repos_extended_refl. }
  apply preserves_bind; [exact F| |intros issues].
  - apply Hsame, request_db_same.
  - apply preserves_bind; [exact F| |intros _].
    + apply Hsame, emit_db_same.
    + apply preserves_for_of; [exact F|]. intros issue.
      apply handleIssue_repos_kept.
Qed.

(** X16.  [processRepo] throws exactly when the listing of the issues
    does, and then throws what the listing threw: [upsertRepo] and
    [handleIssue] never throw.  The listing is asked for after the row of
    the repository is in the store, so the row is there either way. *)
Theorem processRepo_throws_with_listing (W : World.t) (cfg : EngineConfig.t)
    (rc : RepoWatchConfig.t) (st : State.t) :
  let r := processRepo W cfg rc st in
  fst r = match World.listForRepo W (State.tick st) with
          | Ok _ => Ok tt
          | Throw e => Throw e
          end
  /\ exists row, In row (Store.repos (State.db (snd r)))
                 /\ repo_matches rc row = true.
Proof.
  cbv zeta. split.
  - destruct (World.listForRepo W (State.tick st)) as [issues|e] eqn:Hreply.
    + destruct (processRepo_listed W cfg rc st issues Hreply)
        as (st' & delta & -> & _). reflexivity.
    + unfold processRepo, bind.
      destruct (upsertRepo_silent W rc st) as (repoRecord & st1 & -> & _ & Htk1).
      unfold listIssues, request. now rewrite Htk1, Hreply.
  - destruct (upsertRepo_returns W rc st) as (row & st1 & Hrun & Hin & Hm & _).
    exists row. split; [|exact Hm].
    unfold processRepo. unfold bind at 1. rewrite Hrun.
    destruct (issues_of_repo_repos_kept W cfg rc row st1) as (extra & ->).
    rewrite in_app_iff. now left.
Qed.

(** ** The turns of the loop *)






(** ** A failure, reported *)

Lemma createAgentRun_run W cfg taskId st :
  createAgentRun W cfg taskId st
  = (Ok (next_agentRun_id (State.db st)), run_started W cfg taskId st).
Proof. reflexivity. Qed.

(** X18.  Whatever the pipeline throws is what is reported, and it is
    reported in three places: the line on the console, the [error] of the
    run row, which is closed as [failed] together with the task, and the
    comment on the issue.  [runAgentForTask] then returns, also when the
    comment is rejected. *)
Theorem runAgentForTask_reports_failure (W : World.t) (cfg : EngineConfig.t)
    (taskId : Z) (issue : GitHubIssue.t) (rc : RepoWatchConfig.t)
    (st st2 : State.t) (msg : string) :
  let runId := next_agentRun_id (State.db st) in
  let started := run_started W cfg taskId st in
  pipeline W cfg taskId runId issue rc started = (Throw msg, st2) ->
  runAgentForTask W cfg taskId issue rc st
  = (Ok tt,
     State.mk
       (db_failed taskId runId (World.isoNow W (State.tick st2))
          (World.current_timestamp W (S (State.tick st2))) msg
          (State.db started))
       (S (S (State.tick st2)))
       (State.trace st2
        ++ [EvLog (log_task_failed taskId msg); EvCall Date_now;
            failure_comment rc issue msg])).
Proof.
  cbv zeta. intros Hpipe.
  assert (Hdb : State.db st2 = State.db (run_started W cfg taskId st)).
  { destruct (pipeline_outcome W cfg taskId (next_agentRun_id (State.db st))
                issue rc (run_started W cfg taskId st))
      as (st' & [(e & E & D) | (E & _)]); rewrite Hpipe in E.
    - injection E as _ <-. exact D.
    - discriminate. }
  unfold runAgentForTask. unfold bind at 1. rewrite createAgentRun_run.
  unfold try_catch at 1. rewrite Hpipe.
  unfold recordFailure, toISOString_now, request, update_task, update_agentRun,
    bind, CURRENT_TIMESTAMP, get_db, put_db, console, emit, try_catch,
    addIssueComment, request, ret, failure_comment, db_failed.
  cbn [State.db State.tick State.trace]. rewrite Hdb.
  destruct (World.octokit_unit W _) as [[]|e];
    rewrite <- !app_assoc; reflexivity.
Qed.

Lemma runAgentForTask_reports_failure_witness :
  exists st3,
    runAgentForTask (listing_world [] exit128) sample_config 1 (sample_issue 42)
      sample_rc state_after_failure = (Ok tt, st3)
    /\ map run_summary (Store.agentRuns (State.db st3))
       = [ (1, 1, run_failed, Some "git clone exited with code 128");
           (2, 1, run_failed, Some "git clone exited with code 128") ].
Proof.
  eexists. split.
  - eapply (runAgentForTask_reports_failure (listing_world [] exit128)
              sample_config 1 (sample_issue 42) sample_rc state_after_failure
              _ "git clone exited with code 128").
    vm_compute. reflexivity.
  - vm_compute. reflexivity.
Defined.

(** ** No pull request without a push *)

(** X19.  [submitPullRequest] asks for the pull request only after the
    add, the commit and the push all went through: when one of them failed
    it throws, the store is as it was and nothing but the git children was
    done, so no pull request and no comment are sent.  When they went
    through, the next call asks for the pull request, from the branch of
    the run, and its body carries the first 3000 UTF-16 code units of the
    output of the agent, as [slice] counts them - the whole output when it
    has no more. *)
Theorem submitPullRequest_needs_push (W : World.t) (cfg : EngineConfig.t)
    (result : AgentRunResult.t) (issue : GitHubIssue.t)
    (rc : RepoWatchConfig.t) (branch : string) (taskId runId : Z)
    (st : State.t) :
  let pushed :=
    (spawn_ok (World.spawn W (State.tick st))
     && spawn_ok (World.spawn W (S (State.tick st)))
     && spawn_ok (World.spawn W (S (S (State.tick st)))))%bool in
  let r := submitPullRequest W cfg result issue rc branch taskId runId st in
  let dir := repoDir_of cfg rc issue in
  let excerpt := slice0 3000 (AgentRunResult.output result) in
  (pushed = false ->
     (exists e, fst r = Throw e)
     /\ State.db (snd r) = State.db st
     /\ trace_adds git_child st (snd r))
  /\ (pushed = true ->
        exists rest,
          State.trace (snd r)
          = (State.trace st
             ++ [ EvCall (git_add dir);
                  EvCall (git_commit dir (commit_message issue));
                  EvCall (git_push dir branch);
                  EvCall (pr_call rc issue branch excerpt) ] ++ rest)%list)
  /\ (utf16_length excerpt <= 3000)%nat
  /\ ((utf16_length (AgentRunResult.output result) <= 3000)%nat ->
      excerpt = AgentRunResult.output result).
Proof.
  cbv zeta.
  assert (Hrun := commitAndPush_run W (repoDir_of cfg rc issue)
                    (commit_message issue) branch st).
  cbv zeta in Hrun. unfold commit_message in Hrun.
  split; [|split; [|split]].
  - intros Hpushed. unfold submitPullRequest, bind. rewrite Hrun.
    unfold called, git_add, git_commit, git_push.
    destruct (spawn_ok (World.spawn W (State.tick st))).
    + destruct (spawn_ok (World.spawn W (S (State.tick st)))).
      * destruct (spawn_ok (World.spawn W (S (S (State.tick st)))));
          [discriminate|].
        cbn [fst snd State.db State.trace].
        split; [eexists; reflexivity|]. split; [reflexivity|].
        eexists. rewrite <- !app_assoc. cbn [app]. split; [reflexivity|].
        repeat constructor.
      * cbn [fst snd State.db State.trace].
        split; [eexists; reflexivity|]. split; [reflexivity|].
        eexists. rewrite <- !app_assoc. cbn [app]. split; [reflexivity|].
        repeat constructor.
    + cbn [fst snd State.db State.trace].
      split; [eexists; reflexivity|]. split; [reflexivity|].
      eexists. split; [reflexivity|]. repeat constructor.
  - intros Hpushed. unfold submitPullRequest, bind. rewrite Hrun.
    apply andb_prop in Hpushed. destruct Hpushed as [Hpushed ->].
    apply andb_prop in Hpushed. destruct Hpushed as [-> ->].
    unfold createPullRequest, request, called, pr_call, git_add, git_commit,
      git_push, commit_message.
    cbn [State.db State.tick State.trace].
    destruct (World.pulls_create W _) as [pr|e].
    + unfold toISOString_now, request, update_task, update_agentRun, bind,
        CURRENT_TIMESTAMP, get_db, put_db, console, emit, try_catch,
        addIssueComment, request, ret.
      cbn [State.db State.tick State.trace].
      destruct (World.octokit_unit W _) as [[]|e];
        cbn [snd State.trace]; eexists;
        rewrite <- !app_assoc; cbn [app]; reflexivity.
    + cbn [snd State.trace]. exists [].
      rewrite <- !app_assoc. cbn [app]. reflexivity.
  - apply units_slice_from.
  - intros Hshort. now apply slice_from_whole.
Qed.

(** ** The pipeline stops where the preparation fails *)

Lemma prepareWorkDir_run W cfg rc issue st :
  prepareWorkDir W cfg rc issue st
  = match World.mkdir W (State.tick st) with
    | Throw e => (Throw e, called (mkdir_call cfg) st)
    | Ok _ =>
        let reply := World.spawn W (S (State.tick st)) in
        (if spawn_ok reply then Ok (branch_of issue, repoDir_of cfg rc issue)
         else Throw (spawn_failure reply "git clone"),
         called (clone_call cfg rc issue) (called (mkdir_call cfg) st))
    end.
Proof.
  unfold prepareWorkDir, cloneRepo, do_spawnSync, bind, request, ret, called,
    mkdir_call, clone_call.
  cbn [State.db State.tick State.trace app].
  destruct (World.mkdir W (State.tick st)) as [[]|e]; [|reflexivity].
  rewrite check_spawn_run. cbv zeta.
  destruct (spawn_ok (World.spawn W (S (State.tick st)))); reflexivity.
Qed.

Lemma try_createBranch_state W owner repo branch fromBranch st :
  try_catch (createBranch W owner repo branch fromBranch ;;; ret tt)
    (fun _ => ret tt) st
  = (Ok tt, snd (createBranch W owner repo branch fromBranch st)).
Proof.
  unfold try_catch. unfold bind at 1.
  destruct (createBranch W owner repo branch fromBranch st) as [[sha|e] st1];
    reflexivity.
Qed.

(** X20.  The pipeline stops at the first step of the preparation that
    fails, and throws what that step threw.  When the work directory cannot
    be made, nothing is cloned.  When the clone fails, GitHub is not asked
    for a branch.  When the checkout fails - after the remote creation of
    the branch, whatever came of it - the agent is not run.  In each case
    the failed step is the last thing done. *)
Theorem pipeline_stops_at_preparation (W : World.t) (cfg : EngineConfig.t)
    (taskId runId : Z) (issue : GitHubIssue.t) (rc : RepoWatchConfig.t)
    (st : State.t) :
  let made := called (mkdir_call cfg) st in
  let cloned := called (clone_call cfg rc issue) made in
  let clone_reply := World.spawn W (S (State.tick st)) in
  let branched :=
    snd (createBranch W (RepoWatchConfig.owner rc) (RepoWatchConfig.repo rc)
           (branch_of issue) (RepoWatchConfig.baseBranch rc) cloned) in
  let checkout_reply := World.spawn W (State.tick branched) in
  (forall e,
     World.mkdir W (State.tick st) = Throw e ->
     pipeline W cfg taskId runId issue rc st = (Throw e, made))
  /\ (World.mkdir W (State.tick st) = Ok tt ->
      spawn_ok clone_reply = false ->
      pipeline W cfg taskId runId issue rc st
      = (Throw (spawn_failure clone_reply "git clone"), cloned))
  /\ (World.mkdir W (State.tick st) = Ok tt ->
      spawn_ok clone_reply = true ->
      spawn_ok checkout_reply = false ->
      pipeline W cfg taskId runId issue rc st
      = (Throw (spawn_failure checkout_reply "git checkout"),
         called (checkout cfg rc issue) branched)).
Proof.
  cbv zeta. split; [|split].
  - intros e Hmk. unfold pipeline. unfold bind at 1.
    rewrite prepareWorkDir_run, Hmk. reflexivity.
  - intros Hmk Hclone. unfold pipeline. unfold bind at 1.
    rewrite prepareWorkDir_run, Hmk. cbv zeta. rewrite Hclone. reflexivity.
  - intros Hmk Hclone Hcheckout. unfold pipeline. unfold bind at 1.
    rewrite prepareWorkDir_run, Hmk. cbv zeta. rewrite Hclone.
    cbv beta iota. unfold bind at 1. unfold prepareBranch. unfold bind at 1.
    rewrite try_createBranch_state.
    rewrite checkoutBranch_run. cbv zeta.
    rewrite check_spawn_run. rewrite Hcheckout. reflexivity.
Qed.

Lemma pipeline_stops_at_preparation_witness :
  fst (pipeline clone_only_world sample_config 1 1 (sample_issue 42) sample_rc
         initial_state)
  = Throw "git checkout exited with code 128".
Proof.
  rewrite (proj2 (proj2 (pipeline_stops_at_preparation clone_only_world
                           sample_config 1 1 (sample_issue 42) sample_rc
                           initial_state)) eq_refl eq_refl eq_refl).
  reflexivity.
Defined.
